(** * fsa::bstree: a sentinel-based binary search tree (src/bstree.h)

    The container is modelled the way the C++ is written: nodes live in a
    heap, are linked by [father]/[left]/[right] pointers, and every member
    function is a computation over that heap.  Three things that the C++
    leaves to the language are made explicit:

    - a pointer is [None] (nullptr) or [Some a];
    - an object that no constructor has written is either zero-filled or
      indeterminate, depending on the storage handed out by [operator new]
      (the [storage] parameter below); reading an indeterminate object is
      undefined behaviour;
    - a loop runs on fuel, and running out of it is reported as [OutOfFuel],
      apart from [Undefined] (null or dangling dereference, indeterminate
      read).

    The element type [T] is instantiated with the integers; the code only
    ever compares elements with [==] and [<]. *)

From Stdlib Require Import ZArith Lia.
From stdpp Require Import base option list sorting gmap.

Set Warnings "-clear-no-such-hyp".

(** ** Memory *)

Definition addr := nat.

(** The null pointer. *)
Definition nullptr : option addr := None.

(** An object in memory: never written ([Indet]) or holding a value. *)
Inductive slot (A : Type) : Type :=
  | Indet
  | Val (a : A).
Arguments Indet {A}.
Arguments Val {A} a.

(** [struct bst_node], lines 12-43. *)
Record bst_node := mk_node {
  data : slot Z;
  father : slot (option addr);
  left : slot (option addr);
  right : slot (option addr)
}.

(** What [operator new] hands out before any constructor has run. *)
Inductive storage := Indeterminate | ZeroFilled.

Definition raw_data (st : storage) : slot Z :=
  match st with Indeterminate => Indet | ZeroFilled => Val 0%Z end.

Definition raw_link (st : storage) : slot (option addr) :=
  match st with Indeterminate => Indet | ZeroFilled => Val nullptr end.

Definition raw_node (st : storage) : bst_node :=
  mk_node (raw_data st) (raw_link st) (raw_link st) (raw_link st).

(** ** Computations over the heap *)

Inductive outcome (A : Type) : Type :=
  | Done (a : A)
  | Undefined
  | OutOfFuel.
Arguments Done {A} a.
Arguments Undefined {A}.
Arguments OutOfFuel {A}.

Definition M (A : Type) : Type :=
  gmap addr bst_node → outcome (A * gmap addr bst_node).

Definition ret {A : Type} (a : A) : M A := λ h, Done (a, h).

Definition bind {A B : Type} (m : M A) (f : A → M B) : M B := λ h,
  match m h with
  | Done (a, h') => f a h'
  | Undefined => Undefined
  | OutOfFuel => OutOfFuel
  end.

Declare Scope heap_scope.
Delimit Scope heap_scope with heap.
Bind Scope heap_scope with M.
Notation "x ← y ; z" := (bind y (λ x, z))
  (at level 20, y at level 100, z at level 200, only parsing) : heap_scope.
Notation "x ;; z" := (bind x (λ _, z))
  (at level 100, z at level 200, only parsing, right associativity) : heap_scope.
Open Scope heap_scope.

Definition undef {A : Type} : M A := λ _, Undefined.
Definition timeout {A : Type} : M A := λ _, OutOfFuel.

(** The value a computation returns when started in the empty heap. *)
Definition result {A : Type} (m : M A) : outcome A :=
  match m ∅ with
  | Done (a, _) => Done a
  | Undefined => Undefined
  | OutOfFuel => OutOfFuel
  end.

(** [*p]: the node a pointer designates. *)
Definition deref (p : option addr) : M bst_node := λ h,
  match p with
  | None => Undefined
  | Some a => match h !! a with Some n => Done (n, h) | None => Undefined end
  end.

(** Lvalue-to-rvalue conversion. *)
Definition read {A : Type} (s : slot A) : M A :=
  match s with Val a => ret a | Indet => undef end.

Definition modify (p : option addr) (f : bst_node → bst_node) : M unit := λ h,
  match p with
  | None => Undefined
  | Some a =>
      match h !! a with
      | Some n => Done (tt, <[a := f n]> h)
      | None => Undefined
      end
  end.

Definition get_data (p : option addr) : M Z := n ← deref p; read (data n).
Definition get_father (p : option addr) : M (option addr) := n ← deref p; read (father n).
Definition get_left (p : option addr) : M (option addr) := n ← deref p; read (left n).
Definition get_right (p : option addr) : M (option addr) := n ← deref p; read (right n).

Definition set_data (p : option addr) (v : Z) : M unit :=
  modify p (λ n, mk_node (Val v) (father n) (left n) (right n)).
Definition set_father (p q : option addr) : M unit :=
  modify p (λ n, mk_node (data n) (Val q) (left n) (right n)).
Definition set_left (p q : option addr) : M unit :=
  modify p (λ n, mk_node (data n) (father n) (Val q) (right n)).
Definition set_right (p q : option addr) : M unit :=
  modify p (λ n, mk_node (data n) (father n) (left n) (Val q)).

(** [operator new (sizeof (bst_node))]: a node-sized block at an unused
    address, holding whatever the storage holds. *)
Definition operator_new (st : storage) : M (option addr) := λ h,
  let a := fresh (dom h) in Done (Some a, <[a := raw_node st]> h).

(** Giving the block back. *)
Definition operator_delete (p : option addr) : M unit := λ h,
  match p with
  | None => Undefined
  | Some a => match h !! a with Some _ => Done (tt, delete a h) | None => Undefined end
  end.

(** ** Node constructors and destructor *)

(** [bst_node() {}], line 18: no member is written. *)
Definition bst_node_default (st : storage) : M (option addr) :=
  operator_new st.

(** [bst_node(T _val, bst_node * _pf) : data(_val), father(_pf) {}], line 37:
    [left] and [right] are not written. *)
Definition bst_node_leaf (st : storage) (_val : Z) (_pf : option addr) : M (option addr) :=
  this ← operator_new st;
  set_data this _val;;
  set_father this _pf;;
  ret this.

(** [bst_node(const bst_node & other, bst_node * pf)], lines 21-25. *)
Fixpoint bst_node_copy (fuel : nat) (st : storage) (other pf : option addr)
    {struct fuel} : M (option addr) :=
  match fuel with
  | O => timeout
  | S fuel' =>
      this ← operator_new st;
      d ← get_data other;
      set_data this d;;
      set_father this pf;;
      ol ← get_left other;
      match ol with
      | Some _ => c ← bst_node_copy fuel' st ol this; set_left this c
      | None => ret tt
      end;;
      or ← get_right other;
      match or with
      | Some _ => c ← bst_node_copy fuel' st or this; set_right this c
      | None => ret tt
      end;;
      ret this
  end.

(** [bst_node(bst_node && other, const bst_node * pf)], lines 28-35. *)
Definition bst_node_move (st : storage) (other pf : option addr) : M (option addr) :=
  this ← operator_new st;
  d ← get_data other;
  set_data this d;;
  set_father this pf;;
  l ← get_left other;
  set_left this l;;
  r ← get_right other;
  set_right this r;;
  (* line 32: the fathers of both children become this node *)
  r' ← get_right this;
  set_father r' this;;
  l' ← get_left this;
  set_father l' this;;
  (* line 34: the source's links are cleared *)
  set_right other nullptr;;
  set_left other nullptr;;
  ret this.

(** [delete p]: nothing for a null pointer; otherwise [~bst_node()]
    (lines 38-42: [delete left; delete right;]) and then the block is freed. *)
Fixpoint bst_node_delete (fuel : nat) (p : option addr) {struct fuel} : M unit :=
  match p with
  | None => ret tt
  | Some _ =>
      match fuel with
      | O => timeout
      | S fuel' =>
          l ← get_left p;
          bst_node_delete fuel' l;;
          r ← get_right p;
          bst_node_delete fuel' r;;
          operator_delete p
      end
  end.

(** ** Iterator, lines 45-135 *)

Record bst_iterator := mk_iterator { _ptr : option addr }.

Module iterator.

(** The inner loop of lines 68-71: follow [left] until there is none. *)
Fixpoint descend_left (fuel : nat) (p : option addr) {struct fuel} : M (option addr) :=
  l ← get_left p;
  match l with
  | None => ret p
  | Some _ =>
      match fuel with
      | O => timeout
      | S fuel' => descend_left fuel' l
      end
  end.

(** The loop of lines 78-82: while [prev] is the [right] of the current
    node, [prev] becomes the current node and the current node its [father]. *)
Fixpoint ascend_right (fuel : nat) (prev p : option addr) {struct fuel} : M (option addr) :=
  r ← get_right p;
  if bool_decide (prev = r) then
    match fuel with
    | O => timeout
    | S fuel' => f ← get_father p; ascend_right fuel' p f
    end
  else ret p.

(** [operator++()], lines 62-85.  The body writes [this->ptr] for the
    member declared as [_ptr]. *)
Definition increment (fuel : nat) (it : bst_iterator) : M bst_iterator :=
  r ← get_right (_ptr it);
  match r with
  | Some _ => p ← descend_left fuel r; ret (mk_iterator p)
  | None =>
      f ← get_father (_ptr it);
      p ← ascend_right fuel (_ptr it) f;
      ret (mk_iterator p)
  end.

(** The loops of [operator--()], lines 94-117, mirror those of the increment. *)
Fixpoint descend_right (fuel : nat) (p : option addr) {struct fuel} : M (option addr) :=
  r ← get_right p;
  match r with
  | None => ret p
  | Some _ =>
      match fuel with
      | O => timeout
      | S fuel' => descend_right fuel' r
      end
  end.

Fixpoint ascend_left (fuel : nat) (prev p : option addr) {struct fuel} : M (option addr) :=
  l ← get_left p;
  if bool_decide (prev = l) then
    match fuel with
    | O => timeout
    | S fuel' => f ← get_father p; ascend_left fuel' p f
    end
  else ret p.

Definition decrement (fuel : nat) (it : bst_iterator) : M bst_iterator :=
  l ← get_left (_ptr it);
  match l with
  | Some _ => p ← descend_right fuel l; ret (mk_iterator p)
  | None =>
      f ← get_father (_ptr it);
      p ← ascend_left fuel (_ptr it) f;
      ret (mk_iterator p)
  end.

(** The dereference operator, lines 52-55, read as the element of the node. *)
Definition star (it : bst_iterator) : M Z := get_data (_ptr it).

(** The equality operator, lines 126-129. *)
Definition eq (a b : bst_iterator) : bool := bool_decide (_ptr a = _ptr b).

End iterator.

(** ** The tree, lines 145-299 *)

Record bstree := mk_bstree { _header_ptr : option addr; _size : N }.

Module tree.

(** Lines 150-152. *)
Definition _root (t : bstree) : M (option addr) := get_father (_header_ptr t).
Definition _left_most (t : bstree) : M (option addr) := get_right (_header_ptr t).
Definition _right_most (t : bstree) : M (option addr) := get_left (_header_ptr t).

(** [bstree()], lines 156-157. *)
Definition create (st : storage) : M bstree :=
  hdr ← bst_node_default st;
  set_right hdr hdr;;
  set_left hdr hdr;;
  set_father hdr hdr;;
  ret (mk_bstree hdr 0).

(** [explicit bstree(value_type & _val)], lines 159-163.  The second
    constructor argument is written [_header_ptr->_ptr]; whichever member is
    meant, it is reached through [_header_ptr]. *)
Definition create_from (st : storage) (_val : Z) : M bstree :=
  let hdr := nullptr in
  let sz := 1%N in
  hn ← deref hdr;
  pf ← read (father hn);
  r ← bst_node_leaf st _val pf;
  set_father hdr r;;
  r' ← get_father hdr;
  set_right hdr r';;
  set_right hdr r';;
  ret (mk_bstree hdr sz).

(** Lines 170-175. *)
Definition size (t : bstree) : N := _size t.

Definition empty (t : bstree) : M bool :=
  r ← _root t; ret (bool_decide (r = _header_ptr t)).

Definition begin (t : bstree) : M bst_iterator :=
  p ← _left_most t; ret (mk_iterator p).

Definition end_ (t : bstree) : M bst_iterator :=
  ret (mk_iterator (_header_ptr t)).

Definition front (t : bstree) : M Z := p ← _left_most t; get_data p.
Definition back (t : bstree) : M Z := p ← _right_most t; get_data p.

(** [clear()], lines 187-195. *)
Definition clear (fuel : nat) (t : bstree) : M bstree :=
  e ← empty t;
  if e then ret t
  else
    r ← _root t;
    bst_node_delete fuel r;;
    set_father (_header_ptr t) (_header_ptr t);;
    ret t.

(** [operator=(const bstree &)], lines 206-219.  Two tree objects are the
    same object exactly when they have the same header. *)
Definition copy_assign (fuel : nat) (st : storage) (this _opr : bstree) : M bstree :=
  if bool_decide (_header_ptr this = _header_ptr _opr) then ret this
  else
    this' ← clear fuel this;
    e ← empty _opr;
    if e then ret this'
    else
      r ← _root _opr;
      c ← bst_node_copy fuel st r (_header_ptr this');
      set_father (_header_ptr this') c;;
      ret this'.

(** The loop of [find], lines 226-238. *)
Fixpoint find_loop (fuel : nat) (_val : Z) (p : option addr) {struct fuel}
    : M (option addr) :=
  match p with
  | None => ret None
  | Some _ =>
      match fuel with
      | O => timeout
      | S fuel' =>
          d ← get_data p;
          if (_val =? d)%Z then ret p
          else
            next ← (if (_val <? d)%Z then get_left p else get_right p);
            find_loop fuel' _val next
      end
  end.

(** [find], lines 221-248. *)
Definition find (fuel : nat) (t : bstree) (_val : Z) : M bst_iterator :=
  r ← _root t;
  p ← find_loop fuel _val r;
  match p with
  | None => end_ t
  | Some _ => ret (mk_iterator p)
  end.

(** The search loop of [insert], lines 264-277: [None] when the value is
    found (the function returns), otherwise the last node visited. *)
Fixpoint insert_loop (fuel : nat) (_val : Z) (p prev : option addr) {struct fuel}
    : M (option (option addr)) :=
  match p with
  | None => ret (Some prev)
  | Some _ =>
      match fuel with
      | O => timeout
      | S fuel' =>
          d ← get_data p;
          if (_val =? d)%Z then ret None
          else
            next ← (if (_val <? d)%Z then get_left p else get_right p);
            insert_loop fuel' _val next p
      end
  end.

(** Lines 279-287. *)
Definition attach (st : storage) (_val : Z) (prev : option addr) : M unit :=
  d ← get_data prev;
  if (_val <? d)%Z then
    n ← bst_node_leaf st _val prev; set_left prev n
  else
    n ← bst_node_leaf st _val prev; set_right prev n.

(** Lines 289-297. *)
Definition adjust (t : bstree) : M unit :=
  hl ← get_left (_header_ptr t);
  hll ← get_left hl;
  match hll with
  | Some _ => set_left (_header_ptr t) hll
  | None => ret tt
  end;;
  hr ← get_right (_header_ptr t);
  hrr ← get_right hr;
  match hrr with
  | Some _ => set_right (_header_ptr t) hrr
  | None => ret tt
  end.

(** [insert], lines 250-299. *)
Definition insert (fuel : nat) (st : storage) (t : bstree) (_val : Z) : M bstree :=
  e ← empty t;
  if e then
    n ← bst_node_leaf st _val (_header_ptr t);
    set_father (_header_ptr t) n;;
    f ← get_father (_header_ptr t);
    set_right (_header_ptr t) f;;
    set_left (_header_ptr t) f;;
    ret t
  else
    r ← get_father (_header_ptr t);
    found ← insert_loop fuel _val r r;
    match found with
    | None => ret t
    | Some prev => attach st _val prev;; adjust t;; ret t
    end.

(** A run of [insert] calls on one tree. *)
Fixpoint inserts (fuel : nat) (st : storage) (t : bstree) (vs : list Z) : M bstree :=
  match vs with
  | [] => ret t
  | v :: vs' => t' ← insert fuel st t v; inserts fuel st t' vs'
  end.

(** [~bstree()], lines 197-204: [clear()], then the header's [left] and
    [right] are reset to null and the header is deleted. *)
Definition destroy (fuel : nat) (t : bstree) : M unit :=
  t' ← clear fuel t;
  set_right (_header_ptr t') nullptr;;
  set_left (_header_ptr t') nullptr;;
  bst_node_delete fuel (_header_ptr t').

(** A tree built from nothing: [bstree t; t.insert(v1); ...]. *)
Definition build (fuel : nat) (st : storage) (vs : list Z) : M bstree :=
  t ← create st; inserts fuel st t vs.

End tree.

(** ** The shape of a tree in the heap

    A binary tree of (address, element) pairs, and what it means for the
    nodes hanging from a link to form that tree.  [nil] is the content of a
    link with no child: a null pointer in a well-formed tree, and whatever the
    storage held for the leaves that [bst_node_leaf] makes. *)

Inductive btree :=
  | E
  | N (l : btree) (a : addr) (v : Z) (r : btree).

Fixpoint nodes (t : btree) : list (addr * Z) :=
  match t with
  | E => []
  | N l a v r => nodes l ++ (a, v) :: nodes r
  end.

Definition addrs (t : btree) : list addr := (nodes t).*1.
Definition elems (t : btree) : list Z := (nodes t).*2.

Fixpoint bsize (t : btree) : nat :=
  match t with
  | E => 0
  | N l _ _ r => S (bsize l + bsize r)
  end.

Fixpoint shape (nil : slot (option addr)) (h : gmap addr bst_node)
    (s : slot (option addr)) (f : option addr) (t : btree) : Prop :=
  match t with
  | E => s = nil
  | N l a v r =>
      s = Val (Some a) ∧
      ∃ sl sr, h !! a = Some (mk_node (Val v) (Val f) sl sr) ∧
               shape nil h sl (Some a) l ∧ shape nil h sr (Some a) r
  end.

(** Strictly smaller on the left, strictly greater on the right. *)
Fixpoint bst (t : btree) : Prop :=
  match t with
  | E => True
  | N l _ v r =>
      Forall (λ x, x < v)%Z (elems l) ∧ Forall (λ x, v < x)%Z (elems r) ∧
      bst l ∧ bst r
  end.

(** Insertion and lookup on the shape. *)
Fixpoint binsert (n : addr) (x : Z) (t : btree) : btree :=
  match t with
  | E => N E n x E
  | N l a v r =>
      if (x =? v)%Z then t
      else if (x <? v)%Z then N (binsert n x l) a v r
      else N l a v (binsert n x r)
  end.

Fixpoint bfind (x : Z) (t : btree) : option addr :=
  match t with
  | E => None
  | N l a v r =>
      if (x =? v)%Z then Some a
      else if (x <? v)%Z then bfind x l else bfind x r
  end.

(** ** Heap-level notions used in the statements *)

(** [in_subtree h p b]: node [b] is reached from the link [p] by following
    [left] and [right] links. *)
Inductive in_subtree (h : gmap addr bst_node) : option addr → addr → Prop :=
  | in_subtree_here a n :
      h !! a = Some n → in_subtree h (Some a) a
  | in_subtree_left a n c b :
      h !! a = Some n → left n = Val c → in_subtree h c b → in_subtree h (Some a) b
  | in_subtree_right a n c b :
      h !! a = Some n → right n = Val c → in_subtree h c b → in_subtree h (Some a) b.

(** The element held by a node. *)
Definition holds (h : gmap addr bst_node) (b : addr) (v : Z) : Prop :=
  ∃ n, h !! b = Some n ∧ data n = Val v.

(** The root link of a non-empty tree. *)
Definition root_of (h : gmap addr bst_node) (t : bstree) (r : option addr) : Prop :=
  ∃ hdr hn, _header_ptr t = Some hdr ∧ h !! hdr = Some hn ∧
            father hn = Val r ∧ r ≠ Some hdr.

(** A real node of the tree: any node below the root. *)
Definition real_node (h : gmap addr bst_node) (t : bstree) (b : addr) : Prop :=
  ∃ r, root_of h t r ∧ in_subtree h r b.

(** The ordering invariant, node by node. *)
Definition bst_ordered (h : gmap addr bst_node) (t : bstree) : Prop :=
  ∀ n nn v, real_node h t n → h !! n = Some nn → data nn = Val v →
    (∀ c b w, left nn = Val c → in_subtree h c b → holds h b w → (w < v)%Z) ∧
    (∀ c b w, right nn = Val c → in_subtree h c b → holds h b w → (v < w)%Z).

(** No element is held by two nodes. *)
Definition no_duplicates (h : gmap addr bst_node) (t : bstree) : Prop :=
  ∀ a b v, real_node h t a → real_node h t b → holds h a v → holds h b v → a = b.

(** A tree object whose header is allocated and whose root link leads to the
    nodes of [shp], each at its own address, none of them the header. *)
Definition tree_at (nil : slot (option addr)) (h : gmap addr bst_node)
    (t : bstree) (shp : btree) : Prop :=
  ∃ hdr hn, _header_ptr t = Some hdr ∧ h !! hdr = Some hn ∧
    (match shp with
     | E => father hn = Val (Some hdr)
     | N _ _ _ _ => shape nil h (father hn) (Some hdr) shp
     end) ∧
    (hdr ∉ addrs shp) ∧ NoDup (addrs shp).

(** The extremum caches of the header point into the tree. *)
Definition caches_in (h : gmap addr bst_node) (t : bstree) (shp : btree) : Prop :=
  ∃ hdr hn x y, _header_ptr t = Some hdr ∧ h !! hdr = Some hn ∧
    left hn = Val (Some x) ∧ right hn = Val (Some y) ∧
    (match shp with
     | E => True
     | N _ _ _ _ => x ∈ addrs shp ∧ y ∈ addrs shp
     end).

(** The first and the last node of a shape in element order. *)
Fixpoint leftmost (t : btree) : option (addr * Z) :=
  match t with
  | E => None
  | N l a v _ => match leftmost l with Some m => Some m | None => Some (a, v) end
  end.

Fixpoint rightmost (t : btree) : option (addr * Z) :=
  match t with
  | E => None
  | N _ a v r => match rightmost r with Some m => Some m | None => Some (a, v) end
  end.

(** What [insert] keeps in the header of a non-empty tree: [left] names the
    leftmost node and [right] the rightmost one. *)
Definition caches_mirrored (h : gmap addr bst_node) (t : bstree) (shp : btree) : Prop :=
  shp ≠ E →
  ∃ hdr hn x wx y wy, _header_ptr t = Some hdr ∧ h !! hdr = Some hn ∧
    left hn = Val (Some x) ∧ leftmost shp = Some (x, wx) ∧
    right hn = Val (Some y) ∧ rightmost shp = Some (y, wy).

(** What a tree has taken from the heap [h0] it started in: its header and
    its nodes were free in [h0], and everything else is as it was in [h0]. *)
Definition owned (h0 h : gmap addr bst_node) (t : bstree) (shp : btree) : Prop :=
  ∃ hdr, _header_ptr t = Some hdr ∧ h0 !! hdr = None ∧
    (∀ b, b ∈ addrs shp → h0 !! b = None) ∧
    (∀ b, b ≠ hdr → b ∉ addrs shp → h !! b = h0 !! b).

(** Two shapes with the same elements at the same places, whatever the
    addresses of their nodes. *)
Fixpoint same_values (t t' : btree) : Prop :=
  match t, t' with
  | E, E => True
  | N l _ v r, N l' _ v' r' => v = v' ∧ same_values l l' ∧ same_values r r'
  | _, _ => False
  end.

(** The element at the root of a shape. *)
Definition root_value (t : btree) : option Z :=
  match t with E => None | N _ _ v _ => Some v end.

(** [next t m m']: in the order of the elements, node [m'] comes right after
    node [m] in the shape [t]. *)
Inductive next : btree → addr * Z → addr * Z → Prop :=
  | next_left l a v r m m' : next l m m' → next (N l a v r) m m'
  | next_right l a v r m m' : next r m m' → next (N l a v r) m m'
  | next_up l a v r m : rightmost l = Some m → next (N l a v r) m (a, v)
  | next_down l a v r m : leftmost r = Some m → next (N l a v r) (a, v) m.

(** [chain R x l]: each element of [x :: l] is related to the one after it. *)
Fixpoint chain {A : Type} (R : A → A → Prop) (x : A) (l : list A) : Prop :=
  match l with
  | [] => True
  | y :: l' => R x y ∧ chain R y l'
  end.

(** ** Clients

    The loop a client writes to visit a tree, from [begin()] by [++it] until
    [end()], collecting the elements; it is bounded by [steps]. *)
Fixpoint traverse (fuel steps : nat) (it e : bst_iterator) {struct steps} : M (list Z) :=
  if iterator.eq it e then ret []
  else
    match steps with
    | O => timeout
    | S steps' =>
        d ← iterator.star it;
        it' ← iterator.increment fuel it;
        rest ← traverse fuel steps' it' e;
        ret (d :: rest)
    end.

Definition visit (fuel steps : nat) (t : bstree) : M (list Z) :=
  b ← tree.begin t; e ← tree.end_ t; traverse fuel steps b e.

(** The heap after [insert(5); insert(3); insert(8)] on zero-filled storage:
    header at 0, then the nodes in allocation order. *)
Definition heap_5_3_8 : gmap addr bst_node :=
  list_to_map
    [ (0, mk_node (Val 0%Z) (Val (Some 1)) (Val (Some 2)) (Val (Some 3)));
      (1, mk_node (Val 5%Z) (Val (Some 0)) (Val (Some 2)) (Val (Some 3)));
      (2, mk_node (Val 3%Z) (Val (Some 1)) (Val nullptr) (Val nullptr));
      (3, mk_node (Val 8%Z) (Val (Some 1)) (Val nullptr) (Val nullptr)) ].

Definition shape_5_3_8 : btree := N (N E 2 3%Z E) 1 5%Z (N E 3 8%Z E).

(** A node without children, alone in the heap. *)
Definition heap_leaf : gmap addr bst_node :=
  {[ 0 := mk_node (Val 5%Z) (Val nullptr) (Val nullptr) (Val nullptr) ]}.

(** A link without a child: never written, or null. *)
Definition childless (nil : slot (option addr)) : Prop :=
  nil = Indet ∨ nil = Val nullptr.

(** Reading an object in a given heap. *)
Definition run_slot {A : Type} (s : slot A) (h : gmap addr bst_node)
    : outcome (A * gmap addr bst_node) :=
  match s with Val v => Done (v, h) | Indet => Undefined end.

Tactic Notation "red_run" := cbv beta iota delta [run_slot nullptr].
Tactic Notation "red_run" "in" hyp(H) := cbv beta iota delta [run_slot nullptr] in H.

(** Deciding a closed proposition by evaluation. *)
Ltac by_compute := apply (bool_decide_unpack _); vm_compute; exact I.

(** * Proofs *)

(** ** Running the primitives *)

Section run.
Context {A B : Type}.
Implicit Types (h : gmap addr bst_node) (a : addr) (n : bst_node).

Lemma run_bind (m : M A) (f : A → M B) h :
  bind m f h =
  match m h with
  | Done (x, h') => f x h'
  | Undefined => Undefined
  | OutOfFuel => OutOfFuel
  end.
Proof. reflexivity. Qed.

Lemma run_ret (x : A) h : ret x h = Done (x, h).
Proof. reflexivity. Qed.

Lemma bind_done (m : M A) (f : A → M B) h r :
  bind m f h = Done r → ∃ x h', m h = Done (x, h') ∧ f x h' = Done r.
Proof.
  rewrite run_bind. destruct (m h) as [[x h']| |]; try discriminate. eauto.
Qed.

End run.

Section primitives.
Implicit Types (h : gmap addr bst_node) (a : addr) (n : bst_node).

Lemma run_get_data h a n : h !! a = Some n → get_data (Some a) h = run_slot (data n) h.
Proof. intros H. unfold get_data, bind, deref. rewrite H. by destruct (data n). Qed.

Lemma run_get_father h a n : h !! a = Some n → get_father (Some a) h = run_slot (father n) h.
Proof. intros H. unfold get_father, bind, deref. rewrite H. by destruct (father n). Qed.

Lemma run_get_left h a n : h !! a = Some n → get_left (Some a) h = run_slot (left n) h.
Proof. intros H. unfold get_left, bind, deref. rewrite H. by destruct (left n). Qed.

Lemma run_get_right h a n : h !! a = Some n → get_right (Some a) h = run_slot (right n) h.
Proof. intros H. unfold get_right, bind, deref. rewrite H. by destruct (right n). Qed.

Lemma run_modify h a n f : h !! a = Some n → modify (Some a) f h = Done (tt, <[a := f n]> h).
Proof. intros H. unfold modify. by rewrite H. Qed.

Lemma modify_done p f h r :
  modify p f h = Done r → ∃ a n, p = Some a ∧ h !! a = Some n ∧ r = (tt, <[a := f n]> h).
Proof.
  unfold modify. destruct p as [a|]; [|discriminate].
  destruct (h !! a) as [n|] eqn:Hn; [|discriminate].
  intros [= <-]. eauto.
Qed.

Lemma get_left_done p h r :
  get_left p h = Done r →
  ∃ a n, p = Some a ∧ h !! a = Some n ∧ left n = Val r.1 ∧ r.2 = h.
Proof.
  unfold get_left, bind, deref. destruct p as [a|]; [|discriminate].
  destruct (h !! a) as [n|] eqn:Hn; [|discriminate].
  destruct (left n) eqn:Hl; [discriminate|]. intros [= <-]. eauto 10.
Qed.

Lemma get_right_done p h r :
  get_right p h = Done r →
  ∃ a n, p = Some a ∧ h !! a = Some n ∧ right n = Val r.1 ∧ r.2 = h.
Proof.
  unfold get_right, bind, deref. destruct p as [a|]; [|discriminate].
  destruct (h !! a) as [n|] eqn:Hn; [|discriminate].
  destruct (right n) eqn:Hl; [discriminate|]. intros [= <-]. eauto 10.
Qed.

Lemma get_father_done p h r :
  get_father p h = Done r →
  ∃ a n, p = Some a ∧ h !! a = Some n ∧ father n = Val r.1 ∧ r.2 = h.
Proof.
  unfold get_father, bind, deref. destruct p as [a|]; [|discriminate].
  destruct (h !! a) as [n|] eqn:Hn; [|discriminate].
  destruct (father n) eqn:Hl; [discriminate|]. intros [= <-]. eauto 10.
Qed.

Lemma get_data_done p h r :
  get_data p h = Done r →
  ∃ a n, p = Some a ∧ h !! a = Some n ∧ data n = Val r.1 ∧ r.2 = h.
Proof.
  unfold get_data, bind, deref. destruct p as [a|]; [|discriminate].
  destruct (h !! a) as [n|] eqn:Hn; [|discriminate].
  destruct (data n) eqn:Hl; [discriminate|]. intros [= <-]. eauto 10.
Qed.

Lemma fresh_unused h : h !! fresh (dom h) = None.
Proof. apply not_elem_of_dom, is_fresh. Qed.

Lemma fresh_ne h a n : h !! a = Some n → a ≠ fresh (dom h).
Proof. intros H ->. rewrite fresh_unused in H. discriminate. Qed.

Lemma run_leaf st v pf h :
  bst_node_leaf st v pf h =
  Done (Some (fresh (dom h)),
        <[fresh (dom h) := mk_node (Val v) (Val pf) (raw_link st) (raw_link st)]> h).
Proof.
  unfold bst_node_leaf, operator_new, set_data, set_father.
  rewrite run_bind. cbv zeta.
  rewrite run_bind, (run_modify _ _ _ _ (lookup_insert_eq _ _ _)).
  rewrite run_bind, (run_modify _ _ _ _ (lookup_insert_eq _ _ _)).
  rewrite run_ret, !insert_insert_eq. reflexivity.
Qed.

End primitives.

(** ** Shapes *)

Section shapes.
Implicit Types (h : gmap addr bst_node) (t l r : btree) (nil s : slot (option addr)).

Lemma childless_raw st : childless (raw_link st).
Proof. destruct st; [by left|by right]. Qed.

Lemma addrs_N l a v r : addrs (N l a v r) = addrs l ++ a :: addrs r.
Proof. unfold addrs. simpl. by rewrite fmap_app. Qed.

Lemma elems_N l a v r : elems (N l a v r) = elems l ++ v :: elems r.
Proof. unfold elems. simpl. by rewrite fmap_app. Qed.

Lemma length_addrs t : length (addrs t) = bsize t.
Proof.
  induction t as [|l IHl a v r IHr]; [done|].
  rewrite addrs_N, length_app. simpl. rewrite IHl, IHr. lia.
Qed.

Lemma nodes_addr t b v : (b, v) ∈ nodes t → b ∈ addrs t.
Proof. intros H. unfold addrs. apply list_elem_of_fmap. by exists (b, v). Qed.

Lemma nodes_elem t b v : (b, v) ∈ nodes t → v ∈ elems t.
Proof. intros H. unfold elems. apply list_elem_of_fmap. by exists (b, v). Qed.

Lemma shape_frame nil h h' s f t :
  shape nil h s f t → (∀ b, b ∈ addrs t → h' !! b = h !! b) → shape nil h' s f t.
Proof.
  revert s f. induction t as [|l IHl a v r IHr]; intros s f; simpl; [done|].
  intros (-> & sl & sr & Ha & Hl & Hr) Hsame. split; [done|].
  exists sl, sr. rewrite addrs_N in Hsame. split_and!.
  - rewrite Hsame; [done|]. set_solver.
  - apply IHl; [done|]. intros b Hb. apply Hsame. set_solver.
  - apply IHr; [done|]. intros b Hb. apply Hsame. set_solver.
Qed.

Lemma shape_lookup nil h s f t b v :
  shape nil h s f t → (b, v) ∈ nodes t →
  ∃ n, h !! b = Some n ∧ data n = Val v ∧
       (left n = nil ∨ ∃ c, left n = Val (Some c) ∧ c ∈ addrs t) ∧
       (right n = nil ∨ ∃ c, right n = Val (Some c) ∧ c ∈ addrs t).
Proof.
  revert s f. induction t as [|l IHl a w r IHr]; intros s f; simpl.
  { intros _ H. by apply elem_of_nil in H. }
  intros (-> & sl & sr & Ha & Hl & Hr) Hin.
  rewrite addrs_N.
  apply elem_of_app in Hin as [Hin|Hin]; [|apply elem_of_cons in Hin as [Hin|Hin]].
  - destruct (IHl _ _ Hl Hin) as (n & ? & ? & [?|(c & ? & ?)] & [?|(c' & ? & ?)]);
      exists n; split_and!; eauto; right; eexists; split; eauto; set_solver.
  - injection Hin as -> ->. eexists. split; [done|]. simpl. split; [done|]. split.
    + destruct l as [|ll la lv lr]; simpl in Hl; [by left|].
      destruct Hl as (-> & _). right. exists la. split; [done|].
      rewrite addrs_N. set_solver.
    + destruct r as [|rl ra rv rr]; simpl in Hr; [by left|].
      destruct Hr as (-> & _). right. exists ra. split; [done|].
      rewrite addrs_N. set_solver.
  - destruct (IHr _ _ Hr Hin) as (n & ? & ? & [?|(c & ? & ?)] & [?|(c' & ? & ?)]);
      exists n; split_and!; eauto; right; eexists; split; eauto; set_solver.
Qed.

Lemma shape_allocated nil h s f t b :
  shape nil h s f t → b ∈ addrs t → is_Some (h !! b).
Proof.
  intros Hs Hb. unfold addrs in Hb. apply list_elem_of_fmap in Hb as ([b' v] & -> & Hin).
  destruct (shape_lookup _ _ _ _ _ _ _ Hs Hin) as (n & Hn & _). by exists n.
Qed.

Lemma shape_fresh nil h s f t : shape nil h s f t → fresh (dom h) ∉ addrs t.
Proof.
  intros Hs Hin. destruct (shape_allocated _ _ _ _ _ _ Hs Hin) as [n Hn].
  by apply fresh_ne in Hn.
Qed.

(** A link that holds a pointer and has a shape: the pointer is null exactly
    when the shape is empty. *)
Lemma shape_null nil h f t : childless nil → shape nil h (Val None) f t → t = E.
Proof. intros _. destruct t; simpl; [done|]. by intros ([=] & _). Qed.

Lemma shape_some nil h a f t :
  childless nil → shape nil h (Val (Some a)) f t →
  ∃ l v r sl sr, t = N l a v r ∧ h !! a = Some (mk_node (Val v) (Val f) sl sr) ∧
                 shape nil h sl (Some a) l ∧ shape nil h sr (Some a) r.
Proof.
  intros Hnil. destruct t as [|l a' v r]; simpl.
  - intros <-. destruct Hnil; discriminate.
  - intros ([= <-] & sl & sr & ? & ? & ?). eauto 10.
Qed.

(** Every node reached from a link that has a shape is a node of the shape,
    with the element the shape gives it. *)
Lemma in_subtree_nodes nil h p f t b :
  childless nil → shape nil h (Val p) f t → in_subtree h p b →
  ∃ v, (b, v) ∈ nodes t ∧ holds h b v.
Proof.
  intros Hnil Hs Hin. revert f t Hs.
  induction Hin as [a n Hn|a n c b Hn Hc Hin IH|a n c b Hn Hc Hin IH]; intros f t Hs.
  - apply shape_some in Hs as (l & v & r & sl & sr & -> & Ha & _); [|done].
    exists v. split; [simpl; set_solver|]. eexists. split; [done|]. done.
  - apply shape_some in Hs as (l & v & r & sl & sr & -> & Ha & Hl & Hr); [|done].
    rewrite Hn in Ha. injection Ha as ->. simpl in Hc. subst sl.
    destruct (IH _ _ Hl) as (w & ? & ?). exists w. split; [simpl; set_solver|done].
  - apply shape_some in Hs as (l & v & r & sl & sr & -> & Ha & Hl & Hr); [|done].
    rewrite Hn in Ha. injection Ha as ->. simpl in Hc. subst sr.
    destruct (IH _ _ Hr) as (w & ? & ?). exists w. split; [simpl; set_solver|done].
Qed.

(** Every node of a shape is reached from its link. *)
Lemma nodes_in_subtree nil h p f t b v :
  shape nil h (Val p) f t → (b, v) ∈ nodes t → in_subtree h p b ∧ holds h b v.
Proof.
  revert p f. induction t as [|l IHl a w r IHr]; intros p f Hs Hin.
  { by apply elem_of_nil in Hin. }
  simpl in Hs. destruct Hs as ([= ->] & sl & sr & Ha & Hl & Hr). simpl in Hin.
  apply elem_of_app in Hin as [Hin|Hin]; [|apply elem_of_cons in Hin as [Hin|Hin]].
  - destruct l as [|ll la lv lr]; [by apply elem_of_nil in Hin|].
    pose proof Hl as (-> & _). destruct (IHl _ _ Hl Hin) as (? & ?).
    split; [|done]. by eapply in_subtree_left.
  - injection Hin as -> ->. split; [by eapply in_subtree_here|]. by eexists.
  - destruct r as [|rl ra rv rr]; [by apply elem_of_nil in Hin|].
    pose proof Hr as (-> & _). destruct (IHr _ _ Hr Hin) as (? & ?).
    split; [|done]. by eapply in_subtree_right.
Qed.

Lemma holds_fun h b v w : holds h b v → holds h b w → v = w.
Proof. intros (n & Hn & Hv) (n' & Hn' & Hw). congruence. Qed.

Lemma in_subtree_elems nil h p f t b w :
  childless nil → shape nil h (Val p) f t → in_subtree h p b → holds h b w →
  w ∈ elems t.
Proof.
  intros Hnil Hs Hin Hw.
  destruct (in_subtree_nodes _ _ _ _ _ _ Hnil Hs Hin) as (v & Hv & Hv').
  rewrite (holds_fun _ _ _ _ Hw Hv'). by eapply nodes_elem.
Qed.

End shapes.

(** ** Insertion on shapes *)

Section binsert_facts.
Implicit Types (t l r : btree).

Lemma nodes_binsert n x t p :
  p ∈ nodes (binsert n x t) → p = (n, x) ∨ p ∈ nodes t.
Proof.
  induction t as [|l IHl a v r IHr]; simpl.
  - intros H. apply list_elem_of_singleton in H. by left.
  - destruct (x =? v)%Z; [by right|].
    destruct (x <? v)%Z; simpl; rewrite !elem_of_app, !elem_of_cons; naive_solver.
Qed.

Lemma nodes_binsert_old n x t p : p ∈ nodes t → p ∈ nodes (binsert n x t).
Proof.
  induction t as [|l IHl a v r IHr]; simpl.
  - intros H. by apply elem_of_nil in H.
  - destruct (x =? v)%Z; [done|].
    destruct (x <? v)%Z; simpl; rewrite !elem_of_app, !elem_of_cons; naive_solver.
Qed.

Lemma elems_binsert n x t y : y ∈ elems (binsert n x t) → y = x ∨ y ∈ elems t.
Proof.
  unfold elems. intros H. apply list_elem_of_fmap in H as ([b w] & -> & H).
  apply nodes_binsert in H as [[= -> ->]|H]; [by left|right].
  apply list_elem_of_fmap. by exists (b, w).
Qed.

Lemma addrs_binsert n x t b : b ∈ addrs (binsert n x t) → b = n ∨ b ∈ addrs t.
Proof.
  unfold addrs. intros H. apply list_elem_of_fmap in H as ([b' w] & -> & H).
  apply nodes_binsert in H as [[= -> ->]|H]; [by left|right].
  apply list_elem_of_fmap. by exists (b', w).
Qed.

Lemma addrs_binsert_old n x t b : b ∈ addrs t → b ∈ addrs (binsert n x t).
Proof.
  unfold addrs. intros H. apply list_elem_of_fmap in H as ([b' w] & -> & H).
  apply list_elem_of_fmap. exists (b', w). split; [done|]. by apply nodes_binsert_old.
Qed.

Lemma NoDup_binsert n x t :
  n ∉ addrs t → NoDup (addrs t) → NoDup (addrs (binsert n x t)).
Proof.
  induction t as [|l IHl a v r IHr]; simpl.
  - intros _ _. unfold addrs. simpl. apply NoDup_singleton.
  - destruct (x =? v)%Z; [done|]. rewrite addrs_N.
    intros Hn Hnd. apply NoDup_app in Hnd as (Hl & Hlr & Hr).
    apply NoDup_cons in Hr as (Ha & Hr).
    destruct (x <? v)%Z; rewrite addrs_N; apply NoDup_app.
    + split_and!; [apply IHl; [set_solver|done]| |by apply NoDup_cons].
      intros b Hb. apply addrs_binsert in Hb as [->|Hb]; [set_solver|by apply Hlr].
    + split_and!; [done| |apply NoDup_cons; split; [|apply IHr; [set_solver|done]]].
      * intros b Hb Hb'. apply elem_of_cons in Hb' as [->|Hb']; [set_solver|].
        apply addrs_binsert in Hb' as [->|Hb']; set_solver.
      * intros Hb. apply addrs_binsert in Hb as [->|Hb]; set_solver.
Qed.

Lemma bst_binsert n x t : bst t → bst (binsert n x t).
Proof.
  induction t as [|l IHl a v r IHr]; simpl.
  - intros _. unfold elems. simpl. split_and!; done.
  - intros (Hl & Hr & Hbl & Hbr).
    destruct (x =? v)%Z eqn:Heq; [done|]. apply Z.eqb_neq in Heq.
    destruct (x <? v)%Z eqn:Hlt; simpl.
    + apply Z.ltb_lt in Hlt. split_and!; [|done|by apply IHl|done].
      apply Forall_forall. intros y Hy. apply elems_binsert in Hy as [->|Hy]; [done|].
      by eapply Forall_forall in Hl.
    + apply Z.ltb_ge in Hlt. split_and!; [done| |done|by apply IHr].
      apply Forall_forall. intros y Hy. apply elems_binsert in Hy as [->|Hy]; [lia|].
      by eapply Forall_forall in Hr.
Qed.

Lemma elems_binsert_new n x t : x ∈ elems (binsert n x t).
Proof.
  induction t as [|l IHl a v r IHr]; simpl.
  - unfold elems. simpl. set_solver.
  - destruct (x =? v)%Z eqn:Heq.
    + apply Z.eqb_eq in Heq as ->. rewrite elems_N. set_solver.
    + destruct (x <? v)%Z; rewrite elems_N; set_solver.
Qed.

Lemma elems_binsert_iff n x t y : y ∈ elems (binsert n x t) ↔ y = x ∨ y ∈ elems t.
Proof.
  split; [apply elems_binsert|]. intros [->|Hy]; [apply elems_binsert_new|].
  unfold elems in *. apply list_elem_of_fmap in Hy as ([b w] & -> & Hy).
  apply list_elem_of_fmap. exists (b, w). split; [done|]. by apply nodes_binsert_old.
Qed.

Lemma bsize_binsert n x t : bsize (binsert n x t) ≤ S (bsize t).
Proof.
  induction t as [|l IHl a v r IHr]; simpl; [lia|].
  destruct (x =? v)%Z; [simpl; lia|]. destruct (x <? v)%Z; simpl; lia.
Qed.

Lemma binsert_nonempty n x t : binsert n x t ≠ E.
Proof.
  destruct t as [|l a v r]; simpl; [done|].
  destruct (x =? v)%Z; [done|]. by destruct (x <? v)%Z.
Qed.

(** In a search tree the elements are pairwise distinct. *)
Lemma bst_elems_NoDup t : bst t → NoDup (elems t).
Proof.
  induction t as [|l IHl a v r IHr]; simpl.
  - intros _. apply NoDup_nil_2.
  - intros (Hl & Hr & Hbl & Hbr). rewrite elems_N. apply NoDup_app. split_and!.
    + by apply IHl.
    + intros y Hy Hy'. eapply Forall_forall in Hl; [|done].
      apply elem_of_cons in Hy' as [->|Hy']; [lia|].
      eapply Forall_forall in Hr; [|done]. simpl in *. lia.
    + apply NoDup_cons. split; [|by apply IHr].
      intros Hv. eapply Forall_forall in Hr; [|done]. simpl in *. lia.
Qed.

Lemma nodes_same_elem (l : list (addr * Z)) a b v :
  NoDup l.*2 → (a, v) ∈ l → (b, v) ∈ l → a = b.
Proof.
  induction l as [|[c w] l IH]; simpl.
  - intros _ H. by apply elem_of_nil in H.
  - intros Hnd Ha Hb. apply NoDup_cons in Hnd as (Hw & Hnd).
    apply elem_of_cons in Ha as [Ha|Ha]; apply elem_of_cons in Hb as [Hb|Hb].
    + congruence.
    + injection Ha as -> ->. destruct Hw. apply list_elem_of_fmap. by exists (b, w).
    + injection Hb as -> ->. destruct Hw. apply list_elem_of_fmap. by exists (a, w).
    + by apply IH.
Qed.

End binsert_facts.

(** ** Extremal nodes *)

Section extrema.
Implicit Types (h : gmap addr bst_node) (t l r : btree) (nil s : slot (option addr)).

Lemma leftmost_E t : leftmost t = None → t = E.
Proof. destruct t as [|l a v r]; [done|]. simpl. by destruct (leftmost l). Qed.

Lemma rightmost_E t : rightmost t = None → t = E.
Proof. destruct t as [|l a v r]; [done|]. simpl. by destruct (rightmost r). Qed.

Lemma leftmost_in t m : leftmost t = Some m → m ∈ nodes t.
Proof.
  induction t as [|l IHl a v r IHr]; simpl; [done|].
  destruct (leftmost l) as [m'|]; intros [= <-]; set_solver.
Qed.

Lemma rightmost_in t m : rightmost t = Some m → m ∈ nodes t.
Proof.
  induction t as [|l IHl a v r IHr]; simpl; [done|].
  destruct (rightmost r) as [m'|]; intros [= <-]; set_solver.
Qed.

Lemma leftmost_slot nil h s f t m w :
  shape nil h s f t → leftmost t = Some (m, w) →
  ∃ nm, h !! m = Some nm ∧ left nm = nil ∧ data nm = Val w.
Proof.
  revert s f. induction t as [|l IHl a v r IHr]; intros s f Hs; simpl; [done|].
  simpl in Hs. destruct Hs as (-> & sl & sr & Ha & Hl & Hr).
  destruct (leftmost l) as [m'|] eqn:Hm.
  - intros [= ->]. by eapply IHl.
  - intros [= <- <-]. apply leftmost_E in Hm as ->. simpl in Hl. subst sl. eauto.
Qed.

Lemma rightmost_slot nil h s f t m w :
  shape nil h s f t → rightmost t = Some (m, w) →
  ∃ nm, h !! m = Some nm ∧ right nm = nil ∧ data nm = Val w.
Proof.
  revert s f. induction t as [|l IHl a v r IHr]; intros s f Hs; simpl; [done|].
  simpl in Hs. destruct Hs as (-> & sl & sr & Ha & Hl & Hr).
  destruct (rightmost r) as [m'|] eqn:Hm.
  - intros [= ->]. by eapply IHr.
  - intros [= <- <-]. apply rightmost_E in Hm as ->. simpl in Hr. subst sr. eauto.
Qed.

Lemma bst_leftmost_min t m w :
  bst t → leftmost t = Some (m, w) → ∀ y, y ∈ elems t → (w ≤ y)%Z.
Proof.
  induction t as [|l IHl a v r IHr]; simpl; [done|].
  intros (Hlt & Hgt & Hbl & Hbr) Hm y. rewrite elems_N.
  assert (w ≤ v)%Z as Hwv.
  { destruct (leftmost l) as [m'|] eqn:Hm'.
    - injection Hm as ->. apply leftmost_in, nodes_elem in Hm'.
      eapply Forall_forall in Hlt; [|done]. simpl in Hlt. lia.
    - injection Hm as <- <-. lia. }
  intros Hy. apply elem_of_app in Hy as [Hy|Hy]; [|apply elem_of_cons in Hy as [->|Hy]].
  - destruct (leftmost l) as [m'|] eqn:Hm'.
    + injection Hm as ->. by apply IHl.
    + apply leftmost_E in Hm' as ->. by apply elem_of_nil in Hy.
  - done.
  - eapply Forall_forall in Hgt; [|done]. simpl in Hgt. lia.
Qed.

Lemma bst_rightmost_max t m w :
  bst t → rightmost t = Some (m, w) → ∀ y, y ∈ elems t → (y ≤ w)%Z.
Proof.
  induction t as [|l IHl a v r IHr]; simpl; [done|].
  intros (Hlt & Hgt & Hbl & Hbr) Hm y. rewrite elems_N.
  assert (v ≤ w)%Z as Hwv.
  { destruct (rightmost r) as [m'|] eqn:Hm'.
    - injection Hm as ->. apply rightmost_in, nodes_elem in Hm'.
      eapply Forall_forall in Hgt; [|done]. simpl in Hgt. lia.
    - injection Hm as <- <-. lia. }
  intros Hy. apply elem_of_app in Hy as [Hy|Hy]; [|apply elem_of_cons in Hy as [->|Hy]].
  - eapply Forall_forall in Hlt; [|done]. simpl in Hlt. lia.
  - done.
  - destruct (rightmost r) as [m'|] eqn:Hm'.
    + injection Hm as ->. by apply IHr.
    + apply rightmost_E in Hm' as ->. by apply elem_of_nil in Hy.
Qed.

Lemma leftmost_binsert n x t m w :
  bst t → leftmost t = Some (m, w) →
  leftmost (binsert n x t) = Some (if (x <? w)%Z then (n, x) else (m, w)).
Proof.
  induction t as [|l IHl a v r IHr]; simpl; [done|].
  intros (Hlt & Hgt & Hbl & Hbr) Hm.
  assert (w ≤ v)%Z as Hwv.
  { destruct (leftmost l) as [m'|] eqn:Hm'.
    - injection Hm as ->. apply leftmost_in, nodes_elem in Hm'.
      eapply Forall_forall in Hlt; [|done]. simpl in Hlt. lia.
    - injection Hm as <- <-. lia. }
  destruct (x =? v)%Z eqn:Heq.
  { apply Z.eqb_eq in Heq as ->. simpl. rewrite Hm.
    by rewrite (proj2 (Z.ltb_ge _ _) Hwv). }
  destruct (x <? v)%Z eqn:Hxv; simpl.
  - destruct (leftmost l) as [m'|] eqn:Hm'.
    + injection Hm as ->. rewrite (IHl Hbl eq_refl). by destruct (x <? w)%Z.
    + injection Hm as <- <-. apply leftmost_E in Hm' as ->. simpl. by rewrite Hxv.
  - rewrite Hm. apply Z.ltb_ge in Hxv. by rewrite (proj2 (Z.ltb_ge x w)) by lia.
Qed.

Lemma rightmost_binsert n x t m w :
  bst t → rightmost t = Some (m, w) →
  rightmost (binsert n x t) = Some (if (w <? x)%Z then (n, x) else (m, w)).
Proof.
  induction t as [|l IHl a v r IHr]; simpl; [done|].
  intros (Hlt & Hgt & Hbl & Hbr) Hm.
  assert (v ≤ w)%Z as Hwv.
  { destruct (rightmost r) as [m'|] eqn:Hm'.
    - injection Hm as ->. apply rightmost_in, nodes_elem in Hm'.
      eapply Forall_forall in Hgt; [|done]. simpl in Hgt. lia.
    - injection Hm as <- <-. lia. }
  destruct (x =? v)%Z eqn:Heq.
  { apply Z.eqb_eq in Heq as ->. simpl. rewrite Hm.
    by rewrite (proj2 (Z.ltb_ge _ _) Hwv). }
  apply Z.eqb_neq in Heq.
  destruct (x <? v)%Z eqn:Hxv; simpl.
  - rewrite Hm. apply Z.ltb_lt in Hxv. by rewrite (proj2 (Z.ltb_ge w x)) by lia.
  - apply Z.ltb_ge in Hxv. destruct (rightmost r) as [m'|] eqn:Hm'.
    + injection Hm as ->. rewrite (IHr Hbr eq_refl). by destruct (w <? x)%Z.
    + injection Hm as <- <-. apply rightmost_E in Hm' as ->. simpl.
      by rewrite (proj2 (Z.ltb_lt v x)) by lia.
Qed.

(** When the new element is below the old minimum, the new node hangs from
    the left link of the old leftmost node. *)
Lemma leftmost_attached nil h s f t n x m w :
  bst t → leftmost t = Some (m, w) → (x < w)%Z →
  shape nil h s f (binsert n x t) →
  ∃ nm, h !! m = Some nm ∧ left nm = Val (Some n).
Proof.
  revert s f. induction t as [|l IHl a v r IHr]; intros s f; simpl; [done|].
  intros (Hlt & Hgt & Hbl & Hbr) Hm Hxw.
  assert (w ≤ v)%Z as Hwv.
  { destruct (leftmost l) as [m'|] eqn:Hm'.
    - injection Hm as ->. apply leftmost_in, nodes_elem in Hm'.
      eapply Forall_forall in Hlt; [|done]. simpl in Hlt. lia.
    - injection Hm as <- <-. lia. }
  rewrite (proj2 (Z.eqb_neq x v)), (proj2 (Z.ltb_lt x v)) by lia. simpl.
  intros (-> & sl & sr & Ha & Hl & Hr).
  destruct (leftmost l) as [m'|] eqn:Hm'.
  - injection Hm as ->. by eapply IHl.
  - injection Hm as <- <-. apply leftmost_E in Hm' as ->. simpl in Hl.
    destruct Hl as (-> & _). eauto.
Qed.

Lemma rightmost_attached nil h s f t n x m w :
  bst t → rightmost t = Some (m, w) → (w < x)%Z →
  shape nil h s f (binsert n x t) →
  ∃ nm, h !! m = Some nm ∧ right nm = Val (Some n).
Proof.
  revert s f. induction t as [|l IHl a v r IHr]; intros s f; simpl; [done|].
  intros (Hlt & Hgt & Hbl & Hbr) Hm Hxw.
  assert (v ≤ w)%Z as Hwv.
  { destruct (rightmost r) as [m'|] eqn:Hm'.
    - injection Hm as ->. apply rightmost_in, nodes_elem in Hm'.
      eapply Forall_forall in Hgt; [|done]. simpl in Hgt. lia.
    - injection Hm as <- <-. lia. }
  rewrite (proj2 (Z.eqb_neq x v)), (proj2 (Z.ltb_ge x v)) by lia. simpl.
  intros (-> & sl & sr & Ha & Hl & Hr).
  destruct (rightmost r) as [m'|] eqn:Hm'.
  - injection Hm as ->. by eapply IHr.
  - injection Hm as <- <-. apply rightmost_E in Hm' as ->. simpl in Hr.
    destruct Hr as (-> & _). eauto.
Qed.

End extrema.

(** ** [insert] on shapes *)

Lemma insert_loop_null fuel x prev h :
  tree.insert_loop fuel x None prev h = Done (Some prev, h).
Proof. by destruct fuel. Qed.

Lemma run_attach st x a n v h :
  h !! a = Some n → data n = Val v →
  tree.attach st x (Some a) h =
  Done (tt, <[a := if (x <? v)%Z
                   then mk_node (Val v) (father n) (Val (Some (fresh (dom h)))) (right n)
                   else mk_node (Val v) (father n) (left n) (Val (Some (fresh (dom h))))]>
            (<[fresh (dom h) := mk_node (Val x) (Val (Some a)) (raw_link st) (raw_link st)]> h)).
Proof.
  intros Ha Hv. unfold tree.attach.
  rewrite run_bind, (run_get_data _ _ _ Ha), Hv. simpl.
  pose proof (fresh_ne _ _ _ Ha) as Hne.
  destruct (x <? v)%Z; rewrite run_bind, run_leaf.
  - unfold set_left. rewrite (run_modify _ _ n), Hv; [done|]. by rewrite lookup_insert_ne.
  - unfold set_right. rewrite (run_modify _ _ n), Hv; [done|]. by rewrite lookup_insert_ne.
Qed.

Lemma insert_loop_attach st h x t : ∀ fuel a f prev found h1,
  shape (raw_link st) h (Val (Some a)) f t → NoDup (addrs t) →
  tree.insert_loop fuel x (Some a) prev h = Done (found, h1) →
  h1 = h ∧
  match found with
  | None => ∀ n, binsert n x t = t
  | Some p => ∀ r2, tree.attach st x p h = Done r2 →
       shape (raw_link st) r2.2 (Val (Some a)) f (binsert (fresh (dom h)) x t) ∧
       (∀ b, b ∉ addrs t → b ≠ fresh (dom h) → r2.2 !! b = h !! b)
  end.
Proof.
  induction t as [|l IHl a' v r IHr]; intros fuel a f prev found h1 Hs Hnd Hrun.
  { apply shape_some in Hs as (? & ? & ? & ? & ? & [=] & _). apply childless_raw. }
  pose proof (shape_fresh _ _ _ _ _ Hs) as Hfresh.
  simpl in Hs. destruct Hs as ([= <-] & sl & sr & Ha & Hl & Hr).
  rewrite addrs_N in Hnd, Hfresh. apply NoDup_app in Hnd as (Hndl & Hlr & Hndr).
  apply NoDup_cons in Hndr as (Har & Hndr).
  destruct fuel as [|fuel]; [discriminate|]. simpl in Hrun.
  rewrite run_bind, (run_get_data _ _ _ Ha) in Hrun. simpl in Hrun.
  destruct (x =? v)%Z eqn:Heq.
  { injection Hrun as <- <-. split; [done|]. intros n. simpl. by rewrite Heq. }
  rewrite run_bind in Hrun.
  pose proof (fresh_ne _ _ _ Ha) as Hne.
  destruct (x <? v)%Z eqn:Hlt.
  - rewrite (run_get_left _ _ _ Ha) in Hrun. simpl in Hrun.
    destruct sl as [|[c|]]; simpl in Hrun; [discriminate| |].
    + destruct (IHl _ _ _ _ _ _ Hl Hndl Hrun) as (-> & Hfound). split; [done|].
      destruct found as [p|]; [|intros n; simpl; by rewrite Heq, Hlt, Hfound].
      intros r2 Hatt.
      destruct (Hfound _ Hatt) as (Hl' & Hsame). split.
      * simpl. rewrite Heq, Hlt. simpl. split; [done|]. exists (Val (Some c)), sr.
        split_and!; [|done|].
        -- rewrite Hsame; [done| |done]. intros Hin. by apply (Hlr _ Hin), elem_of_cons; left.
        -- eapply shape_frame; [done|]. intros b Hb. apply Hsame.
           ++ intros Hin. apply (Hlr _ Hin). by apply elem_of_cons; right.
           ++ intros ->. apply Hfresh. set_solver.
      * intros b Hb Hb'. apply Hsame; [|done]. rewrite addrs_N in Hb. set_solver.
    + rewrite insert_loop_null in Hrun. injection Hrun as <- <-. split; [done|].
      apply shape_null in Hl as ->; [|apply childless_raw].
      intros r2 Hatt. erewrite run_attach in Hatt; [|done..]. simpl in Hatt.
      rewrite Hlt in Hatt. injection Hatt as <-. simpl. rewrite Heq, Hlt. split.
      * simpl. split; [done|]. do 2 eexists. rewrite lookup_insert_eq. split; [done|split].
        -- split; [done|]. do 2 eexists. rewrite lookup_insert_ne, lookup_insert_eq by done.
           done.
        -- eapply shape_frame; [done|]. intros b Hb.
           rewrite !lookup_insert_ne; [done|set_solver|set_solver].
      * intros b Hb Hb'. rewrite addrs_N in Hb.
        rewrite !lookup_insert_ne; [done|set_solver|set_solver].
  - rewrite (run_get_right _ _ _ Ha) in Hrun. simpl in Hrun.
    destruct sr as [|[c|]]; simpl in Hrun; [discriminate| |].
    + destruct (IHr _ _ _ _ _ _ Hr Hndr Hrun) as (-> & Hfound). split; [done|].
      destruct found as [p|]; [|intros n; simpl; by rewrite Heq, Hlt, Hfound].
      intros r2 Hatt.
      destruct (Hfound _ Hatt) as (Hr' & Hsame). split.
      * simpl. rewrite Heq, Hlt. simpl. split; [done|]. exists sl, (Val (Some c)).
        split_and!; [| |done].
        -- rewrite Hsame; [done|done|done].
        -- eapply shape_frame; [done|]. intros b Hb. apply Hsame.
           ++ intros Hin. apply (Hlr _ Hb). by apply elem_of_cons; right.
           ++ intros ->. apply Hfresh. set_solver.
      * intros b Hb Hb'. apply Hsame; [|done]. rewrite addrs_N in Hb. set_solver.
    + rewrite insert_loop_null in Hrun. injection Hrun as <- <-. split; [done|].
      apply shape_null in Hr as ->; [|apply childless_raw].
      intros r2 Hatt. erewrite run_attach in Hatt; [|done..]. simpl in Hatt.
      rewrite Hlt in Hatt. injection Hatt as <-. simpl. rewrite Heq, Hlt. split.
      * simpl. split; [done|]. do 2 eexists. rewrite lookup_insert_eq. split; [done|split].
        -- eapply shape_frame; [done|]. intros b Hb.
           rewrite !lookup_insert_ne; [done| |].
           ++ intros Hb'. subst b. apply Hfresh. set_solver.
           ++ intros Hb'. subst b. apply (Hlr _ Hb). by apply elem_of_cons; left.
        -- split; [done|]. do 2 eexists. rewrite lookup_insert_ne, lookup_insert_eq by done.
           done.
      * intros b Hb Hb'. rewrite addrs_N in Hb.
        rewrite !lookup_insert_ne; [done|set_solver|set_solver].
Qed.

Lemma shape_lookup_addr nil h s f t b :
  shape nil h s f t → b ∈ addrs t →
  ∃ n, h !! b = Some n ∧
       (left n = nil ∨ ∃ c, left n = Val (Some c) ∧ c ∈ addrs t) ∧
       (right n = nil ∨ ∃ c, right n = Val (Some c) ∧ c ∈ addrs t).
Proof.
  intros Hs Hb. unfold addrs in Hb. apply list_elem_of_fmap in Hb as ([b' v] & -> & Hin).
  destruct (shape_lookup _ _ _ _ _ _ _ Hs Hin) as (n & Hn & _ & Hl & Hr). eauto.
Qed.

Lemma node_eta n : mk_node (data n) (father n) (left n) (right n) = n.
Proof. by destruct n. Qed.

Lemma adjust_run nil h t hdr hn shp x y s f :
  childless nil → _header_ptr t = Some hdr → h !! hdr = Some hn →
  shape nil h s f shp → hdr ∉ addrs shp →
  left hn = Val (Some x) → right hn = Val (Some y) →
  x ∈ addrs shp → y ∈ addrs shp →
  (∃ x' y', x' ∈ addrs shp ∧ y' ∈ addrs shp ∧
     (∃ nx, h !! x = Some nx ∧
            (left nx = Val nullptr ∧ x' = x ∨ left nx = Val (Some x'))) ∧
     (∃ ny, h !! y = Some ny ∧
            (right ny = Val nullptr ∧ y' = y ∨ right ny = Val (Some y'))) ∧
     tree.adjust t h =
     Done (tt, <[hdr := mk_node (data hn) (father hn) (Val (Some x')) (Val (Some y'))]> h)) ∨
  (nil = Indet ∧ tree.adjust t h = Undefined).
Proof.
  intros Hnil Hhdr Hhn Hs Hout Hx Hy Hxin Hyin.
  assert (x ≠ hdr) as Hxh by (intros ->; done).
  assert (y ≠ hdr) as Hyh by (intros ->; done).
  destruct (shape_lookup_addr _ _ _ _ _ _ Hs Hxin) as (nx & Hnx & Hxl & _).
  destruct (shape_lookup_addr _ _ _ _ _ _ Hs Hyin) as (ny & Hny & _ & Hyr).
  remember (tree.adjust t h) as R eqn:HR.
  unfold tree.adjust in HR. rewrite Hhdr in HR.
  rewrite run_bind, (run_get_left _ _ _ Hhn), Hx in HR. red_run in HR.
  rewrite run_bind, (run_get_left _ _ _ Hnx) in HR.
  destruct Hxl as [Hxl|(c & Hxl & Hc)]; rewrite Hxl in HR.
  - destruct Hnil as [->| ->]; red_run in HR; [by right|].
    rewrite run_bind, run_ret in HR. red_run in HR.
    rewrite run_bind, (run_get_right _ _ _ Hhn), Hy in HR. red_run in HR.
    rewrite run_bind, (run_get_right _ _ _ Hny) in HR.
    destruct Hyr as [Hyr|(d & Hyr & Hd)]; rewrite Hyr in HR; red_run in HR.
    + left. exists x, y. split; [done|]. split; [done|].
      split; [exists nx; split; [done|by left]|].
      split; [exists ny; split; [done|by left]|].
      rewrite HR, run_ret, <-Hx, <-Hy, node_eta, insert_id; done.
    + left. exists x, d. split; [done|]. split; [done|].
      split; [exists nx; split; [done|by left]|].
      split; [exists ny; split; [done|by right]|].
      unfold set_right in HR. rewrite (run_modify _ _ _ _ Hhn), Hx in HR. done.
  - red_run in HR. rewrite run_bind in HR. unfold set_left in HR.
    rewrite (run_modify _ _ _ _ Hhn) in HR.
    red_run in HR. rewrite run_bind in HR.
    erewrite run_get_right in HR; [|apply lookup_insert_eq].
    cbn [right] in HR. rewrite Hy in HR. red_run in HR. rewrite run_bind in HR.
    erewrite run_get_right in HR; [|by rewrite lookup_insert_ne].
    destruct Hyr as [Hyr|(d & Hyr & Hd)]; rewrite Hyr in HR.
    + destruct Hnil as [->| ->]; red_run in HR; [by right|].
      left. exists c, y. split; [done|]. split; [done|].
      split; [exists nx; split; [done|by right]|].
      split; [exists ny; split; [done|by left]|].
      by rewrite HR.
    + red_run in HR. left. exists c, d. split; [done|]. split; [done|].
      split; [exists nx; split; [done|by right]|].
      split; [exists ny; split; [done|by right]|].
      unfold set_right in HR. erewrite run_modify in HR; [|apply lookup_insert_eq].
      cbn [data father left] in HR. by rewrite insert_insert_eq in HR.
Qed.

Lemma run_empty nil h t shp :
  childless nil → tree_at nil h t shp →
  tree.empty t h = Done (match shp with E => true | N _ _ _ _ => false end, h).
Proof.
  intros Hnil (hdr & hn & Hhdr & Hhn & Hroot & Hout & _).
  unfold tree.empty, tree._root. rewrite Hhdr, run_bind, (run_get_father _ _ _ Hhn).
  destruct shp as [|l a v r].
  - rewrite Hroot. red_run. by rewrite run_ret, bool_decide_eq_true_2.
  - destruct Hroot as (-> & _). red_run. rewrite run_ret, bool_decide_eq_false_2; [done|].
    intros [= ->]. apply Hout. rewrite addrs_N. set_solver.
Qed.

Lemma insert_spec st fuel h t shp x t' h' :
  tree_at (raw_link st) h t shp → caches_in h t shp →
  tree.insert fuel st t x h = Done (t', h') →
  t' = t ∧
  tree_at (raw_link st) h' t (binsert (fresh (dom h)) x shp) ∧
  caches_in h' t (binsert (fresh (dom h)) x shp) ∧
  (bst shp → caches_mirrored h t shp →
   caches_mirrored h' t (binsert (fresh (dom h)) x shp)).
Proof.
  intros Ht Hc Hrun. unfold tree.insert in Hrun.
  rewrite run_bind, (run_empty _ _ _ _ (childless_raw st) Ht) in Hrun.
  destruct Ht as (hdr & hn & Hhdr & Hhn & Hroot & Hout & Hnd).
  destruct Hc as (hdr' & hn' & cx & cy & Hhdr' & Hhn' & Hcx & Hcy & Hcin).
  assert (hdr' = hdr) as -> by congruence. assert (hn' = hn) as -> by congruence.
  clear Hhdr' Hhn'. rewrite Hhdr in Hrun.
  pose proof (fresh_ne _ _ _ Hhn) as Hne. set (n := fresh (dom h)) in *.
  destruct shp as [|l a v r]; red_run in Hrun.
  - rewrite run_bind, run_leaf in Hrun. fold n in Hrun. red_run in Hrun.
    unfold set_father, set_right, set_left in Hrun.
    rewrite run_bind in Hrun. erewrite run_modify in Hrun; [|by rewrite lookup_insert_ne].
    red_run in Hrun. rewrite run_bind in Hrun.
    erewrite run_get_father in Hrun; [|apply lookup_insert_eq]. cbn [father] in Hrun.
    red_run in Hrun. rewrite run_bind in Hrun.
    erewrite run_modify in Hrun; [|apply lookup_insert_eq]. red_run in Hrun.
    rewrite run_bind in Hrun.
    erewrite run_modify in Hrun; [|apply lookup_insert_eq]. red_run in Hrun.
    rewrite run_ret in Hrun. injection Hrun as <- <-.
    cbn [data father left right]. rewrite !insert_insert_eq. split; [done|].
    split; [|split].
    + exists hdr. eexists. split; [done|]. rewrite lookup_insert_eq. split; [done|].
      split; [|split].
      * simpl. split; [done|]. do 2 eexists.
        rewrite lookup_insert_ne, lookup_insert_eq by done. done.
      * unfold addrs. simpl. set_solver.
      * unfold addrs. simpl. apply NoDup_singleton.
    + exists hdr. eexists. exists n, n. rewrite lookup_insert_eq.
      split_and!; [done..| |]; unfold addrs; simpl; set_solver.
    + intros _ _ _. exists hdr. eexists. exists n, x, n, x. rewrite lookup_insert_eq.
      split_and!; done.
  - pose proof Hroot as Hroot'. destruct Hroot' as (Hf & _).
    rewrite run_bind, (run_get_father _ _ _ Hhn), Hf in Hrun. red_run in Hrun.
    apply bind_done in Hrun as (found & h1 & Hloop & Hrun).
    rewrite Hf in Hroot.
    destruct (insert_loop_attach _ _ _ _ _ _ _ _ _ _ Hroot Hnd Hloop) as (-> & Hfound).
    destruct found as [p|].
    + apply bind_done in Hrun as ([] & h2 & Hatt & Hrun).
      apply bind_done in Hrun as ([] & h3 & Hadj & Hrun).
      rewrite run_ret in Hrun. injection Hrun as <- <-.
      destruct (Hfound _ Hatt) as (Hs2 & Hsame). cbn [snd] in Hs2, Hsame.
      fold n in Hs2, Hsame.
      assert (h2 !! hdr = Some hn) as Hhn2 by (rewrite Hsame; done).
      assert (hdr ∉ addrs (binsert n x (N l a v r))) as Hout'.
      { intros Hin. apply addrs_binsert in Hin as [->|Hin]; done. }
      assert (NoDup (addrs (binsert n x (N l a v r)))) as Hnd'.
      { apply NoDup_binsert; [|done]. by eapply shape_fresh. }
      destruct Hcin as (Hcx' & Hcy').
      destruct (adjust_run _ _ _ _ _ _ _ _ _ _ (childless_raw st) Hhdr Hhn2 Hs2 Hout' Hcx Hcy
                  (addrs_binsert_old _ _ _ _ Hcx') (addrs_binsert_old _ _ _ _ Hcy'))
        as [(x' & y' & Hx' & Hy' & Hxstep & Hystep & Hadj')|(_ & Hadj')];
        rewrite Hadj' in Hadj; [|done].
      injection Hadj as <-. split; [done|].
      assert (bst (N l a v r) → caches_mirrored h t (N l a v r) →
              caches_mirrored
                (<[hdr := mk_node (data hn) (father hn) (Val (Some x')) (Val (Some y'))]> h2)
                t (binsert n x (N l a v r))) as Hmirrored.
      { intros Hbst Hmir _. destruct (Hmir ltac:(done))
          as (hdr' & hn' & mx & wx & my & wy & Hhdr' & Hhn' & Hmx & Hlm & Hmy & Hrm).
        assert (hdr' = hdr) as -> by congruence. assert (hn' = hn) as -> by congruence.
        assert (mx = cx) as -> by congruence. assert (my = cy) as -> by congruence.
        exists hdr. eexists. exists x'.
        exists (if (x <? wx)%Z then x else wx), y', (if (wy <? x)%Z then x else wy).
        rewrite lookup_insert_eq. split; [done|]. split; [done|]. cbn [left right].
        split; [done|]. split; [|split; [done|]].
        - rewrite (leftmost_binsert _ _ _ _ _ Hbst Hlm).
          destruct Hxstep as (nx & Hnx & Hxstep).
          destruct (x <? wx)%Z eqn:Hlt.
          + apply Z.ltb_lt in Hlt.
            destruct (leftmost_attached _ _ _ _ _ _ _ _ _ Hbst Hlm Hlt Hs2)
              as (nm & Hnm & Hl).
            rewrite Hnx in Hnm. injection Hnm as <-.
            unfold nullptr in Hxstep. destruct Hxstep as [(Hl' & _)|Hl']; congruence.
          + pose proof (leftmost_binsert n x _ _ _ Hbst Hlm) as Hlm'. rewrite Hlt in Hlm'.
            destruct (leftmost_slot _ _ _ _ _ _ _ Hs2 Hlm') as (nm & Hnm & Hl & _).
            rewrite Hnx in Hnm. injection Hnm as <-.
            destruct Hxstep as [(_ & ->)|Hl']; [done|].
            rewrite Hl in Hl'. destruct (childless_raw st) as [Hr|Hr];
              rewrite Hr in Hl'; discriminate.
        - rewrite (rightmost_binsert _ _ _ _ _ Hbst Hrm).
          destruct Hystep as (ny & Hny & Hystep).
          destruct (wy <? x)%Z eqn:Hlt.
          + apply Z.ltb_lt in Hlt.
            destruct (rightmost_attached _ _ _ _ _ _ _ _ _ Hbst Hrm Hlt Hs2)
              as (nm & Hnm & Hl).
            rewrite Hny in Hnm. injection Hnm as <-.
            unfold nullptr in Hystep. destruct Hystep as [(Hl' & _)|Hl']; congruence.
          + pose proof (rightmost_binsert n x _ _ _ Hbst Hrm) as Hrm'. rewrite Hlt in Hrm'.
            destruct (rightmost_slot _ _ _ _ _ _ _ Hs2 Hrm') as (nm & Hnm & Hl & _).
            rewrite Hny in Hnm. injection Hnm as <-.
            destruct Hystep as [(_ & ->)|Hl']; [done|].
            rewrite Hl in Hl'. destruct (childless_raw st) as [Hr|Hr];
              rewrite Hr in Hl'; discriminate. }
      pose proof (binsert_nonempty n x (N l a v r)) as Hne'.
      destruct (binsert n x (N l a v r)) as [|l' a' v' r'] eqn:Hb; [done|].
      split; [|split; [|done]].
      * exists hdr. eexists. rewrite lookup_insert_eq.
        split; [done|]. split; [done|]. split; [|done].
        cbn [father]. rewrite Hf. eapply shape_frame; [done|].
        intros b Hb'. rewrite lookup_insert_ne; [done|]. by intros ->.
      * exists hdr. eexists. exists x', y'. rewrite lookup_insert_eq. split_and!; done.
    + rewrite run_ret in Hrun. injection Hrun as <- <-. rewrite Hfound. split; [done|].
      split; [|split; [|done]].
      * exists hdr, hn. rewrite Hf. done.
      * exists hdr, hn, cx, cy. done.
Qed.

Lemma insert_loop_total h x t : ∀ fuel a f prev,
  shape (Val nullptr) h (Val (Some a)) f t → bsize t ≤ fuel →
  ∃ found, tree.insert_loop fuel x (Some a) prev h = Done (found, h) ∧
           match found with
           | None => True
           | Some p => ∃ b, p = Some b ∧ b ∈ addrs t
           end.
Proof.
  induction t as [|l IHl a' v r IHr]; intros fuel a f prev Hs Hfuel; [done|].
  simpl in Hs. destruct Hs as ([= <-] & sl & sr & Ha & Hl & Hr).
  simpl in Hfuel. destruct fuel as [|fuel]; [lia|]. simpl.
  rewrite run_bind, (run_get_data _ _ _ Ha). red_run. cbn [data].
  destruct (x =? v)%Z; [by exists None|].
  rewrite run_bind. rewrite addrs_N. destruct (x <? v)%Z.
  - rewrite (run_get_left _ _ _ Ha). cbn [left].
    destruct l as [|ll la lv lr].
    + simpl in Hl. subst sl. red_run. rewrite insert_loop_null.
      exists (Some (Some a)). split; [done|]. exists a. split; [done|].
      apply elem_of_app. right. by apply elem_of_cons; left.
    + pose proof Hl as (-> & _). red_run.
      destruct (IHl fuel la (Some a) (Some a) Hl ltac:(lia)) as (found & -> & Hfound).
      exists found. split; [done|]. destruct found as [p|]; [|done].
      destruct Hfound as (b & -> & Hb). exists b. split; [done|].
      apply elem_of_app. by left.
  - rewrite (run_get_right _ _ _ Ha). cbn [right].
    destruct r as [|rl ra rv rr].
    + simpl in Hr. subst sr. red_run. rewrite insert_loop_null.
      exists (Some (Some a)). split; [done|]. exists a. split; [done|].
      apply elem_of_app. right. by apply elem_of_cons; left.
    + pose proof Hr as (-> & _). red_run.
      destruct (IHr fuel ra (Some a) (Some a) Hr ltac:(lia)) as (found & -> & Hfound).
      exists found. split; [done|]. destruct found as [p|]; [|done].
      destruct Hfound as (b & -> & Hb). exists b. split; [done|].
      apply elem_of_app. right. by apply elem_of_cons; right.
Qed.

Lemma insert_total fuel h t shp x :
  tree_at (Val nullptr) h t shp → caches_in h t shp → bsize shp ≤ fuel →
  ∃ h', tree.insert fuel ZeroFilled t x h = Done (t, h').
Proof.
  intros Ht Hc Hfuel. change (Val nullptr) with (raw_link ZeroFilled) in Ht.
  assert (∃ r, tree.insert fuel ZeroFilled t x h = Done r) as ([t' h'] & Hrun).
  2: { destruct (insert_spec _ _ _ _ _ _ _ _ Ht Hc Hrun) as (-> & _). by exists h'. }
  unfold tree.insert.
  rewrite run_bind, (run_empty _ _ _ _ (childless_raw _) Ht).
  destruct Ht as (hdr & hn & Hhdr & Hhn & Hroot & Hout & Hnd).
  destruct Hc as (hdr' & hn' & cx & cy & Hhdr' & Hhn' & Hcx & Hcy & Hcin).
  assert (hdr' = hdr) as -> by congruence. assert (hn' = hn) as -> by congruence.
  clear Hhdr' Hhn'. rewrite Hhdr.
  pose proof (fresh_ne _ _ _ Hhn) as Hne.
  destruct shp as [|l a v r]; red_run.
  - rewrite run_bind, run_leaf. red_run.
    unfold set_father, set_right, set_left.
    rewrite run_bind. erewrite run_modify; [|by rewrite lookup_insert_ne].
    red_run. rewrite run_bind.
    erewrite run_get_father; [|apply lookup_insert_eq]. cbn [father].
    red_run. rewrite run_bind.
    erewrite run_modify; [|apply lookup_insert_eq]. red_run.
    rewrite run_bind.
    erewrite run_modify; [|apply lookup_insert_eq]. red_run. eauto.
  - pose proof Hroot as Hroot'. destruct Hroot' as (Hf & _).
    rewrite run_bind, (run_get_father _ _ _ Hhn), Hf. red_run.
    rewrite Hf in Hroot.
    destruct (insert_loop_total _ x _ fuel _ _ (Some a) Hroot Hfuel) as (found & Hloop & Hp).
    destruct (insert_loop_attach _ _ _ _ _ _ _ _ _ _ Hroot Hnd Hloop) as (_ & Hfound).
    rewrite run_bind, Hloop. red_run.
    destruct found as [p|]; [|eauto].
    destruct Hp as (b & -> & Hb).
    destruct (shape_lookup_addr _ _ _ _ _ _ Hroot Hb) as (nb & Hnb & _).
    assert (∃ w, data nb = Val w) as (w & Hw).
    { unfold addrs in Hb. apply list_elem_of_fmap in Hb as ([b' w] & -> & Hin).
      destruct (shape_lookup _ _ _ _ _ _ _ Hroot Hin) as (n' & Hn' & Hd & _).
      exists w. simpl in Hnb. congruence. }
    pose proof (run_attach ZeroFilled x _ _ _ _ Hnb Hw) as Hatt.
    destruct (Hfound _ Hatt) as (Hs2 & Hsame). cbn [snd] in Hs2, Hsame.
    rewrite run_bind, Hatt. red_run.
    match type of Hatt with _ = Done (_, ?hh) => set (h2 := hh) in * end.
    assert (h2 !! hdr = Some hn) as Hhn2 by (rewrite Hsame; done).
    assert (hdr ∉ addrs (binsert (fresh (dom h)) x (N l a v r))) as Hout'.
    { intros Hin. apply addrs_binsert in Hin as [->|Hin]; done. }
    destruct Hcin as (Hcx' & Hcy').
    destruct (adjust_run _ _ _ _ _ _ _ _ _ _ (childless_raw _) Hhdr Hhn2 Hs2 Hout' Hcx Hcy
                (addrs_binsert_old _ _ _ _ Hcx') (addrs_binsert_old _ _ _ _ Hcy'))
      as [(x' & y' & Hx' & Hy' & _ & _ & Hadj)|([=] & _)].
    rewrite run_bind, Hadj. red_run. eauto.
Qed.

(** ** Trees built by [insert] *)

Lemma run_create st h :
  tree.create st h =
  Done (mk_bstree (Some (fresh (dom h))) 0,
        <[fresh (dom h) :=
            mk_node (raw_data st) (Val (Some (fresh (dom h))))
                    (Val (Some (fresh (dom h)))) (Val (Some (fresh (dom h))))]> h).
Proof.
  unfold tree.create, bst_node_default, operator_new, set_right, set_left, set_father.
  rewrite run_bind. cbv zeta. red_run.
  rewrite run_bind. erewrite run_modify; [|apply lookup_insert_eq]. red_run.
  rewrite run_bind. erewrite run_modify; [|apply lookup_insert_eq]. red_run.
  rewrite run_bind. erewrite run_modify; [|apply lookup_insert_eq]. red_run.
  rewrite run_ret, !insert_insert_eq. reflexivity.
Qed.

Lemma create_tree_at st nil h t h' :
  tree.create st h = Done (t, h') → tree_at nil h' t E ∧ caches_in h' t E.
Proof.
  rewrite run_create. intros [= <- <-]. split.
  - do 2 eexists. rewrite lookup_insert_eq. split_and!; [done..| |apply NoDup_nil_2].
    unfold addrs. simpl. apply not_elem_of_nil.
  - do 4 eexists. rewrite lookup_insert_eq. split_and!; done.
Qed.

Lemma caches_mirrored_E h t : caches_mirrored h t E.
Proof. intros HE. by destruct HE. Qed.

Lemma inserts_spec st fuel vs : ∀ h t shp t' h',
  tree_at (raw_link st) h t shp → caches_in h t shp → bst shp →
  caches_mirrored h t shp →
  tree.inserts fuel st t vs h = Done (t', h') →
  ∃ shp', t' = t ∧ tree_at (raw_link st) h' t shp' ∧ caches_in h' t shp' ∧ bst shp' ∧
          caches_mirrored h' t shp' ∧
          bsize shp' ≤ bsize shp + length vs ∧
          ∀ y, y ∈ elems shp' ↔ y ∈ elems shp ∨ y ∈ vs.
Proof.
  induction vs as [|v vs IH]; intros h t shp t' h' Ht Hc Hb Hm Hrun; simpl in Hrun.
  - rewrite run_ret in Hrun. injection Hrun as <- <-. exists shp.
    split_and!; [done..|lia|]. intros y. rewrite elem_of_nil. tauto.
  - apply bind_done in Hrun as (t1 & h1 & Hins & Hrun).
    destruct (insert_spec _ _ _ _ _ _ _ _ Ht Hc Hins) as (-> & Ht1 & Hc1 & Hm1).
    destruct (IH _ _ _ _ _ Ht1 Hc1 (bst_binsert _ _ _ Hb) (Hm1 Hb Hm) Hrun)
      as (shp' & -> & Ht' & Hc' & Hb' & Hm' & Hsz & Hel).
    exists shp'. split_and!; [done..| |].
    + pose proof (bsize_binsert (fresh (dom h)) v shp). simpl. lia.
    + intros y. rewrite Hel, elems_binsert_iff, elem_of_cons. tauto.
Qed.

Lemma inserts_total fuel vs : ∀ h t shp,
  tree_at (Val nullptr) h t shp → caches_in h t shp →
  bsize shp + length vs ≤ fuel →
  ∃ h', tree.inserts fuel ZeroFilled t vs h = Done (t, h').
Proof.
  induction vs as [|v vs IH]; intros h t shp Ht Hc Hfuel; simpl in *.
  - rewrite run_ret. eauto.
  - destruct (insert_total fuel _ _ _ v Ht Hc ltac:(lia)) as (h1 & Hins).
    rewrite run_bind, Hins. red_run.
    change (Val nullptr) with (raw_link ZeroFilled) in Ht.
    destruct (insert_spec _ _ _ _ _ _ _ _ Ht Hc Hins) as (_ & Ht1 & Hc1 & _).
    eapply IH; [done..|].
    pose proof (bsize_binsert (fresh (dom h)) v shp). lia.
Qed.

Lemma shape_ordered nil h p n :
  childless nil → in_subtree h p n →
  ∀ f t nn v, shape nil h (Val p) f t → bst t → h !! n = Some nn → data nn = Val v →
    (∀ c b w, left nn = Val c → in_subtree h c b → holds h b w → (w < v)%Z) ∧
    (∀ c b w, right nn = Val c → in_subtree h c b → holds h b w → (v < w)%Z).
Proof.
  intros Hnil Hin.
  induction Hin as [a n Hn|a n c b Hn Hc Hin IH|a n c b Hn Hc Hin IH];
    intros f t nn v Hs Hb Hnn Hv;
    apply shape_some in Hs as (l & v' & r & sl & sr & -> & Ha & Hl & Hr); try done;
    destruct Hb as (Hlt & Hgt & Hbl & Hbr).
  - rewrite Hnn in Ha. injection Ha as ->. simpl in Hv. injection Hv as ->.
    split; intros c b w Hc Hin Hw; simpl in Hc; subst.
    + eapply Forall_forall in Hlt; [done|]. by eapply in_subtree_elems.
    + eapply Forall_forall in Hgt; [done|]. by eapply in_subtree_elems.
  - rewrite Hn in Ha. injection Ha as ->. simpl in Hc. subst sl. by eapply IH.
  - rewrite Hn in Ha. injection Ha as ->. simpl in Hc. subst sr. by eapply IH.
Qed.

Lemma tree_at_root nil h t shp r :
  tree_at nil h t shp → root_of h t r → shp ≠ E ∧ ∃ hdr, shape nil h (Val r) (Some hdr) shp.
Proof.
  intros (hdr & hn & Hhdr & Hhn & Hroot & _) (hdr' & hn' & Hhdr' & Hhn' & Hf & Hne).
  assert (hdr' = hdr) as -> by congruence. assert (hn' = hn) as -> by congruence.
  destruct shp as [|l a v rr]; [congruence|]. split; [done|]. exists hdr. by rewrite <-Hf.
Qed.

Lemma tree_at_ordered nil h t shp :
  childless nil → tree_at nil h t shp → bst shp → bst_ordered h t ∧ no_duplicates h t.
Proof.
  intros Hnil Ht Hb. split.
  - intros n nn v (r & Hr & Hin) Hn Hv.
    destruct (tree_at_root _ _ _ _ _ Ht Hr) as (_ & hdr & Hs).
    by eapply shape_ordered.
  - intros a b v (r & Hr & Ha) (r' & Hr' & Hb') Hva Hvb.
    destruct (tree_at_root _ _ _ _ _ Ht Hr) as (_ & hdr & Hs).
    destruct (tree_at_root _ _ _ _ _ Ht Hr') as (_ & hdr' & Hs').
    destruct (in_subtree_nodes _ _ _ _ _ _ Hnil Hs Ha) as (va & Hina & Hva').
    destruct (in_subtree_nodes _ _ _ _ _ _ Hnil Hs' Hb') as (vb & Hinb & Hvb').
    rewrite <-(holds_fun _ _ _ _ Hva Hva') in Hina.
    rewrite <-(holds_fun _ _ _ _ Hvb Hvb') in Hinb.
    eapply nodes_same_elem; [|done..]. by apply bst_elems_NoDup.
Qed.

(** On zero-filled storage a run of [insert] calls completes once the fuel
    covers the number of calls. *)
Lemma build_total fuel vs h0 :
  length vs ≤ fuel → ∃ t h, tree.build fuel ZeroFilled vs h0 = Done (t, h).
Proof.
  intros Hfuel. unfold tree.build. rewrite run_bind.
  destruct (tree.create ZeroFilled h0) as [[t0 h1]| |] eqn:Hc;
    [|by rewrite run_create in Hc..].
  destruct (create_tree_at _ (Val nullptr) _ _ _ Hc) as (Ht0 & Hc0).
  destruct (inserts_total fuel vs _ _ _ Ht0 Hc0 Hfuel) as (h' & Hrun). eauto.
Qed.

(** X1. The real nodes of a tree built by [insert] calls hold exactly the
    values inserted, on either kind of storage. *)
Lemma build_holds_inserted st fuel vs h0 t h v :
  tree.build fuel st vs h0 = Done (t, h) →
  v ∈ vs ↔ ∃ b, real_node h t b ∧ holds h b v.
Proof.
  intros Hrun. unfold tree.build in Hrun.
  apply bind_done in Hrun as (t0 & h1 & Hc & Hrun).
  destruct (create_tree_at st (raw_link st) _ _ _ Hc) as (Ht0 & Hc0).
  destruct (inserts_spec _ _ _ _ _ _ _ _ Ht0 Hc0 I (caches_mirrored_E _ _) Hrun)
    as (shp & -> & Ht & _ & Hb & _ & _ & Hel).
  assert (∀ y, y ∈ elems shp ↔ y ∈ vs) as Hel'.
  { intros y. rewrite Hel. unfold elems at 1. simpl. rewrite elem_of_nil. tauto. }
  rewrite <-Hel'. split.
  - intros Hv. unfold elems in Hv. apply list_elem_of_fmap in Hv as ([b w] & -> & Hin).
    pose proof Ht as (hdr & hn & Hhdr & Hhn & Hroot & Hout & Hnd).
    destruct shp as [|l a x r]; [by apply elem_of_nil in Hin|].
    pose proof Hroot as (Hf & _). rewrite Hf in Hroot.
    destruct (nodes_in_subtree _ _ _ _ _ _ _ Hroot Hin) as (Hsub & Hholds).
    exists b. split; [|done]. exists (Some a). split; [|done].
    exists hdr, hn. split_and!; [done..|]. intros [= ->]. apply Hout.
    rewrite addrs_N. set_solver.
  - intros (b & (r & Hr & Hin) & Hholds).
    destruct (tree_at_root _ _ _ _ _ Ht Hr) as (_ & hdr & Hs).
    eapply in_subtree_elems; [apply childless_raw|done..].
Qed.

(** C4. Whatever the storage, a tree built from nothing by [insert] calls is
    ordered node by node (everything below the left link of a node is strictly
    smaller than its element, everything below its right link strictly
    greater) and holds no element twice; on zero-filled storage every such run
    of calls completes once the fuel covers the number of calls. *)
Theorem insert_keeps_bst_order (st : storage) (fuel : nat) (vs : list Z)
    (h0 : gmap addr bst_node) :
  (∀ t h, tree.build fuel st vs h0 = Done (t, h) →
          bst_ordered h t ∧ no_duplicates h t) ∧
  (length vs ≤ fuel → ∃ t h, tree.build fuel ZeroFilled vs h0 = Done (t, h)).
Proof.
  split.
  - intros t h Hrun. unfold tree.build in Hrun.
    apply bind_done in Hrun as (t0 & h1 & Hc & Hrun).
    destruct (create_tree_at st (raw_link st) _ _ _ Hc) as (Ht0 & Hc0).
    destruct (inserts_spec _ _ _ _ _ _ _ _ Ht0 Hc0 I (caches_mirrored_E _ _) Hrun)
      as (shp & -> & Ht & _ & Hb & _).
    eapply tree_at_ordered; [apply childless_raw|done..].
  - apply build_total.
Qed.

(** X2. What [front] and [back] answer after a run of [insert] calls on
    zero-filled storage: the greatest and the least value inserted. *)
Lemma front_is_greatest_back_is_least fuel vs h0 :
  vs ≠ [] → length vs ≤ fuel →
  ∃ t h f b, tree.build fuel ZeroFilled vs h0 = Done (t, h) ∧
    tree.front t h = Done (f, h) ∧ tree.back t h = Done (b, h) ∧
    f ∈ vs ∧ b ∈ vs ∧ ∀ v, v ∈ vs → (b ≤ v ≤ f)%Z.
Proof.
  intros Hvs Hfuel.
  destruct (build_total fuel vs h0 Hfuel) as (t & h & Hrun).
  exists t, h. pose proof Hrun as Hrun'. unfold tree.build in Hrun'.
  apply bind_done in Hrun' as (t0 & h1 & Hc & Hins).
  destruct (create_tree_at ZeroFilled (raw_link ZeroFilled) _ _ _ Hc) as (Ht0 & Hc0).
  destruct (inserts_spec _ _ _ _ _ _ _ _ Ht0 Hc0 I (caches_mirrored_E _ _) Hins)
    as (shp & -> & Ht & _ & Hb & Hm & _ & Hel).
  assert (∀ y, y ∈ elems shp ↔ y ∈ vs) as Hel'.
  { intros y. rewrite Hel. unfold elems at 1. simpl. rewrite elem_of_nil. tauto. }
  assert (shp ≠ E) as Hne.
  { intros ->. destruct vs as [|v vs]; [done|].
    assert (v ∈ elems E) as Hv by (apply Hel'; set_solver).
    by apply elem_of_nil in Hv. }
  destruct (Hm Hne) as (hdr & hn & x & wx & y & wy & Hhdr & Hhn & Hx & Hlm & Hy & Hrm).
  destruct Ht as (hdr' & hn' & Hhdr' & Hhn' & Hroot & _).
  assert (hdr' = hdr) as -> by congruence. assert (hn' = hn) as -> by congruence.
  destruct shp as [|l a v r]; [done|].
  destruct (leftmost_slot _ _ _ _ _ _ _ Hroot Hlm) as (nx & Hnx & _ & Hdx).
  destruct (rightmost_slot _ _ _ _ _ _ _ Hroot Hrm) as (ny & Hny & _ & Hdy).
  exists wy, wx. split; [done|]. split_and!.
  - unfold tree.front, tree._left_most.
    rewrite Hhdr, run_bind, (run_get_right _ _ _ Hhn), Hy. red_run.
    by rewrite (run_get_data _ _ _ Hny), Hdy.
  - unfold tree.back, tree._right_most.
    rewrite Hhdr, run_bind, (run_get_left _ _ _ Hhn), Hx. red_run.
    by rewrite (run_get_data _ _ _ Hnx), Hdx.
  - apply Hel'. by eapply nodes_elem, rightmost_in.
  - apply Hel'. by eapply nodes_elem, leftmost_in.
  - intros w Hw. apply Hel' in Hw. split.
    + by eapply bst_leftmost_min.
    + by eapply bst_rightmost_max.
Qed.

(** ** [clear] *)

Lemma shape_val h s f t : shape (Val nullptr) h s f t → ∃ p, s = Val p.
Proof. destruct t; simpl; [by exists None|]. intros (-> & _). eauto. Qed.

Lemma bst_node_delete_null fuel h : bst_node_delete fuel None h = Done (tt, h).
Proof. by destruct fuel. Qed.

Lemma bst_node_delete_spec t : ∀ fuel h p f,
  shape (Val nullptr) h (Val p) f t → NoDup (addrs t) → bsize t ≤ fuel →
  ∃ h', bst_node_delete fuel p h = Done (tt, h') ∧
        ∀ b, h' !! b = if decide (b ∈ addrs t) then None else h !! b.
Proof.
  induction t as [|l IHl a v r IHr]; intros fuel h p f Hs Hnd Hfuel.
  - simpl in Hs. injection Hs as ->. rewrite bst_node_delete_null.
    exists h. split; [done|]. intros b. rewrite decide_False; [done|].
    unfold addrs. simpl. apply not_elem_of_nil.
  - simpl in Hs. destruct Hs as ([= ->] & sl & sr & Ha & Hl & Hr).
    destruct (shape_val _ _ _ _ Hl) as (pl & ->).
    destruct (shape_val _ _ _ _ Hr) as (pr & ->).
    rewrite addrs_N in Hnd. apply NoDup_app in Hnd as (Hndl & Hlr & Hndr).
    apply NoDup_cons in Hndr as (Har & Hndr).
    simpl in Hfuel. destruct fuel as [|fuel]; [lia|]. simpl.
    rewrite run_bind, (run_get_left _ _ _ Ha). red_run. cbn [left]. red_run.
    rewrite run_bind.
    destruct (IHl fuel h pl (Some a) Hl Hndl ltac:(lia)) as (h1 & -> & Hh1).
    red_run.
    assert (a ∉ addrs l) as Hal.
    { intros Hin. apply (Hlr _ Hin). by apply elem_of_cons; left. }
    assert (h1 !! a = h !! a) as Ha1 by (rewrite Hh1, decide_False; done).
    rewrite Ha in Ha1.
    rewrite run_bind, (run_get_right _ _ _ Ha1). red_run. cbn [right]. red_run.
    assert (shape (Val nullptr) h1 (Val pr) (Some a) r) as Hr1.
    { eapply shape_frame; [done|]. intros b Hb. rewrite Hh1, decide_False; [done|].
      intros Hin. apply (Hlr _ Hin). by apply elem_of_cons; right. }
    rewrite run_bind.
    destruct (IHr fuel h1 pr (Some a) Hr1 Hndr ltac:(lia)) as (h2 & -> & Hh2).
    red_run. unfold operator_delete.
    assert (h2 !! a = Some (mk_node (Val v) (Val f) (Val pl) (Val pr))) as Ha2.
    { rewrite Hh2, decide_False by done. done. }
    rewrite Ha2. eexists. split; [done|].
    intros b. rewrite addrs_N. destruct (decide (b = a)) as [->|Hne].
    + rewrite lookup_delete_eq, decide_True; [done|set_solver].
    + rewrite lookup_delete_ne, Hh2, Hh1 by done.
      destruct (decide (b ∈ addrs r)), (decide (b ∈ addrs l)).
      all: try (rewrite decide_True; [done|set_solver]).
      rewrite decide_False; [done|set_solver].
Qed.

(** X23. On a non-empty tree whose absent children are null, [clear] completes
    once the fuel covers the number of nodes; afterwards every real node is
    deallocated, the root is the header again so that [empty] answers true,
    the header itself is still allocated, and [size] answers what it answered
    before. *)
Theorem clear_frees_nodes_keeps_size (fuel : nat) (h : gmap addr bst_node)
    (t : bstree) (shp : btree) :
  tree_at (Val nullptr) h t shp → shp ≠ E → bsize shp ≤ fuel →
  ∃ t' h', tree.clear fuel t h = Done (t', h') ∧
    (∀ b, real_node h t b → h' !! b = None) ∧
    tree._root t' h' = Done (_header_ptr t', h') ∧
    tree.empty t' h' = Done (true, h') ∧
    (∃ hdr, _header_ptr t' = Some hdr ∧ is_Some (h' !! hdr)) ∧
    tree.size t' = tree.size t.
Proof.
  intros Ht Hne Hfuel.
  assert (childless (Val nullptr)) as Hnil by (by right).
  unfold tree.clear. rewrite run_bind, (run_empty _ _ _ _ Hnil Ht).
  pose proof Ht as (hdr & hn & Hhdr & Hhn & Hroot & Hout & Hnd).
  destruct shp as [|l a v r]; [done|]. red_run.
  pose proof Hroot as (Hf & _). rewrite Hf in Hroot.
  unfold tree._root at 1. rewrite Hhdr, run_bind, (run_get_father _ _ _ Hhn), Hf. red_run.
  destruct (bst_node_delete_spec _ fuel _ _ _ Hroot Hnd Hfuel) as (h1 & Hdel & Hh1).
  rewrite run_bind, Hdel. red_run.
  assert (h1 !! hdr = Some hn) as Hhn1 by (rewrite Hh1, decide_False; done).
  unfold set_father. rewrite run_bind, (run_modify _ _ _ _ Hhn1). red_run.
  rewrite run_ret. do 2 eexists. split; [done|]. split_and!.
  - intros b (rt & Hrt & Hin).
    destruct (tree_at_root _ _ _ _ _ Ht Hrt) as (_ & hdr' & Hs).
    destruct (in_subtree_nodes _ _ _ _ _ _ Hnil Hs Hin) as (w & Hw & _).
    apply nodes_addr in Hw.
    rewrite lookup_insert_ne by (by intros ->). by rewrite Hh1, decide_True.
  - unfold tree._root. rewrite Hhdr. erewrite run_get_father; [|apply lookup_insert_eq].
    done.
  - unfold tree.empty, tree._root. rewrite Hhdr, run_bind.
    erewrite run_get_father; [|apply lookup_insert_eq]. cbn [father]. red_run.
    by rewrite run_ret, bool_decide_eq_true_2.
  - exists hdr. by rewrite lookup_insert_eq.
  - done.
Qed.

(** ** Node constructors *)

Lemma operator_new_done st h r :
  operator_new st h = Done r →
  r = (Some (fresh (dom h)), <[fresh (dom h) := raw_node st]> h).
Proof. unfold operator_new. by intros [= <-]. Qed.

Lemma bst_node_copy_spec st : ∀ fuel other pf h r h',
  bst_node_copy fuel st other pf h = Done (r, h') →
  (∀ b, is_Some (h !! b) → h' !! b = h !! b) ∧
  ∃ a n', r = Some a ∧ h !! a = None ∧ h' !! a = Some n' ∧
    ∀ o no, other = Some o → h !! o = Some no →
      (left no = Val nullptr → left n' = raw_link st) ∧
      (right no = Val nullptr → right n' = raw_link st).
Proof.
  induction fuel as [|fuel IH]; intros other pf h r h' Hrun; [discriminate|].
  simpl in Hrun.
  apply bind_done in Hrun as (this & h1 & Hnew & Hrun).
  apply operator_new_done in Hnew. injection Hnew as -> ->.
  set (a := fresh (dom h)) in *.
  assert (h !! a = None) as Hfresh by apply fresh_unused.
  apply bind_done in Hrun as (d & h1' & Hd & Hrun).
  apply get_data_done in Hd as (o & no1 & -> & Ho1 & _ & Hh1'). simpl in Hh1'. subst h1'.
  unfold set_data, set_father in Hrun.
  rewrite run_bind in Hrun. erewrite run_modify in Hrun; [|apply lookup_insert_eq].
  red_run in Hrun. rewrite run_bind in Hrun.
  erewrite run_modify in Hrun; [|apply lookup_insert_eq]. red_run in Hrun.
  rewrite !insert_insert_eq in Hrun. cbn [raw_node data father left right] in Hrun.
  set (h3 := <[a := _]> h) in Hrun.
  assert (∀ b, is_Some (h !! b) → h3 !! b = h !! b) as Hframe3.
  { intros b [nb Hb]. unfold h3. rewrite lookup_insert_ne; [done|]. intros <-. congruence. }
  apply bind_done in Hrun as (ol & h3' & Hol & Hrun).
  apply get_left_done in Hol as (o' & no3 & [= <-] & Ho3 & Hleft & Hh3'). simpl in Hleft, Hh3'.
  subst h3'.
  apply bind_done in Hrun as ([] & h5 & Hstep & Hrun).
  assert ((∀ b, is_Some (h3 !! b) → b ≠ a → h5 !! b = h3 !! b) ∧
          ∃ L, h5 !! a = Some (mk_node (Val d) (Val pf) L (raw_link st)) ∧
               (ol = None → L = raw_link st)) as (Hframe5 & L & Ha5 & HL).
  { destruct ol as [c|].
    - apply bind_done in Hstep as (cl & h4 & Hcopy & Hset).
      destruct (IH _ _ _ _ _ Hcopy) as (Hframe4 & _).
      unfold set_left in Hset.
      apply modify_done in Hset as (a' & n4 & [= <-] & Ha4 & [= ->]).
      rewrite Hframe4 in Ha4 by (unfold h3; by rewrite lookup_insert_eq).
      unfold h3 in Ha4. rewrite lookup_insert_eq in Ha4. injection Ha4 as <-. split.
      + intros b Hb Hne. rewrite lookup_insert_ne by done. by apply Hframe4.
      + eexists. rewrite lookup_insert_eq. split; [done|]. done.
    - rewrite run_ret in Hstep. injection Hstep as <-. split; [done|].
      eexists. unfold h3. rewrite lookup_insert_eq. done. }
  apply bind_done in Hrun as (or & h5' & Hor & Hrun).
  apply get_right_done in Hor as (o' & no5 & [= <-] & Ho5 & Hright & Hh5').
  simpl in Hright, Hh5'. subst h5'.
  apply bind_done in Hrun as ([] & h7 & Hstep' & Hrun).
  rewrite run_ret in Hrun. injection Hrun as <- <-.
  assert ((∀ b, is_Some (h5 !! b) → b ≠ a → h7 !! b = h5 !! b) ∧
          ∃ R, h7 !! a = Some (mk_node (Val d) (Val pf) L R) ∧
               (or = None → R = raw_link st)) as (Hframe7 & R & Ha7 & HR).
  { destruct or as [c|].
    - apply bind_done in Hstep' as (cr & h6 & Hcopy & Hset).
      destruct (IH _ _ _ _ _ Hcopy) as (Hframe6 & _).
      unfold set_right in Hset.
      apply modify_done in Hset as (a' & n6 & [= <-] & Ha6 & [= ->]).
      rewrite Hframe6, Ha5 in Ha6 by (by rewrite Ha5). injection Ha6 as <-. split.
      + intros b Hb Hne. rewrite lookup_insert_ne by done. by apply Hframe6.
      + eexists. rewrite lookup_insert_eq. split; [done|]. done.
    - rewrite run_ret in Hstep'. injection Hstep' as <-. split; [done|].
      eexists. split; [done|]. done. }
  split.
  - intros b Hb. assert (b ≠ a) as Hne by (intros ->; destruct Hb; congruence).
    assert (is_Some (h3 !! b)) as Hb3 by (by rewrite Hframe3).
    assert (is_Some (h5 !! b)) as Hb5 by (by rewrite Hframe5).
    by rewrite Hframe7, Hframe5, Hframe3.
  - exists a. eexists. split; [done|]. split; [done|]. split; [done|].
    intros o' no [= <-] Ho.
    assert (o ≠ a) as Hoa by (intros ->; congruence).
    assert (no3 = no) as ->.
    { rewrite Hframe3 in Ho3 by (by rewrite Ho). congruence. }
    assert (no5 = no) as ->.
    { assert (is_Some (h !! o)) as Hb by (by rewrite Ho).
      assert (is_Some (h3 !! o)) as Hb3 by (by rewrite Hframe3).
      rewrite Hframe5, Hframe3 in Ho5 by done. congruence. }
    simpl. split.
    + intros Hl. apply HL. rewrite Hl in Hleft. by injection Hleft.
    + intros Hr. apply HR. rewrite Hr in Hright. by injection Hright.
Qed.

Lemma bst_node_delete_only_removes : ∀ fuel p h h1,
  bst_node_delete fuel p h = Done (tt, h1) →
  ∀ b, h1 !! b = None ∨ h1 !! b = h !! b.
Proof.
  induction fuel as [|fuel IH]; intros p h h1 Hrun b.
  - destruct p; [discriminate|]. injection Hrun as <-. by right.
  - destruct p as [a|]; [|injection Hrun as <-; by right]. simpl in Hrun.
    apply bind_done in Hrun as (l & h' & Hl & Hrun).
    apply get_left_done in Hl as (? & ? & ? & ? & ? & Hh'). simpl in Hh'. subst h'.
    apply bind_done in Hrun as ([] & h2 & Hdl & Hrun).
    apply bind_done in Hrun as (r & h' & Hr & Hrun).
    apply get_right_done in Hr as (? & ? & ? & ? & ? & Hh'). simpl in Hh'. subst h'.
    apply bind_done in Hrun as ([] & h3 & Hdr & Hrun).
    unfold operator_delete in Hrun. destruct (h3 !! a); [|discriminate].
    injection Hrun as <-.
    destruct (decide (b = a)) as [->|Hne]; [left; apply lookup_delete_eq|].
    rewrite lookup_delete_ne by done.
    destruct (IH _ _ _ Hdr b) as [Hg| ->]; [by left|]. apply (IH _ _ _ Hdl).
Qed.

Lemma read_left_indet h a n :
  h !! a = Some n → left n = Indet →
  get_left (Some a) h = Undefined ∧
  (∀ fuel, iterator.decrement fuel (mk_iterator (Some a)) h = Undefined) ∧
  (∀ fuel r, bst_node_delete fuel (Some a) h ≠ Done r).
Proof.
  intros Hn Hl.
  assert (get_left (Some a) h = Undefined) as Hget by (by rewrite (run_get_left _ _ _ Hn), Hl).
  split_and!; [done| |].
  - intros fuel. unfold iterator.decrement. simpl. by rewrite run_bind, Hget.
  - intros [|fuel] r; [done|]. simpl. by rewrite run_bind, Hget.
Qed.

Lemma read_right_indet h a n :
  h !! a = Some n → right n = Indet →
  get_right (Some a) h = Undefined ∧
  (∀ fuel, iterator.increment fuel (mk_iterator (Some a)) h = Undefined) ∧
  (∀ fuel r, bst_node_delete fuel (Some a) h ≠ Done r).
Proof.
  intros Hn Hr.
  assert (get_right (Some a) h = Undefined) as Hget by (by rewrite (run_get_right _ _ _ Hn), Hr).
  split_and!; [done| |].
  - intros fuel. unfold iterator.increment. simpl. by rewrite run_bind, Hget.
  - intros [|fuel] [[] h3]; [done|]. simpl. intros Hrun.
    apply bind_done in Hrun as (l & h' & Hl & Hrun).
    apply get_left_done in Hl as (? & ? & ? & ? & ? & Hh'). simpl in Hh'. subst h'.
    apply bind_done in Hrun as ([] & h2 & Hdl & Hrun).
    apply bind_done in Hrun as (r & h' & Hr' & _).
    apply get_right_done in Hr' as (a' & n' & [= <-] & Hn' & Hr' & _).
    destruct (bst_node_delete_only_removes _ _ _ _ Hdl a) as [Hgone|Hsame]; [congruence|].
    rewrite Hsame, Hn in Hn'. injection Hn' as <-. congruence.
Qed.

(** C9. The default constructor yields a node holding what the storage held.
    The copy constructor, given a live source node, yields a clone whose [left]
    (resp. [right]) member is what the storage held whenever the source has no
    left (resp. right) child: it is never written.  On indeterminate storage
    reading that member is undefined, and with it stepping the iterator from
    the clone towards the missing side and destroying the clone. *)
Theorem copy_leaves_missing_links_unwritten (st : storage) (fuel : nat)
    (h : gmap addr bst_node) (other : addr) (no : bst_node)
    (pf this : option addr) (h' : gmap addr bst_node) :
  h !! other = Some no →
  bst_node_copy fuel st (Some other) pf h = Done (this, h') →
  (∃ d, bst_node_default st h = Done (Some d, <[d := raw_node st]> h) ∧ h !! d = None) ∧
  ∃ a n', this = Some a ∧ h !! a = None ∧ h' !! a = Some n' ∧
    (left no = Val nullptr →
       left n' = raw_link st ∧
       (st = Indeterminate →
          get_left (Some a) h' = Undefined ∧
          (∀ k, iterator.decrement k (mk_iterator (Some a)) h' = Undefined) ∧
          (∀ k r, bst_node_delete k (Some a) h' ≠ Done r))) ∧
    (right no = Val nullptr →
       right n' = raw_link st ∧
       (st = Indeterminate →
          get_right (Some a) h' = Undefined ∧
          (∀ k, iterator.increment k (mk_iterator (Some a)) h' = Undefined) ∧
          (∀ k r, bst_node_delete k (Some a) h' ≠ Done r))).
Proof.
  intros Ho Hrun. split.
  { exists (fresh (dom h)). split; [done|apply fresh_unused]. }
  destruct (bst_node_copy_spec _ _ _ _ _ _ _ Hrun) as (_ & a & n' & -> & Ha & Ha' & Hlinks).
  destruct (Hlinks _ _ eq_refl Ho) as (Hl & Hr).
  exists a, n'. split_and!; [done..| |].
  - intros Hnol. split; [by apply Hl|]. intros ->.
    eapply read_left_indet; [done|]. by apply Hl.
  - intros Hnor. split; [by apply Hr|]. intros ->.
    eapply read_right_indet; [done|]. by apply Hr.
Qed.

(** C6. Moving from a node that lacks a left or a right child is undefined:
    the constructor assigns through both child pointers unconditionally. *)
Theorem move_from_node_missing_a_child_undefined (st : storage)
    (h : gmap addr bst_node) (other : addr) (no : bst_node) (pf : option addr) :
  h !! other = Some no →
  left no = Val nullptr ∨ right no = Val nullptr →
  bst_node_move st (Some other) pf h = Undefined.
Proof.
  intros Ho Hmiss. pose proof (fresh_ne _ _ _ Ho) as Hne.
  unfold bst_node_move, operator_new. rewrite run_bind. cbv zeta. red_run.
  set (a := fresh (dom h)) in *.
  assert (∀ n, <[a := n]> h !! other = Some no) as Ho'.
  { intros n. by rewrite lookup_insert_ne. }
  rewrite run_bind, (run_get_data _ _ _ (Ho' _)).
  destruct (data no) as [|d]; [done|]. red_run.
  unfold set_data, set_father, set_left, set_right.
  rewrite run_bind. erewrite run_modify; [|apply lookup_insert_eq]. red_run.
  rewrite run_bind. erewrite run_modify; [|apply lookup_insert_eq]. red_run.
  rewrite !insert_insert_eq.
  rewrite run_bind, (run_get_left _ _ _ (Ho' _)).
  destruct (left no) as [|l] eqn:Hl; [done|]. red_run.
  rewrite run_bind. erewrite run_modify; [|apply lookup_insert_eq]. red_run.
  rewrite !insert_insert_eq.
  rewrite run_bind, (run_get_right _ _ _ (Ho' _)).
  destruct (right no) as [|r] eqn:Hr; [done|]. red_run.
  rewrite run_bind. erewrite run_modify; [|apply lookup_insert_eq]. red_run.
  rewrite !insert_insert_eq. cbn [raw_node data father left right].
  rewrite run_bind. erewrite run_get_right; [|apply lookup_insert_eq]. cbn [right]. red_run.
  rewrite run_bind.
  destruct r as [c|]; [|done].
  destruct Hmiss as [[= ->]|[=]].
  unfold modify at 1.
  destruct (<[a:=_]> h !! c) as [nc|] eqn:Hc; [|done]. red_run.
  rewrite run_bind.
  assert (∃ na, <[c:=mk_node (data nc) (Val (Some a)) (left nc) (right nc)]>
                  (<[a:=mk_node (Val d) (Val pf) (Val None) (Val (Some c))]> h) !! a = Some na ∧
                left na = Val None) as (na & Hna & Hnal).
  { destruct (decide (c = a)) as [->|Hca].
    - rewrite lookup_insert_eq in Hc. injection Hc as <-.
      eexists. rewrite lookup_insert_eq. done.
    - eexists. rewrite lookup_insert_ne, lookup_insert_eq by done. done. }
  rewrite (run_get_left _ _ _ Hna), Hnal. red_run. done.
Qed.

(** C10. Constructing a tree from an initial value is undefined whatever the
    value: the header pointer is null when it is dereferenced. *)
Theorem create_from_value_undefined (st : storage) (_val : Z)
    (h : gmap addr bst_node) :
  tree.create_from st _val h = Undefined.
Proof.
  unfold tree.create_from. cbv zeta.
  (* the first step goes through the header pointer, which is null *)
  rewrite run_bind. unfold deref, nullptr. reflexivity.
Qed.

(** ** [find] *)

Lemma find_loop_null fuel x h : tree.find_loop fuel x None h = Done (None, h).
Proof. by destruct fuel. Qed.

Lemma find_loop_spec h x t : ∀ fuel a f,
  shape (Val nullptr) h (Val (Some a)) f t → bsize t ≤ fuel →
  tree.find_loop fuel x (Some a) h = Done (bfind x t, h).
Proof.
  induction t as [|l IHl a' v r IHr]; intros fuel a f Hs Hfuel; [done|].
  simpl in Hs. destruct Hs as ([= <-] & sl & sr & Ha & Hl & Hr).
  simpl in Hfuel. destruct fuel as [|fuel]; [lia|]. simpl.
  rewrite run_bind, (run_get_data _ _ _ Ha). red_run. cbn [data].
  destruct (x =? v)%Z; [done|].
  rewrite run_bind. destruct (x <? v)%Z.
  - rewrite (run_get_left _ _ _ Ha). cbn [left].
    destruct l as [|ll la lv lr].
    + simpl in Hl. subst sl. red_run. by rewrite find_loop_null.
    + pose proof Hl as (-> & _). red_run. apply (IHl _ _ _ Hl). lia.
  - rewrite (run_get_right _ _ _ Ha). cbn [right].
    destruct r as [|rl ra rv rr].
    + simpl in Hr. subst sr. red_run. by rewrite find_loop_null.
    + pose proof Hr as (-> & _). red_run. apply (IHr _ _ _ Hr). lia.
Qed.

Lemma bfind_Some x t b : bfind x t = Some b → (b, x) ∈ nodes t.
Proof.
  induction t as [|l IHl a v r IHr]; simpl; [done|].
  destruct (x =? v)%Z eqn:Heq.
  - apply Z.eqb_eq in Heq as ->. intros [= ->]. set_solver.
  - destruct (x <? v)%Z; set_solver.
Qed.

Lemma bfind_None x t : bst t → bfind x t = None → x ∉ elems t.
Proof.
  induction t as [|l IHl a v r IHr]; simpl.
  - intros _ _. unfold elems. simpl. apply not_elem_of_nil.
  - intros (Hl & Hr & Hbl & Hbr). rewrite elems_N.
    destruct (x =? v)%Z eqn:Heq; [done|]. apply Z.eqb_neq in Heq.
    destruct (x <? v)%Z eqn:Hlt; intros Hnone Hin.
    + apply Z.ltb_lt in Hlt. apply elem_of_app in Hin as [Hin|Hin]; [by apply IHl|].
      apply elem_of_cons in Hin as [->|Hin]; [done|].
      eapply Forall_forall in Hr; [|done]. simpl in Hr. lia.
    + apply Z.ltb_ge in Hlt. apply elem_of_app in Hin as [Hin|Hin].
      * eapply Forall_forall in Hl; [|done]. simpl in Hl. lia.
      * apply elem_of_cons in Hin as [->|Hin]; [done|]. by apply IHr.
Qed.

(** X3. [find] on a non-empty ordered tree whose absent children are null: it
    completes once the fuel covers the number of nodes, answers the node that
    holds the value when there is one, and [end()] when there is none. *)
Lemma find_on_nonempty_tree fuel h t shp x :
  tree_at (Val nullptr) h t shp → shp ≠ E → bst shp → bsize shp ≤ fuel →
  ∃ it, tree.find fuel t x h = Done (it, h) ∧
    ((∃ b, _ptr it = Some b ∧ real_node h t b ∧ holds h b x) ∨
     (tree.end_ t h = Done (it, h) ∧ ∀ b, real_node h t b → ¬ holds h b x)).
Proof.
  intros Ht Hne Hb Hfuel.
  assert (childless (Val nullptr)) as Hnil by (by right).
  pose proof Ht as (hdr & hn & Hhdr & Hhn & Hroot & Hout & Hnd).
  destruct shp as [|l a v r]; [done|].
  pose proof Hroot as (Hf & _). rewrite Hf in Hroot.
  unfold tree.find, tree._root.
  rewrite Hhdr, run_bind, (run_get_father _ _ _ Hhn), Hf. red_run.
  rewrite run_bind, (find_loop_spec _ _ _ _ _ _ Hroot Hfuel). red_run.
  assert (root_of h t (Some a)) as Hrt.
  { exists hdr, hn. split_and!; [done..|]. intros [= ->]. apply Hout.
    rewrite addrs_N. set_solver. }
  destruct (bfind x (N l a v r)) as [b|] eqn:Hfind.
  - eexists. split; [done|]. left. exists b. split; [done|].
    apply bfind_Some in Hfind.
    destruct (nodes_in_subtree _ _ _ _ _ _ _ Hroot Hfind) as (Hin & Hholds).
    split; [|done]. by exists (Some a).
  - eexists. split; [done|]. right. split; [done|].
    intros b (rt & Hrt' & Hin) Hholds.
    destruct (tree_at_root _ _ _ _ _ Ht Hrt') as (_ & hdr' & Hs).
    apply (bfind_None _ _ Hb Hfind). by eapply in_subtree_elems.
Qed.

(** C5. On a freshly constructed (empty) tree the search never answers
    [end()]: the loop starts at the header, which is its own father and its
    own left and right, so for a value other than the zero held by zero-filled
    storage the loop does not end; on indeterminate storage the first
    comparison already reads an indeterminate element. *)
Theorem find_on_empty_tree_never_returns (st : storage) (fuel : nat) (_val : Z)
    (h0 h : gmap addr bst_node) (t : bstree) :
  tree.create st h0 = Done (t, h) → _val ≠ 0%Z →
  tree.empty t h = Done (true, h) ∧
  tree.find fuel t _val h =
    match st, fuel with
    | Indeterminate, S _ => Undefined
    | _, _ => OutOfFuel
    end.
Proof.
  rewrite run_create. intros [= <- <-] Hv. set (a := fresh (dom h0)).
  set (h := <[a := _]> h0).
  assert (h !! a = Some (mk_node (raw_data st) (Val (Some a)) (Val (Some a)) (Val (Some a))))
    as Ha by apply lookup_insert_eq.
  split.
  - unfold tree.empty, tree._root. simpl.
    rewrite run_bind, (run_get_father _ _ _ Ha). cbn [father]. red_run.
    by rewrite run_ret, bool_decide_eq_true_2.
  - unfold tree.find, tree._root. simpl.
    rewrite run_bind, (run_get_father _ _ _ Ha). cbn [father]. red_run.
    rewrite run_bind.
    assert (tree.find_loop fuel _val (Some a) h =
            match st, fuel with
            | Indeterminate, S _ => Undefined
            | _, _ => OutOfFuel
            end) as ->; [|by destruct st, fuel].
    destruct st.
    + destruct fuel as [|fuel]; [done|]. simpl.
      by rewrite run_bind, (run_get_data _ _ _ Ha).
    + induction fuel as [|fuel IH]; [done|]. simpl.
      rewrite run_bind, (run_get_data _ _ _ Ha). cbn [data raw_data]. red_run.
      apply Z.eqb_neq in Hv. rewrite Hv. rewrite run_bind.
      destruct (_val <? 0)%Z.
      * rewrite (run_get_left _ _ _ Ha). cbn [left]. red_run. rewrite IH. by destruct fuel.
      * rewrite (run_get_right _ _ _ Ha). cbn [right]. red_run. rewrite IH. by destruct fuel.
Qed.

(** ** Leaves on indeterminate storage *)

(** The first [insert] into an empty tree, lines 253-258. *)
Lemma run_insert_first st fuel t hdr hn x h :
  _header_ptr t = Some hdr → h !! hdr = Some hn → father hn = Val (Some hdr) →
  tree.insert fuel st t x h =
  Done (t, <[hdr := mk_node (data hn) (Val (Some (fresh (dom h))))
                      (Val (Some (fresh (dom h)))) (Val (Some (fresh (dom h))))]>
             (<[fresh (dom h) :=
                  mk_node (Val x) (Val (Some hdr)) (raw_link st) (raw_link st)]> h)).
Proof.
  intros Hhdr Hhn Hf. pose proof (fresh_ne _ _ _ Hhn) as Hne.
  unfold tree.insert, tree.empty, tree._root. rewrite Hhdr.
  rewrite !run_bind, (run_get_father _ _ _ Hhn), Hf. red_run.
  rewrite run_ret, bool_decide_eq_true_2 by done. red_run.
  rewrite run_bind, run_leaf. red_run.
  unfold set_father, set_right, set_left.
  rewrite run_bind. erewrite run_modify; [|by rewrite lookup_insert_ne].
  red_run. rewrite run_bind.
  erewrite run_get_father; [|apply lookup_insert_eq]. cbn [father].
  red_run. rewrite run_bind.
  erewrite run_modify; [|apply lookup_insert_eq]. red_run.
  rewrite run_bind.
  erewrite run_modify; [|apply lookup_insert_eq]. red_run.
  rewrite run_ret. cbn [data father left right]. by rewrite !insert_insert_eq.
Qed.

(** X4. On indeterminate storage the links of a leaf made by [insert] are
    indeterminate: once a tree holds one value, inserting or looking up a
    different value, and clearing the tree, are undefined. *)
Lemma leaf_links_never_written fuel (v w : Z) h0 t h :
  v ≠ w → tree.build fuel Indeterminate [v] h0 = Done (t, h) →
  tree.insert (S fuel) Indeterminate t w h = Undefined ∧
  tree.find (S fuel) t w h = Undefined ∧
  tree.clear (S fuel) t h = Undefined.
Proof.
  intros Hvw Hrun. unfold tree.build in Hrun.
  rewrite run_bind, run_create in Hrun. red_run in Hrun. cbn [tree.inserts] in Hrun.
  set (hdr := fresh (dom h0)) in *. rewrite run_bind in Hrun.
  erewrite run_insert_first in Hrun; [|done|apply lookup_insert_eq|done].
  red_run in Hrun. rewrite run_ret in Hrun. injection Hrun as <- <-.
  cbn [data raw_link raw_data].
  match goal with |- context [<[hdr := ?hn]> (<[?a := ?nn]> ?h1)] =>
    set (h := <[hdr := hn]> (<[a := nn]> h1));
    assert (hdr ≠ a) as Hne by (eapply fresh_ne; apply lookup_insert_eq);
    assert (h !! hdr = Some hn) as Hhdr by apply lookup_insert_eq;
    assert (h !! a = Some nn) as Hn
      by (unfold h; rewrite lookup_insert_ne by done; apply lookup_insert_eq);
    set (n := a) in *
  end.
  assert ((w =? v)%Z = false) as Hneq by (apply Z.eqb_neq; congruence).
  assert (∀ B (k : option addr → M B),
            bind (if (w <? v)%Z then get_left (Some n) else get_right (Some n)) k h
            = Undefined) as Hchild.
  { intros B k. rewrite run_bind.
    destruct (w <? v)%Z; [rewrite (run_get_left _ _ _ Hn)|rewrite (run_get_right _ _ _ Hn)];
      reflexivity. }
  split_and!.
  - unfold tree.insert, tree.empty, tree._root. cbn [_header_ptr].
    rewrite !run_bind, (run_get_father _ _ _ Hhdr). cbn [father]. red_run.
    rewrite run_ret, bool_decide_eq_false_2 by congruence. red_run.
    rewrite run_bind, (run_get_father _ _ _ Hhdr). cbn [father]. red_run.
    rewrite run_bind. cbn [tree.insert_loop].
    rewrite run_bind, (run_get_data _ _ _ Hn). cbn [data]. red_run.
    by rewrite Hneq, Hchild.
  - unfold tree.find, tree._root. cbn [_header_ptr].
    rewrite run_bind, (run_get_father _ _ _ Hhdr). cbn [father]. red_run.
    rewrite run_bind. cbn [tree.find_loop].
    rewrite run_bind, (run_get_data _ _ _ Hn). cbn [data]. red_run.
    by rewrite Hneq, Hchild.
  - unfold tree.clear, tree.empty, tree._root. cbn [_header_ptr].
    rewrite !run_bind, (run_get_father _ _ _ Hhdr). cbn [father]. red_run.
    rewrite run_ret, bool_decide_eq_false_2 by congruence. red_run.
    rewrite run_bind, (run_get_father _ _ _ Hhdr). cbn [father]. red_run.
    rewrite run_bind. cbn [bst_node_delete].
    by rewrite run_bind, (run_get_left _ _ _ Hn).
Qed.

(** ** Worked examples *)

Example build_5_3_8 :
  tree.build 3 ZeroFilled [5; 3; 8]%Z ∅ = Done (mk_bstree (Some 0) 0, heap_5_3_8).
Proof. vm_compute. reflexivity. Qed.

Lemma tree_at_5_3_8 sz : tree_at (Val nullptr) heap_5_3_8 (mk_bstree (Some 0) sz) shape_5_3_8.
Proof.
  exists 0. eexists. split; [reflexivity|]. split; [reflexivity|]. split; [|split].
  - simpl. split; [reflexivity|]. do 2 eexists. split; [reflexivity|]. split.
    + split; [reflexivity|]. do 2 eexists. split; [reflexivity|]. split; reflexivity.
    + split; [reflexivity|]. do 2 eexists. split; [reflexivity|]. split; reflexivity.
  - apply (bool_decide_unpack _). vm_compute. exact I.
  - apply (bool_decide_unpack _). vm_compute. exact I.
Defined.

Lemma insert_keeps_bst_order_witness :
  ∃ t h, tree.build 7 ZeroFilled [5; 3; 8; 1; 4; 7; 9]%Z ∅ = Done (t, h) ∧
         bst_ordered h t ∧ no_duplicates h t.
Proof.
  destruct (proj2 (insert_keeps_bst_order ZeroFilled 7 [5; 3; 8; 1; 4; 7; 9]%Z ∅))
    as (t & h & Hrun); [simpl; lia|].
  exists t, h. split; [exact Hrun|].
  exact (proj1 (insert_keeps_bst_order ZeroFilled 7 [5; 3; 8; 1; 4; 7; 9]%Z ∅) t h Hrun).
Defined.

Lemma clear_frees_nodes_keeps_size_witness :
  tree_at (Val nullptr) heap_5_3_8 (mk_bstree (Some 0) 3) shape_5_3_8 ∧
  shape_5_3_8 ≠ E ∧ bsize shape_5_3_8 ≤ 3 ∧
  ∃ t' h', tree.clear 3 (mk_bstree (Some 0) 3) heap_5_3_8 = Done (t', h') ∧
    (∀ b, real_node heap_5_3_8 (mk_bstree (Some 0) 3) b → h' !! b = None) ∧
    tree._root t' h' = Done (_header_ptr t', h') ∧
    tree.empty t' h' = Done (true, h') ∧
    (∃ hdr, _header_ptr t' = Some hdr ∧ is_Some (h' !! hdr)) ∧
    tree.size t' = 3%N.
Proof.
  assert (shape_5_3_8 ≠ E) as Hne by discriminate.
  assert (bsize shape_5_3_8 ≤ 3) as Hsz by (simpl; lia).
  split; [apply tree_at_5_3_8|]. split; [exact Hne|]. split; [exact Hsz|].
  exact (clear_frees_nodes_keeps_size 3 heap_5_3_8 (mk_bstree (Some 0) 3) shape_5_3_8
           (tree_at_5_3_8 3) Hne Hsz).
Defined.

Lemma copy_leaves_missing_links_unwritten_witness :
  heap_leaf !! 0 = Some (mk_node (Val 5%Z) (Val nullptr) (Val nullptr) (Val nullptr)) ∧
  bst_node_copy 1 Indeterminate (Some 0) nullptr heap_leaf =
    Done (Some 1, <[1 := mk_node (Val 5%Z) (Val nullptr) Indet Indet]> heap_leaf) ∧
  ∃ a n', Some 1 = Some a ∧ heap_leaf !! a = None ∧
    <[1 := mk_node (Val 5%Z) (Val nullptr) Indet Indet]> heap_leaf !! a = Some n' ∧
    left n' = Indet ∧ right n' = Indet.
Proof.
  assert (heap_leaf !! 0 = Some (mk_node (Val 5%Z) (Val nullptr) (Val nullptr) (Val nullptr)))
    as H0 by reflexivity.
  assert (bst_node_copy 1 Indeterminate (Some 0) nullptr heap_leaf =
    Done (Some 1, <[1 := mk_node (Val 5%Z) (Val nullptr) Indet Indet]> heap_leaf)) as Hrun
    by (vm_compute; reflexivity).
  split; [exact H0|]. split; [exact Hrun|].
  destruct (copy_leaves_missing_links_unwritten Indeterminate 1 heap_leaf 0 _ nullptr _ _
              H0 Hrun) as (_ & a & n' & Ha & Hfresh & Hn' & Hl & Hr).
  exists a, n'. split; [exact Ha|]. split; [exact Hfresh|]. split; [exact Hn'|].
  split; [exact (proj1 (Hl eq_refl))|exact (proj1 (Hr eq_refl))].
Defined.

Lemma move_from_node_missing_a_child_undefined_witness :
  heap_leaf !! 0 = Some (mk_node (Val 5%Z) (Val nullptr) (Val nullptr) (Val nullptr)) ∧
  bst_node_move ZeroFilled (Some 0) nullptr heap_leaf = Undefined.
Proof.
  split; [reflexivity|].
  apply (move_from_node_missing_a_child_undefined ZeroFilled heap_leaf 0
           (mk_node (Val 5%Z) (Val nullptr) (Val nullptr) (Val nullptr)) nullptr).
  - reflexivity.
  - left. reflexivity.
Defined.

Lemma find_on_empty_tree_never_returns_witness :
  tree.create ZeroFilled ∅ =
    Done (mk_bstree (Some 0) 0,
          {[ 0 := mk_node (Val 0%Z) (Val (Some 0)) (Val (Some 0)) (Val (Some 0)) ]}) ∧
  tree.find 1000 (mk_bstree (Some 0) 0) 5
    {[ 0 := mk_node (Val 0%Z) (Val (Some 0)) (Val (Some 0)) (Val (Some 0)) ]} = OutOfFuel.
Proof.
  assert (tree.create ZeroFilled ∅ =
    Done (mk_bstree (Some 0) 0,
          {[ 0 := mk_node (Val 0%Z) (Val (Some 0)) (Val (Some 0)) (Val (Some 0)) ]})) as Hc
    by (vm_compute; reflexivity).
  split; [exact Hc|].
  exact (proj2 (find_on_empty_tree_never_returns ZeroFilled 1000 5 ∅ _ _ Hc ltac:(lia))).
Defined.

(** ** What the code does where it departs from its description *)

Local Open Scope Z_scope.

(** C1. After [insert(5); insert(3)] on zero-filled storage the header's
    [right] still points to the node of 5 and its [left] to the node of 3, so
    [front()] answers 5 and [back()] answers 3; after the seven inserts of the
    worked example [front()] answers 9 and [back()] answers 1.  On
    indeterminate storage the second insert is already undefined. *)
Theorem extremum_caches_exchanged :
  result (t ← tree.build 1 ZeroFilled [5; 3];
          l ← tree._left_most t; r ← tree._right_most t;
          dl ← get_data l; dr ← get_data r;
          f ← tree.front t; b ← tree.back t;
          ret (dl, dr, f, b)) = Done (5, 3, 5, 3) ∧
  result (t ← tree.build 7 ZeroFilled [5; 3; 8; 1; 4; 7; 9];
          f ← tree.front t; b ← tree.back t; ret (f, b)) = Done (9, 1) ∧
  result (tree.build 1 Indeterminate [5; 3]) = Undefined.
Proof. split_and!; vm_compute; reflexivity. Qed.

Lemma traverse_only_node steps :
  traverse 1 steps (mk_iterator (Some 1%nat)) (mk_iterator (Some 0%nat))
    (<[1%nat := mk_node (Val 5) (Val (Some 0%nat)) (Val nullptr) (Val nullptr)]>
       {[ 0%nat := mk_node (Val 0) (Val (Some 1%nat)) (Val (Some 1%nat)) (Val (Some 1%nat)) ]})
  = OutOfFuel.
Proof.
  induction steps as [|steps IH]; [reflexivity|].
  cbn [traverse]. change (iterator.eq _ _) with false. cbv iota.
  rewrite run_bind.
  match goal with |- context [iterator.star ?it ?h] =>
    change (iterator.star it h) with (Done (5, h)) end.
  red_run. rewrite run_bind.
  match goal with |- context [iterator.increment 1 ?it ?h] =>
    assert (iterator.increment 1 it h = Done (it, h)) as -> by (vm_compute; reflexivity) end.
  red_run. rewrite run_bind. unfold nullptr in IH. rewrite IH. reflexivity.
Qed.

(** C2. In the tree holding only 5, on zero-filled storage, incrementing
    [begin()] gives [begin()] again and not [end()], so the visiting loop
    never reaches [end()]; after the seven inserts of the worked example the
    loop yields the single element 9 while [size()] answers 0.  On
    indeterminate storage the increment is undefined. *)
Theorem increment_misses_end :
  result (t ← tree.build 1 ZeroFilled [5];
          b ← tree.begin t; e ← tree.end_ t; i ← iterator.increment 1 b;
          ret (iterator.eq i b, iterator.eq i e)) = Done (true, false) ∧
  (∀ steps, result (t ← tree.build 1 ZeroFilled [5]; visit 1 steps t) = OutOfFuel) ∧
  result (t ← tree.build 7 ZeroFilled [5; 3; 8; 1; 4; 7; 9];
          l ← visit 7 7 t; ret (l, tree.size t)) = Done ([9], 0%N) ∧
  result (t ← tree.build 1 Indeterminate [5];
          b ← tree.begin t; iterator.increment 1 b) = Undefined.
Proof.
  split_and!; try (vm_compute; reflexivity).
  intros steps. unfold result. rewrite run_bind.
  assert (tree.build 1 ZeroFilled [5] ∅ =
          Done (mk_bstree (Some 0%nat) 0,
                <[1%nat := mk_node (Val 5) (Val (Some 0%nat)) (Val nullptr) (Val nullptr)]>
                  {[ 0%nat := mk_node (Val 0) (Val (Some 1%nat)) (Val (Some 1%nat))
                                      (Val (Some 1%nat)) ]})) as ->
    by (vm_compute; reflexivity).
  red_run. unfold visit. rewrite run_bind.
  match goal with |- context [tree.begin ?t ?h] =>
    assert (tree.begin t h = Done (mk_iterator (Some 1%nat), h)) as ->
      by (vm_compute; reflexivity) end.
  red_run. rewrite run_bind. unfold tree.end_ at 1. rewrite run_ret. red_run.
  cbn [_header_ptr]. by rewrite traverse_only_node.
Qed.

(** C3. [insert] never changes what [size()] answers: it stays 0 after
    inserting 5 into an empty tree, and after inserting 5 twice. *)
Theorem insert_leaves_size_unchanged :
  (∀ fuel st t v h t' h',
     tree.insert fuel st t v h = Done (t', h') → tree.size t' = tree.size t) ∧
  result (t ← tree.build 1 ZeroFilled [5]; ret (tree.size t)) = Done 0%N ∧
  result (t ← tree.build 1 ZeroFilled [5; 5]; ret (tree.size t)) = Done 0%N.
Proof.
  split_and!; [|vm_compute; reflexivity..].
  intros fuel st t v h t' h' Hrun. unfold tree.insert in Hrun.
  apply bind_done in Hrun as (e & h1 & _ & Hrun). destruct e.
  - apply bind_done in Hrun as (? & ? & _ & Hrun).
    apply bind_done in Hrun as (? & ? & _ & Hrun).
    apply bind_done in Hrun as (? & ? & _ & Hrun).
    apply bind_done in Hrun as (? & ? & _ & Hrun).
    apply bind_done in Hrun as (? & ? & _ & Hrun).
    rewrite run_ret in Hrun. by injection Hrun as <- _.
  - apply bind_done in Hrun as (? & ? & _ & Hrun).
    apply bind_done in Hrun as (found & ? & _ & Hrun).
    destruct found.
    + apply bind_done in Hrun as (? & ? & _ & Hrun).
      apply bind_done in Hrun as (? & ? & _ & Hrun).
      rewrite run_ret in Hrun. by injection Hrun as <- _.
    + rewrite run_ret in Hrun. by injection Hrun as <- _.
Qed.

Lemma insert_leaves_size_unchanged_witness :
  tree.insert 2 ZeroFilled (mk_bstree (Some 0%nat) 0) 3 heap_5_3_8 =
    Done (mk_bstree (Some 0%nat) 0, heap_5_3_8) ∧
  tree.size (mk_bstree (Some 0%nat) 0) = tree.size (mk_bstree (Some 0%nat) 0).
Proof.
  assert (tree.insert 2 ZeroFilled (mk_bstree (Some 0%nat) 0) 3 heap_5_3_8 =
    Done (mk_bstree (Some 0%nat) 0, heap_5_3_8)) as Hrun by (vm_compute; reflexivity).
  split; [exact Hrun|].
  exact (proj1 insert_leaves_size_unchanged 2%nat ZeroFilled _ 3 _ _ _ Hrun).
Defined.

(** C7. Copy-assigning the tree that holds 5 to an empty tree, on zero-filled
    storage: the destination is not empty afterwards, but its [begin()] is its
    [end()], so visiting it yields nothing, and its [front()] reads the
    header's own element, while the source's [front()] is 5.  On
    indeterminate storage the copy is undefined. *)
Theorem copy_assign_misses_caches :
  result (s ← tree.build 1 ZeroFilled [5]; d ← tree.create ZeroFilled;
          d' ← tree.copy_assign 1 ZeroFilled d s;
          b ← tree.begin d'; e ← tree.end_ d'; em ← tree.empty d';
          l ← visit 1 1 d'; fs ← tree.front s; fd ← tree.front d';
          ret (iterator.eq b e, em, l, fs, fd)) = Done (true, false, [], 5, 0) ∧
  result (s ← tree.build 1 Indeterminate [5]; d ← tree.create Indeterminate;
          tree.copy_assign 1 Indeterminate d s) = Undefined.
Proof. split; vm_compute; reflexivity. Qed.

(** * Further properties of the code *)

Local Close Scope Z_scope.

(** ** More on [insert] *)

Lemma binsert_present n x t : bst t → x ∈ elems t → binsert n x t = t.
Proof.
  induction t as [|l IHl a v r IHr]; simpl.
  - intros _ H. by apply elem_of_nil in H.
  - intros (Hl & Hr & Hbl & Hbr). rewrite elems_N.
    destruct (x =? v)%Z eqn:Heq; [done|]. apply Z.eqb_neq in Heq.
    intros Hin. destruct (x <? v)%Z eqn:Hlt.
    + apply Z.ltb_lt in Hlt. rewrite IHl; [done..|].
      apply elem_of_app in Hin as [Hin|Hin]; [done|].
      apply elem_of_cons in Hin as [->|Hin]; [done|].
      eapply Forall_forall in Hr; [|done]. simpl in Hr. lia.
    + apply Z.ltb_ge in Hlt. rewrite IHr; [done..|].
      apply elem_of_app in Hin as [Hin|Hin].
      * eapply Forall_forall in Hl; [|done]. simpl in Hl. lia.
      * apply elem_of_cons in Hin as [->|Hin]; done.
Qed.

Lemma binsert_absent n x t : x ∉ elems t → (n, x) ∈ nodes (binsert n x t).
Proof.
  induction t as [|l IHl a v r IHr]; simpl.
  - intros _. set_solver.
  - rewrite elems_N. intros Hnin.
    destruct (x =? v)%Z eqn:Heq.
    { apply Z.eqb_eq in Heq as ->. set_solver. }
    destruct (x <? v)%Z; simpl; set_solver.
Qed.

(** The search loop on a value the tree holds: it stops at the node holding
    it, whatever the absent links hold. *)
Lemma insert_loop_present nil h x t : ∀ fuel a f prev,
  shape nil h (Val (Some a)) f t → bst t → x ∈ elems t → bsize t ≤ fuel →
  tree.insert_loop fuel x (Some a) prev h = Done (None, h).
Proof.
  induction t as [|l IHl a' v r IHr]; intros fuel a f prev Hs Hb Hin Hfuel.
  { by apply elem_of_nil in Hin. }
  simpl in Hs. destruct Hs as ([= <-] & sl & sr & Ha & Hl & Hr).
  destruct Hb as (Hlt & Hgt & Hbl & Hbr). rewrite elems_N in Hin.
  simpl in Hfuel. destruct fuel as [|fuel]; [lia|]. simpl.
  rewrite run_bind, (run_get_data _ _ _ Ha). red_run. cbn [data].
  destruct (x =? v)%Z eqn:Heq; [done|]. apply Z.eqb_neq in Heq.
  rewrite run_bind. destruct (x <? v)%Z eqn:Hxv.
  - apply Z.ltb_lt in Hxv.
    assert (x ∈ elems l) as Hxl.
    { apply elem_of_app in Hin as [Hin|Hin]; [done|].
      apply elem_of_cons in Hin as [->|Hin]; [done|].
      eapply Forall_forall in Hgt; [|done]. simpl in Hgt. lia. }
    rewrite (run_get_left _ _ _ Ha). cbn [left].
    destruct l as [|ll la lv lr]; [by apply elem_of_nil in Hxl|].
    pose proof Hl as (-> & _). red_run. apply (IHl _ _ _ _ Hl Hbl Hxl). lia.
  - apply Z.ltb_ge in Hxv.
    assert (x ∈ elems r) as Hxr.
    { apply elem_of_app in Hin as [Hin|Hin].
      - eapply Forall_forall in Hlt; [|done]. simpl in Hlt. lia.
      - apply elem_of_cons in Hin as [->|Hin]; done. }
    rewrite (run_get_right _ _ _ Ha). cbn [right].
    destruct r as [|rl ra rv rr]; [by apply elem_of_nil in Hxr|].
    pose proof Hr as (-> & _). red_run. apply (IHr _ _ _ _ Hr Hbr Hxr). lia.
Qed.

Lemma run_insert_present nil st fuel h t shp x :
  childless nil → tree_at nil h t shp → bst shp → x ∈ elems shp → bsize shp ≤ fuel →
  tree.insert fuel st t x h = Done (t, h).
Proof.
  intros Hnil Ht Hb Hin Hfuel. unfold tree.insert.
  rewrite run_bind, (run_empty _ _ _ _ Hnil Ht).
  destruct Ht as (hdr & hn & Hhdr & Hhn & Hroot & Hout & Hnd).
  destruct shp as [|l a v r]; [by apply elem_of_nil in Hin|]. red_run.
  pose proof Hroot as (Hf & _). rewrite Hf in Hroot.
  rewrite Hhdr, run_bind, (run_get_father _ _ _ Hhn), Hf. red_run.
  by rewrite run_bind, (insert_loop_present _ _ _ _ _ _ _ _ Hroot Hb Hin Hfuel).
Qed.

(** When the search loop falls off the tree, the value is new to it. *)
Lemma insert_loop_absent nil h x t : ∀ fuel a f prev p h1 n,
  childless nil → shape nil h (Val (Some a)) f t →
  tree.insert_loop fuel x (Some a) prev h = Done (Some p, h1) →
  (n, x) ∈ nodes (binsert n x t).
Proof.
  induction t as [|l IHl a' v r IHr]; intros fuel a f prev p h1 n Hnil Hs Hrun.
  { simpl. set_solver. }
  simpl in Hs. destruct Hs as ([= <-] & sl & sr & Ha & Hl & Hr).
  destruct fuel as [|fuel]; [discriminate|]. simpl in Hrun.
  rewrite run_bind, (run_get_data _ _ _ Ha) in Hrun. red_run in Hrun. cbn [data] in Hrun.
  simpl. destruct (x =? v)%Z; [discriminate|].
  rewrite run_bind in Hrun. destruct (x <? v)%Z.
  - rewrite (run_get_left _ _ _ Ha) in Hrun. cbn [left] in Hrun.
    destruct sl as [|[c|]]; red_run in Hrun; [discriminate| |].
    + simpl. apply elem_of_app. left. by eapply IHl.
    + apply shape_null in Hl as ->; [|done]. simpl. set_solver.
  - rewrite (run_get_right _ _ _ Ha) in Hrun. cbn [right] in Hrun.
    destruct sr as [|[c|]]; red_run in Hrun; [discriminate| |].
    + simpl. apply elem_of_app. right. apply elem_of_cons. right. by eapply IHr.
    + apply shape_null in Hr as ->; [|done]. simpl. set_solver.
Qed.

(** [adjust] writes to the header only. *)
Lemma adjust_frame t h r hdr b :
  tree.adjust t h = Done r → _header_ptr t = Some hdr → b ≠ hdr → r.2 !! b = h !! b.
Proof.
  intros Hrun Hhdr Hb. unfold tree.adjust in Hrun. rewrite Hhdr in Hrun.
  apply bind_done in Hrun as (hl & h1 & H1 & Hrun).
  apply get_left_done in H1 as (? & ? & _ & _ & _ & E1). simpl in E1. subst h1.
  apply bind_done in Hrun as (hll & h1 & H1 & Hrun).
  apply get_left_done in H1 as (? & ? & _ & _ & _ & E1). simpl in E1. subst h1.
  apply bind_done in Hrun as ([] & h2 & Hstep & Hrun).
  assert (h2 !! b = h !! b) as E2.
  { destruct hll as [c|].
    - unfold set_left in Hstep.
      apply modify_done in Hstep as (? & ? & [= <-] & _ & [= ->]).
      by rewrite lookup_insert_ne.
    - rewrite run_ret in Hstep. by injection Hstep as <-. }
  apply bind_done in Hrun as (hr & h3 & H3 & Hrun).
  apply get_right_done in H3 as (? & ? & _ & _ & _ & E3). simpl in E3. subst h3.
  apply bind_done in Hrun as (hrr & h3 & H3 & Hrun).
  apply get_right_done in H3 as (? & ? & _ & _ & _ & E3). simpl in E3. subst h3.
  destruct hrr as [c|].
  - unfold set_right in Hrun.
    apply modify_done in Hrun as (? & ? & [= <-] & _ & ->). simpl.
    by rewrite lookup_insert_ne.
  - rewrite run_ret in Hrun. by injection Hrun as <-.
Qed.

(** [insert] leaves alone what is neither the header nor a node of the tree
    it yields. *)
Lemma insert_frame st fuel h t shp x t' h' hdr b :
  tree_at (raw_link st) h t shp →
  tree.insert fuel st t x h = Done (t', h') →
  _header_ptr t = Some hdr → b ≠ hdr →
  b ∉ addrs (binsert (fresh (dom h)) x shp) →
  h' !! b = h !! b.
Proof.
  intros Ht Hrun Hhdr Hb Hout'.
  pose proof Ht as (hdr' & hn & Hhdr' & Hhn & Hroot & Hout & Hnd).
  assert (hdr' = hdr) as -> by congruence. clear Hhdr'.
  destruct shp as [|l a v r].
  - erewrite run_insert_first in Hrun; [|done..]. injection Hrun as <- <-.
    rewrite !lookup_insert_ne; [done| |done].
    intros <-. apply Hout'. unfold addrs. simpl. set_solver.
  - unfold tree.insert in Hrun.
    rewrite run_bind, (run_empty _ _ _ _ (childless_raw st) Ht) in Hrun. red_run in Hrun.
    pose proof Hroot as (Hf & _). rewrite Hf in Hroot.
    rewrite Hhdr, run_bind, (run_get_father _ _ _ Hhn), Hf in Hrun. red_run in Hrun.
    apply bind_done in Hrun as (found & h1 & Hloop & Hrun).
    destruct (insert_loop_attach _ _ _ _ _ _ _ _ _ _ Hroot Hnd Hloop) as (-> & Hfound).
    destruct found as [p|].
    + apply bind_done in Hrun as ([] & h2 & Hatt & Hrun).
      apply bind_done in Hrun as ([] & h3 & Hadj & Hrun).
      rewrite run_ret in Hrun. injection Hrun as <- <-.
      destruct (Hfound _ Hatt) as (Hs2 & Hsame). cbn [snd] in Hs2, Hsame.
      pose proof (adjust_frame _ _ _ _ _ Hadj Hhdr Hb) as Hadj'. cbn [snd] in Hadj'.
      rewrite Hadj'. apply Hsame.
      * intros Hin. apply Hout'. by apply addrs_binsert_old.
      * intros ->. apply Hout'. eapply nodes_addr.
        eapply insert_loop_absent; [apply childless_raw|done..].
    + rewrite run_ret in Hrun. by injection Hrun as <- <-.
Qed.

Lemma insert_owned st fuel h0 h t shp x t' h' :
  tree_at (raw_link st) h t shp → owned h0 h t shp →
  tree.insert fuel st t x h = Done (t', h') →
  owned h0 h' t (binsert (fresh (dom h)) x shp).
Proof.
  intros Ht (hdr & Hhdr & Hh0 & Hfree & Hsame) Hrun.
  exists hdr. split; [done|]. split; [done|].
  pose proof Ht as (hdr' & hn & Hhdr' & Hhn & Hroot & Hout & Hnd).
  assert (hdr' = hdr) as -> by congruence.
  assert (fresh (dom h) ∉ addrs shp) as Hfresh.
  { intros Hin. destruct shp as [|l a v r]; [by apply elem_of_nil in Hin|].
    by eapply shape_fresh. }
  split.
  - intros b Hb. apply addrs_binsert in Hb as [->|Hb]; [|by apply Hfree].
    rewrite <-Hsame; [apply fresh_unused| |done].
    intros E'. pose proof (fresh_unused h) as Hn. rewrite E' in Hn. congruence.
  - intros b Hb Hb'. erewrite insert_frame; [|done..].
    apply Hsame; [done|]. intros Hin. apply Hb'. by apply addrs_binsert_old.
Qed.

Lemma inserts_owned st fuel vs : ∀ h0 h t shp t' h',
  tree_at (raw_link st) h t shp → caches_in h t shp → bst shp →
  caches_mirrored h t shp → owned h0 h t shp →
  tree.inserts fuel st t vs h = Done (t', h') →
  ∃ shp', t' = t ∧ tree_at (raw_link st) h' t shp' ∧ caches_in h' t shp' ∧ bst shp' ∧
          caches_mirrored h' t shp' ∧
          bsize shp' ≤ bsize shp + length vs ∧
          (∀ y, y ∈ elems shp' ↔ y ∈ elems shp ∨ y ∈ vs) ∧
          owned h0 h' t shp'.
Proof.
  induction vs as [|v vs IH]; intros h0 h t shp t' h' Ht Hc Hb Hm Ho Hrun; simpl in Hrun.
  - rewrite run_ret in Hrun. injection Hrun as <- <-. exists shp.
    split_and!; [done..|lia| |done]. intros y. rewrite elem_of_nil. tauto.
  - apply bind_done in Hrun as (t1 & h1 & Hins & Hrun).
    pose proof (insert_owned _ _ _ _ _ _ _ _ _ Ht Ho Hins) as Ho1.
    destruct (insert_spec _ _ _ _ _ _ _ _ Ht Hc Hins) as (-> & Ht1 & Hc1 & Hm1).
    destruct (IH _ _ _ _ _ _ Ht1 Hc1 (bst_binsert _ _ _ Hb) (Hm1 Hb Hm) Ho1 Hrun)
      as (shp' & -> & Ht' & Hc' & Hb' & Hm' & Hsz & Hel & Ho').
    exists shp'. split_and!; [done..| | |done].
    + pose proof (bsize_binsert (fresh (dom h)) v shp). simpl. lia.
    + intros y. rewrite Hel, elems_binsert_iff, elem_of_cons. tauto.
Qed.

(** All that is known of a tree built from nothing. *)
Lemma build_shape st fuel vs h0 t h :
  tree.build fuel st vs h0 = Done (t, h) →
  ∃ shp, tree_at (raw_link st) h t shp ∧ caches_in h t shp ∧ bst shp ∧
         caches_mirrored h t shp ∧ bsize shp ≤ length vs ∧
         (∀ y, y ∈ elems shp ↔ y ∈ vs) ∧ owned h0 h t shp.
Proof.
  intros Hrun. unfold tree.build in Hrun.
  apply bind_done in Hrun as (t0 & h1 & Hc & Hrun).
  destruct (create_tree_at st (raw_link st) _ _ _ Hc) as (Ht0 & Hc0).
  assert (owned h0 h1 t0 E) as Ho0.
  { rewrite run_create in Hc. injection Hc as <- <-. exists (fresh (dom h0)).
    split; [done|]. split; [apply fresh_unused|]. split.
    - intros b Hb. by apply elem_of_nil in Hb.
    - intros b Hb _. by rewrite lookup_insert_ne. }
  destruct (inserts_owned _ _ _ _ _ _ _ _ _ Ht0 Hc0 I (caches_mirrored_E _ _) Ho0 Hrun)
    as (shp & -> & Ht & Hc' & Hb & Hm & Hsz & Hel & Ho).
  exists shp. split_and!; [done..| |done].
  intros y. rewrite Hel. unfold elems at 1. simpl. rewrite elem_of_nil. tauto.
Qed.

(** A node of the shape is a real node of the tree, and conversely. *)
Lemma real_node_addrs nil h t shp b :
  childless nil → tree_at nil h t shp → real_node h t b ↔ b ∈ addrs shp.
Proof.
  intros Hnil Ht. split.
  - intros (r & Hr & Hin).
    destruct (tree_at_root _ _ _ _ _ Ht Hr) as (_ & hdr & Hs).
    destruct (in_subtree_nodes _ _ _ _ _ _ Hnil Hs Hin) as (v & Hv & _).
    by eapply nodes_addr.
  - intros Hb. unfold addrs in Hb. apply list_elem_of_fmap in Hb as ([b' v] & -> & Hin).
    destruct Ht as (hdr & hn & Hhdr & Hhn & Hroot & Hout & Hnd).
    destruct shp as [|l a x r]; [by apply elem_of_nil in Hin|].
    pose proof Hroot as (Hf & _). rewrite Hf in Hroot.
    destruct (nodes_in_subtree _ _ _ _ _ _ _ Hroot Hin) as (Hsub & _).
    exists (Some a). split; [|done]. exists hdr, hn. split_and!; [done..|].
    intros [= ->]. apply Hout. rewrite addrs_N. set_solver.
Qed.

Lemma tree_at_holds nil h t shp b w :
  tree_at nil h t shp → (b, w) ∈ nodes shp → holds h b w.
Proof.
  intros (hdr & hn & Hhdr & Hhn & Hroot & _) Hin.
  destruct shp as [|l a v r]; [by apply elem_of_nil in Hin|].
  destruct (shape_lookup _ _ _ _ _ _ _ Hroot Hin) as (n & Hn & Hd & _). by exists n.
Qed.

Lemma find_loop_present nil h x t : ∀ fuel a f,
  shape nil h (Val (Some a)) f t → bst t → x ∈ elems t → bsize t ≤ fuel →
  ∃ b, tree.find_loop fuel x (Some a) h = Done (Some b, h) ∧ (b, x) ∈ nodes t.
Proof.
  induction t as [|l IHl a' v r IHr]; intros fuel a f Hs Hb Hin Hfuel.
  { by apply elem_of_nil in Hin. }
  simpl in Hs. destruct Hs as ([= <-] & sl & sr & Ha & Hl & Hr).
  destruct Hb as (Hlt & Hgt & Hbl & Hbr). rewrite elems_N in Hin.
  simpl in Hfuel. destruct fuel as [|fuel]; [lia|]. simpl.
  rewrite run_bind, (run_get_data _ _ _ Ha). red_run. cbn [data].
  destruct (x =? v)%Z eqn:Heq.
  { apply Z.eqb_eq in Heq as ->. exists a. split; [done|]. set_solver. }
  apply Z.eqb_neq in Heq.
  rewrite run_bind. destruct (x <? v)%Z eqn:Hxv.
  - apply Z.ltb_lt in Hxv.
    assert (x ∈ elems l) as Hxl.
    { apply elem_of_app in Hin as [Hin|Hin]; [done|].
      apply elem_of_cons in Hin as [->|Hin]; [done|].
      eapply Forall_forall in Hgt; [|done]. simpl in Hgt. lia. }
    rewrite (run_get_left _ _ _ Ha). cbn [left].
    destruct l as [|ll la lv lr]; [by apply elem_of_nil in Hxl|].
    pose proof Hl as (-> & _). red_run.
    destruct (IHl fuel _ _ Hl Hbl Hxl ltac:(lia)) as (b & -> & Hb). exists b.
    split; [done|]. apply elem_of_app. by left.
  - apply Z.ltb_ge in Hxv.
    assert (x ∈ elems r) as Hxr.
    { apply elem_of_app in Hin as [Hin|Hin].
      - eapply Forall_forall in Hlt; [|done]. simpl in Hlt. lia.
      - apply elem_of_cons in Hin as [->|Hin]; done. }
    rewrite (run_get_right _ _ _ Ha). cbn [right].
    destruct r as [|rl ra rv rr]; [by apply elem_of_nil in Hxr|].
    pose proof Hr as (-> & _). red_run.
    destruct (IHr fuel _ _ Hr Hbr Hxr ltac:(lia)) as (b & -> & Hb). exists b.
    split; [done|]. apply elem_of_app. right. by apply elem_of_cons; right.
Qed.

(** X5. Inserting a value the tree already holds changes nothing: the call
    returns with the heap it started in, on either kind of storage. *)
Theorem insert_present_changes_nothing (st : storage) (fuel k : nat) (vs : list Z)
    (h0 h : gmap addr bst_node) (t : bstree) (v : Z) :
  tree.build fuel st vs h0 = Done (t, h) → v ∈ vs → length vs ≤ k →
  tree.insert k st t v h = Done (t, h).
Proof.
  intros Hrun Hv Hk.
  destruct (build_shape _ _ _ _ _ _ Hrun) as (shp & Ht & _ & Hb & _ & Hsz & Hel & _).
  eapply run_insert_present; [apply childless_raw|done..| |lia]. by apply Hel.
Qed.

(** X6. Inserting a value the tree does not hold, on zero-filled storage:
    the call completes, one node at a free address now holds the value and is
    a node of the tree, the old nodes are still nodes of the tree with the
    elements they had, and whatever is neither the new node, the header nor a
    node of the tree is untouched. *)
Theorem insert_new_value_adds_one_node (fuel k : nat) (vs : list Z)
    (h0 h : gmap addr bst_node) (t : bstree) (v : Z) :
  tree.build fuel ZeroFilled vs h0 = Done (t, h) → v ∉ vs → length vs ≤ k →
  ∃ n h', tree.insert k ZeroFilled t v h = Done (t, h') ∧
    h !! n = None ∧ real_node h' t n ∧ holds h' n v ∧
    (∀ b w, real_node h t b → holds h b w → real_node h' t b ∧ holds h' b w) ∧
    (∀ b, b ≠ n → Some b ≠ _header_ptr t → ¬ real_node h t b → h' !! b = h !! b).
Proof.
  intros Hrun Hv Hk.
  destruct (build_shape _ _ _ _ _ _ Hrun) as (shp & Ht & Hc & Hb & _ & Hsz & Hel & _).
  assert (childless (Val nullptr)) as Hnil by (by right).
  destruct (insert_total k _ _ _ v Ht Hc ltac:(lia)) as (h' & Hins).
  destruct (insert_spec _ _ _ _ _ _ _ _ Ht Hc Hins) as (_ & Ht' & _).
  set (n := fresh (dom h)) in *.
  assert ((n, v) ∈ nodes (binsert n v shp)) as Hn.
  { apply binsert_absent. by rewrite Hel. }
  exists n, h'. split; [done|]. split; [apply fresh_unused|]. split_and!.
  - apply (real_node_addrs _ _ _ _ _ Hnil Ht'). by eapply nodes_addr.
  - by eapply tree_at_holds.
  - intros b w (r & Hr & Hin) Hw.
    destruct (tree_at_root _ _ _ _ _ Ht Hr) as (_ & hdr & Hs).
    destruct (in_subtree_nodes _ _ _ _ _ _ Hnil Hs Hin) as (w' & Hw' & Hh).
    rewrite <-(holds_fun _ _ _ _ Hw Hh) in Hw'.
    apply (nodes_binsert_old n v) in Hw'. split.
    + apply (real_node_addrs _ _ _ _ _ Hnil Ht'). by eapply nodes_addr.
    + by eapply tree_at_holds.
  - intros b Hbn Hbh Hbr. pose proof Ht as (hdr & hn & Hhdr & _).
    eapply insert_frame; [done..| |].
    + intros ->. by rewrite Hhdr in Hbh.
    + intros Hin. apply addrs_binsert in Hin as [->|Hin]; [done|].
      apply Hbr. by apply (real_node_addrs _ _ _ _ _ Hnil Ht).
Qed.

(** X7. Looking up after inserting.  A value that was inserted is found, at
    a node of the tree holding it, on either kind of storage; on zero-filled
    storage a value that was not inserted into a non-empty tree yields
    [end()].  The heap is the same afterwards. *)
Theorem find_after_inserts (st : storage) (fuel k : nat) (vs : list Z)
    (h0 h : gmap addr bst_node) (t : bstree) (v : Z) :
  tree.build fuel st vs h0 = Done (t, h) → length vs ≤ k →
  (v ∈ vs → ∃ b, tree.find k t v h = Done (mk_iterator (Some b), h) ∧
                 real_node h t b ∧ holds h b v) ∧
  (st = ZeroFilled → vs ≠ [] → v ∉ vs →
     tree.find k t v h = Done (mk_iterator (_header_ptr t), h) ∧
     tree.end_ t h = Done (mk_iterator (_header_ptr t), h)).
Proof.
  intros Hrun Hk.
  destruct (build_shape _ _ _ _ _ _ Hrun) as (shp & Ht & _ & Hb & _ & Hsz & Hel & _).
  pose proof Ht as (hdr & hn & Hhdr & Hhn & Hroot & Hout & Hnd).
  split.
  - intros Hv. apply Hel in Hv.
    destruct shp as [|l a x r]; [by apply elem_of_nil in Hv|].
    pose proof Hroot as (Hf & _). rewrite Hf in Hroot.
    destruct (find_loop_present _ _ v _ k _ _ Hroot Hb Hv ltac:(lia)) as (b & Hfind & Hin).
    exists b. split_and!.
    + unfold tree.find, tree._root.
      rewrite Hhdr, run_bind, (run_get_father _ _ _ Hhn), Hf. red_run.
      by rewrite run_bind, Hfind.
    + apply (real_node_addrs _ _ _ _ _ (childless_raw st) Ht). by eapply nodes_addr.
    + by eapply tree_at_holds.
  - intros -> Hne Hv. split; [|done].
    assert (shp ≠ E) as HE.
    { intros ->. destruct vs as [|w vs]; [done|].
      assert (w ∈ elems E) as Hw by (apply Hel; set_solver). by apply elem_of_nil in Hw. }
    destruct shp as [|l a x r]; [done|].
    pose proof Hroot as (Hf & _). rewrite Hf in Hroot.
    unfold tree.find, tree._root.
    rewrite Hhdr, run_bind, (run_get_father _ _ _ Hhn), Hf. red_run.
    rewrite run_bind, (find_loop_spec _ _ _ k _ _ Hroot ltac:(lia)). red_run.
    destruct (bfind v (N l a x r)) as [b|] eqn:Hfind;
      [|unfold tree.end_; by rewrite Hhdr].
    apply bfind_Some, nodes_elem in Hfind. apply Hel in Hfind. done.
Qed.

(** ** Construction, [clear] and destruction *)

(** X8. A freshly constructed tree, on either kind of storage and in any
    heap: [size()] is 0, [empty()] is true, [begin()] is [end()], so the
    visiting loop yields nothing, and no node that existed is touched.
    [front()] reads the header's own element: undefined on indeterminate
    storage, the zero of zero-filled storage otherwise. *)
Theorem fresh_tree_is_empty (st : storage) (h0 : gmap addr bst_node) :
  ∃ t h, tree.create st h0 = Done (t, h) ∧
    tree.size t = 0%N ∧
    tree.empty t h = Done (true, h) ∧
    tree.begin t h = Done (mk_iterator (_header_ptr t), h) ∧
    tree.end_ t h = Done (mk_iterator (_header_ptr t), h) ∧
    (∀ fuel steps, visit fuel steps t h = Done ([], h)) ∧
    (∀ b, is_Some (h0 !! b) → h !! b = h0 !! b) ∧
    tree.front t h =
      match st with Indeterminate => Undefined | ZeroFilled => Done (0%Z, h) end.
Proof.
  do 2 eexists. split; [apply run_create|]. set (a := fresh (dom h0)).
  set (h := <[a := _]> h0).
  assert (h !! a = Some (mk_node (raw_data st) (Val (Some a)) (Val (Some a)) (Val (Some a))))
    as Ha by apply lookup_insert_eq.
  assert (tree.begin (mk_bstree (Some a) 0) h = Done (mk_iterator (Some a), h)) as Hbegin.
  { unfold tree.begin, tree._left_most. cbn [_header_ptr].
    by rewrite run_bind, (run_get_right _ _ _ Ha). }
  split_and!; try done.
  - unfold tree.empty, tree._root. cbn [_header_ptr].
    rewrite run_bind, (run_get_father _ _ _ Ha). cbn [father]. red_run.
    by rewrite run_ret, bool_decide_eq_true_2.
  - intros fuel steps. unfold visit. rewrite run_bind, Hbegin. red_run.
    rewrite run_bind. unfold tree.end_ at 1. rewrite run_ret. red_run.
    cbn [_header_ptr]. destruct steps; simpl; unfold iterator.eq;
      by rewrite bool_decide_eq_true_2.
  - intros b [n Hn]. unfold h. rewrite lookup_insert_ne; [done|].
    intros <-. pose proof (fresh_unused h0) as Hf. fold a in Hf. congruence.
  - unfold tree.front, tree._left_most. cbn [_header_ptr].
    rewrite run_bind, (run_get_right _ _ _ Ha). cbn [right]. red_run.
    rewrite (run_get_data _ _ _ Ha). by destruct st.
Qed.

Lemma run_clear fuel h t shp :
  tree_at (Val nullptr) h t shp → bsize shp ≤ fuel →
  ∃ hdr hn h', _header_ptr t = Some hdr ∧ h !! hdr = Some hn ∧
    tree.clear fuel t h = Done (t, h') ∧
    h' !! hdr = Some (mk_node (data hn) (Val (Some hdr)) (left hn) (right hn)) ∧
    ∀ b, b ≠ hdr → h' !! b = if decide (b ∈ addrs shp) then None else h !! b.
Proof.
  intros Ht Hfuel.
  assert (childless (Val nullptr)) as Hnil by (by right).
  unfold tree.clear. rewrite run_bind, (run_empty _ _ _ _ Hnil Ht).
  pose proof Ht as (hdr & hn & Hhdr & Hhn & Hroot & Hout & Hnd).
  exists hdr, hn. destruct shp as [|l a v r]; red_run.
  - exists h. rewrite run_ret. split_and!; [done..| |].
    + rewrite Hhn, <-Hroot. by rewrite node_eta.
    + intros b _. rewrite decide_False; [done|]. apply not_elem_of_nil.
  - pose proof Hroot as (Hf & _). rewrite Hf in Hroot.
    unfold tree._root at 1. rewrite Hhdr, run_bind, (run_get_father _ _ _ Hhn), Hf. red_run.
    destruct (bst_node_delete_spec _ fuel _ _ _ Hroot Hnd Hfuel) as (h1 & Hdel & Hh1).
    rewrite run_bind, Hdel. red_run.
    assert (h1 !! hdr = Some hn) as Hhn1 by (rewrite Hh1, decide_False; done).
    unfold set_father. rewrite run_bind, (run_modify _ _ _ _ Hhn1). red_run.
    rewrite run_ret. eexists. split_and!; [done..|apply lookup_insert_eq|].
    intros b Hb. by rewrite lookup_insert_ne.
Qed.

Lemma run_destroy fuel h t shp :
  tree_at (Val nullptr) h t shp → bsize shp < fuel →
  ∃ hdr h', _header_ptr t = Some hdr ∧
    tree.destroy fuel t h = Done (tt, h') ∧
    ∀ b, h' !! b = if decide (b = hdr ∨ b ∈ addrs shp) then None else h !! b.
Proof.
  intros Ht Hfuel.
  destruct (run_clear fuel _ _ _ Ht ltac:(lia)) as (hdr & hn & h1 & Hhdr & Hhn & Hclear & Hh1 & Hrest).
  exists hdr. unfold tree.destroy. rewrite run_bind, Hclear. red_run. rewrite Hhdr.
  unfold set_right, set_left.
  rewrite run_bind, (run_modify _ _ _ _ Hh1). red_run.
  rewrite run_bind. erewrite run_modify; [|apply lookup_insert_eq]. red_run.
  rewrite insert_insert_eq. cbn [data father left right].
  destruct fuel as [|fuel]; [lia|]. cbn [bst_node_delete].
  rewrite run_bind. erewrite run_get_left; [|apply lookup_insert_eq]. cbn [left]. red_run.
  rewrite run_bind, bst_node_delete_null. red_run.
  rewrite run_bind. erewrite run_get_right; [|apply lookup_insert_eq]. cbn [right]. red_run.
  rewrite run_bind, bst_node_delete_null. red_run.
  unfold operator_delete. rewrite lookup_insert_eq. eexists. split; [done|]. split; [done|].
  intros b. destruct (decide (b = hdr)) as [->|Hne].
  - rewrite lookup_delete_eq, decide_True; [done|by left].
  - rewrite lookup_delete_ne, lookup_insert_ne, Hrest by done.
    destruct (decide (b ∈ addrs shp)).
    + rewrite decide_True; [done|by right].
    + rewrite decide_False; [done|]. intros [?|?]; done.
Qed.

(** X9. The destructor, on a tree whose absent links are null (empty or
    not): it completes once the fuel exceeds the number of nodes, every node
    of the tree and the header are deallocated, and nothing else in the heap
    is touched. *)
Theorem destroy_frees_tree_and_header (fuel : nat) (h : gmap addr bst_node)
    (t : bstree) (shp : btree) :
  tree_at (Val nullptr) h t shp → bsize shp < fuel →
  ∃ hdr h', _header_ptr t = Some hdr ∧
    tree.destroy fuel t h = Done (tt, h') ∧
    h' !! hdr = None ∧
    (∀ b, real_node h t b → h' !! b = None) ∧
    (∀ b, b ≠ hdr → ¬ real_node h t b → h' !! b = h !! b).
Proof.
  intros Ht Hfuel.
  assert (childless (Val nullptr)) as Hnil by (by right).
  destruct (run_destroy _ _ _ _ Ht Hfuel) as (hdr & h' & Hhdr & Hrun & Hh').
  exists hdr, h'. split_and!; [done..| | |].
  - rewrite Hh', decide_True; [done|by left].
  - intros b Hb. apply (real_node_addrs _ _ _ _ _ Hnil Ht) in Hb.
    rewrite Hh', decide_True; [done|by right].
  - intros b Hb Hnr. rewrite Hh', decide_False; [done|].
    intros [?|Hin]; [done|]. by apply Hnr, (real_node_addrs _ _ _ _ _ Hnil Ht).
Qed.

(** X10. A whole lifetime leaves the heap as it found it: constructing a tree,
    inserting any values and destroying it, on zero-filled storage, ends in
    exactly the heap it started in; so does constructing and destroying at
    once on either kind of storage. *)
Theorem lifetime_restores_heap (fuel k : nat) (vs : list Z) (h0 : gmap addr bst_node) :
  length vs ≤ fuel → length vs < k →
  (t ← tree.build fuel ZeroFilled vs; tree.destroy k t) h0 = Done (tt, h0) ∧
  ∀ st, (t ← tree.create st; tree.destroy k t) h0 = Done (tt, h0).
Proof.
  intros Hfuel Hk. split.
  - destruct (build_total fuel vs h0 Hfuel) as (t & h & Hrun).
    rewrite run_bind, Hrun. red_run.
    destruct (build_shape _ _ _ _ _ _ Hrun)
      as (shp & Ht & _ & _ & _ & Hsz & _ & (hdr & Hhdr & Hh0 & Hfree & Hsame)).
    destruct (run_destroy k _ _ _ Ht ltac:(lia)) as (hdr' & h' & Hhdr' & -> & Hh').
    assert (hdr' = hdr) as -> by congruence.
    f_equal. f_equal. apply map_eq. intros b. rewrite Hh'.
    destruct (decide (b = hdr ∨ b ∈ addrs shp)) as [[->|Hin]|Hout].
    + done.
    + symmetry. by apply Hfree.
    + apply Hsame; intros ?; apply Hout; [by left|by right].
  - intros st. rewrite run_bind, run_create. red_run.
    set (a := fresh (dom h0)).
    assert (tree_at (Val nullptr)
              (<[a := mk_node (raw_data st) (Val (Some a)) (Val (Some a)) (Val (Some a))]> h0)
              (mk_bstree (Some a) 0) E) as Ht.
    { do 2 eexists. rewrite lookup_insert_eq. split_and!; [done..| |apply NoDup_nil_2].
      apply not_elem_of_nil. }
    destruct (run_destroy k _ _ _ Ht ltac:(simpl; lia)) as (hdr' & h' & [= <-] & -> & Hh').
    f_equal. f_equal. apply map_eq. intros b. rewrite Hh'.
    destruct (decide (b = a ∨ b ∈ addrs E)) as [[->|Hin]|Hout].
    + symmetry. apply fresh_unused.
    + by apply elem_of_nil in Hin.
    + rewrite lookup_insert_ne; [done|]. intros <-. apply Hout. by left.
Qed.

(** X11. [clear] leaves an empty tree's heap as it is, and a cleared tree can
    be filled again: after [clear] on a tree whose absent links are null, an
    [insert] on either kind of storage completes and yields a tree whose root
    is one new node holding the value, the only real node, with [front()] and
    [back()] answering that value and [empty()] false. *)
Theorem clear_then_insert (fuel : nat) (h : gmap addr bst_node) (t : bstree)
    (shp : btree) :
  tree_at (Val nullptr) h t shp → bsize shp ≤ fuel →
  ∃ h1, tree.clear fuel t h = Done (t, h1) ∧ (shp = E → h1 = h) ∧
    ∀ st k x, ∃ n h2,
      tree.insert k st t x h1 = Done (t, h2) ∧
      h1 !! n = None ∧ holds h2 n x ∧
      tree._root t h2 = Done (Some n, h2) ∧
      (∀ b, real_node h2 t b → b = n) ∧
      tree.front t h2 = Done (x, h2) ∧ tree.back t h2 = Done (x, h2) ∧
      tree.empty t h2 = Done (false, h2).
Proof.
  intros Ht Hfuel.
  destruct (run_clear fuel _ _ _ Ht Hfuel) as (hdr & hn & h1 & Hhdr & Hhn & Hclear & Hh1 & Hrest).
  exists h1. split; [done|]. split.
  { intros ->. destruct Ht as (hdr' & hn' & Hhdr' & Hhn' & Hroot & _).
    assert (hdr' = hdr) as -> by congruence. assert (hn' = hn) as -> by congruence.
    apply map_eq. intros b. destruct (decide (b = hdr)) as [->|Hne].
    - rewrite Hh1, Hhn, <-Hroot. by rewrite node_eta.
    - rewrite Hrest, decide_False; [done| |done]. apply not_elem_of_nil. }
  intros st k x. set (n := fresh (dom h1)).
  pose proof (fresh_ne _ _ _ Hh1) as Hne. fold n in Hne.
  exists n. eexists. split; [by eapply run_insert_first|]. cbn [data]. fold n.
  set (h2 := <[hdr := _]> (<[n := _]> h1)).
  assert (h2 !! hdr = Some (mk_node (data hn) (Val (Some n)) (Val (Some n)) (Val (Some n))))
    as Hhdr2 by apply lookup_insert_eq.
  assert (h2 !! n = Some (mk_node (Val x) (Val (Some hdr)) (raw_link st) (raw_link st)))
    as Hn2.
  { unfold h2. rewrite lookup_insert_ne by done. apply lookup_insert_eq. }
  split; [apply fresh_unused|]. split; [by eexists|]. split_and!.
  - unfold tree._root. by rewrite Hhdr, (run_get_father _ _ _ Hhdr2).
  - intros b (r & (hdr' & hn' & Hhdr' & Hhn' & Hf & _) & Hin).
    assert (hdr' = hdr) as -> by congruence.
    rewrite Hhdr2 in Hhn'. injection Hhn' as <-. simpl in Hf. injection Hf as <-.
    inversion Hin as [a m Hm|a m c b' Hm Hc Hsub|a m c b' Hm Hc Hsub]; subst; [done|..];
      rewrite Hn2 in Hm; injection Hm as <-; simpl in Hc;
      destruct st; simpl in Hc; try discriminate; injection Hc as <-; inversion Hsub.
  - unfold tree.front, tree._left_most.
    rewrite Hhdr, run_bind, (run_get_right _ _ _ Hhdr2). cbn [right]. red_run.
    by rewrite (run_get_data _ _ _ Hn2).
  - unfold tree.back, tree._right_most.
    rewrite Hhdr, run_bind, (run_get_left _ _ _ Hhdr2). cbn [left]. red_run.
    by rewrite (run_get_data _ _ _ Hn2).
  - unfold tree.empty, tree._root.
    rewrite Hhdr, run_bind, (run_get_father _ _ _ Hhdr2). cbn [father]. red_run.
    rewrite run_ret, bool_decide_eq_false_2; [done|]. congruence.
Qed.

(** ** The iterator on well-formed trees *)

Lemma descend_left_eq fuel p :
  iterator.descend_left fuel p =
  (l ← get_left p;
   match l with
   | None => ret p
   | Some _ => match fuel with O => timeout | S fuel' => iterator.descend_left fuel' l end
   end).
Proof. by destruct fuel. Qed.

Lemma descend_right_eq fuel p :
  iterator.descend_right fuel p =
  (r ← get_right p;
   match r with
   | None => ret p
   | Some _ => match fuel with O => timeout | S fuel' => iterator.descend_right fuel' r end
   end).
Proof. by destruct fuel. Qed.

Lemma ascend_right_eq fuel prev p :
  iterator.ascend_right fuel prev p =
  (r ← get_right p;
   if bool_decide (prev = r) then
     match fuel with
     | O => timeout
     | S fuel' => f ← get_father p; iterator.ascend_right fuel' p f
     end
   else ret p).
Proof. by destruct fuel. Qed.

Lemma ascend_left_eq fuel prev p :
  iterator.ascend_left fuel prev p =
  (l ← get_left p;
   if bool_decide (prev = l) then
     match fuel with
     | O => timeout
     | S fuel' => f ← get_father p; iterator.ascend_left fuel' p f
     end
   else ret p).
Proof. by destruct fuel. Qed.

Section walks.
Context (h : gmap addr bst_node).
Implicit Types (t l r : btree).

Lemma descend_left_spec t : ∀ fuel a f m,
  shape (Val nullptr) h (Val (Some a)) f t → leftmost t = Some m → bsize t ≤ fuel →
  iterator.descend_left fuel (Some a) h = Done (Some m.1, h).
Proof.
  induction t as [|l IHl a' v r _]; intros fuel a f m Hs Hm Hfuel; [done|].
  simpl in Hs. destruct Hs as ([= <-] & sl & sr & Ha & Hl & Hr).
  rewrite descend_left_eq, run_bind, (run_get_left _ _ _ Ha). cbn [left].
  simpl in Hm, Hfuel. destruct l as [|ll la lv lr].
  - simpl in Hl. subst sl. injection Hm as <-. done.
  - pose proof Hl as (-> & _). red_run. destruct fuel as [|fuel]; [lia|].
    destruct (leftmost (N ll la lv lr)) as [m'|] eqn:Hm'; [|by apply leftmost_E in Hm'].
    injection Hm as ->. apply (IHl _ _ _ _ Hl eq_refl). simpl in *. lia.
Qed.

Lemma descend_right_spec t : ∀ fuel a f m,
  shape (Val nullptr) h (Val (Some a)) f t → rightmost t = Some m → bsize t ≤ fuel →
  iterator.descend_right fuel (Some a) h = Done (Some m.1, h).
Proof.
  induction t as [|l _ a' v r IHr]; intros fuel a f m Hs Hm Hfuel; [done|].
  simpl in Hs. destruct Hs as ([= <-] & sl & sr & Ha & Hl & Hr).
  rewrite descend_right_eq, run_bind, (run_get_right _ _ _ Ha). cbn [right].
  simpl in Hm, Hfuel. destruct r as [|rl ra rv rr].
  - simpl in Hr. subst sr. injection Hm as <-. done.
  - pose proof Hr as (-> & _). red_run. destruct fuel as [|fuel]; [lia|].
    destruct (rightmost (N rl ra rv rr)) as [m'|] eqn:Hm'; [|by apply rightmost_E in Hm'].
    injection Hm as ->. apply (IHr _ _ _ _ Hr eq_refl). simpl in *. lia.
Qed.

(** Climbing from the last node of a subtree arrives at the father of the
    subtree's root, coming from the root. *)
Lemma ascend_right_spine t : ∀ fuel a f m,
  shape (Val nullptr) h (Val (Some a)) f t → rightmost t = Some m → bsize t ≤ fuel →
  ∃ nm fm k, h !! m.1 = Some nm ∧ right nm = Val nullptr ∧ father nm = Val fm ∧
    fuel < k + bsize t ∧
    iterator.ascend_right fuel (Some m.1) fm h = iterator.ascend_right k (Some a) f h.
Proof.
  induction t as [|l _ a' v r IHr]; intros fuel a f m Hs Hm Hfuel; [done|].
  simpl in Hs. destruct Hs as ([= <-] & sl & sr & Ha & Hl & Hr).
  simpl in Hm, Hfuel. destruct r as [|rl ra rv rr].
  - simpl in Hr. subst sr. injection Hm as <-. simpl.
    eexists _, f, fuel. split_and!; [done..|lia|done].
  - pose proof Hr as (-> & _).
    destruct (rightmost (N rl ra rv rr)) as [m'|] eqn:Hm'; [|by apply rightmost_E in Hm'].
    injection Hm as ->.
    destruct (IHr fuel _ _ _ Hr eq_refl ltac:(simpl in *; lia))
      as (nm & fm & k & Hnm & Hnr & Hnf & Hk & Heq).
    destruct k as [|k]; [simpl in *; lia|].
    exists nm, fm, k. split_and!; [done..|simpl in *; lia|].
    rewrite Heq, ascend_right_eq, run_bind, (run_get_right _ _ _ Ha). cbn [right]. red_run.
    rewrite bool_decide_eq_true_2 by done.
    by rewrite run_bind, (run_get_father _ _ _ Ha).
Qed.

Lemma ascend_left_spine t : ∀ fuel a f m,
  shape (Val nullptr) h (Val (Some a)) f t → leftmost t = Some m → bsize t ≤ fuel →
  ∃ nm fm k, h !! m.1 = Some nm ∧ left nm = Val nullptr ∧ father nm = Val fm ∧
    fuel < k + bsize t ∧
    iterator.ascend_left fuel (Some m.1) fm h = iterator.ascend_left k (Some a) f h.
Proof.
  induction t as [|l IHl a' v r _]; intros fuel a f m Hs Hm Hfuel; [done|].
  simpl in Hs. destruct Hs as ([= <-] & sl & sr & Ha & Hl & Hr).
  simpl in Hm, Hfuel. destruct l as [|ll la lv lr].
  - simpl in Hl. subst sl. injection Hm as <-. simpl.
    eexists _, f, fuel. split_and!; [done..|lia|done].
  - pose proof Hl as (-> & _).
    destruct (leftmost (N ll la lv lr)) as [m'|] eqn:Hm'; [|by apply leftmost_E in Hm'].
    injection Hm as ->.
    destruct (IHl fuel _ _ _ Hl eq_refl ltac:(simpl in *; lia))
      as (nm & fm & k & Hnm & Hnr & Hnf & Hk & Heq).
    destruct k as [|k]; [simpl in *; lia|].
    exists nm, fm, k. split_and!; [done..|simpl in *; lia|].
    rewrite Heq, ascend_left_eq, run_bind, (run_get_left _ _ _ Ha). cbn [left]. red_run.
    rewrite bool_decide_eq_true_2 by done.
    by rewrite run_bind, (run_get_father _ _ _ Ha).
Qed.

End walks.

Lemma increment_next h t m m' :
  next t m m' → ∀ a f fuel,
  shape (Val nullptr) h (Val (Some a)) f t → NoDup (addrs t) → bsize t ≤ fuel →
  iterator.increment fuel (mk_iterator (Some m.1)) h = Done (mk_iterator (Some m'.1), h).
Proof.
  induction 1 as [l a' v r m m' Hn IH|l a' v r m m' Hn IH|l a' v r m Hm|l a' v r m Hm];
    intros a f fuel Hs Hnd Hfuel;
    simpl in Hs; destruct Hs as ([= <-] & sl & sr & Ha & Hl & Hr);
    rewrite addrs_N in Hnd; apply NoDup_app in Hnd as (Hndl & Hlr & Hndr);
    apply NoDup_cons in Hndr as (Har & Hndr); simpl in Hfuel.
  - destruct l as [|ll la lv lr]; [inversion Hn|]. pose proof Hl as (-> & _).
    apply (IH _ _ _ Hl Hndl). lia.
  - destruct r as [|rl ra rv rr]; [inversion Hn|]. pose proof Hr as (-> & _).
    apply (IH _ _ _ Hr Hndr). lia.
  - destruct l as [|ll la lv lr]; [done|]. pose proof Hl as (-> & _).
    destruct (ascend_right_spine h _ fuel _ _ _ Hl Hm ltac:(lia))
      as (nm & fm & k & Hnm & Hnr & Hnf & _ & Heq).
    unfold iterator.increment. cbn [_ptr].
    rewrite run_bind, (run_get_right _ _ _ Hnm), Hnr. red_run.
    rewrite run_bind, (run_get_father _ _ _ Hnm), Hnf. red_run.
    rewrite run_bind, Heq, ascend_right_eq, run_bind, (run_get_right _ _ _ Ha). cbn [right].
    assert (∃ q, sr = Val q ∧ Some la ≠ q) as (q & -> & Hq).
    { destruct r as [|rl ra rv rr]; simpl in Hr.
      - subst sr. by exists None.
      - destruct Hr as (-> & _). exists (Some ra). split; [done|]. intros [= ->].
        apply (Hlr ra); rewrite ?addrs_N; set_solver. }
    red_run. by rewrite bool_decide_eq_false_2.
  - destruct r as [|rl ra rv rr]; [done|]. pose proof Hr as (-> & _).
    unfold iterator.increment. cbn [_ptr fst].
    rewrite run_bind, (run_get_right _ _ _ Ha). cbn [right]. red_run.
    by rewrite run_bind, (descend_left_spec h _ fuel _ _ _ Hr Hm) by lia.
Qed.

Section next_facts.
Implicit Types (t l r : btree).
Local Open Scope Z_scope.

Lemma next_in t m m' : next t m m' → m ∈ nodes t ∧ m' ∈ nodes t.
Proof.
  induction 1 as [l a v r m m' Hn IH|l a v r m m' Hn IH|l a v r m Hm|l a v r m Hm]; simpl.
  - set_solver.
  - set_solver.
  - apply rightmost_in in Hm. set_solver.
  - apply leftmost_in in Hm. set_solver.
Qed.

(** The node that comes next holds the least of the greater elements. *)
Lemma next_least t m m' :
  bst t → next t m m' →
  m.2 < m'.2 ∧ ∀ u, u ∈ elems t → m.2 < u → m'.2 ≤ u.
Proof.
  intros Hb Hn. revert Hb.
  induction Hn as [l a v r m m' Hn IH|l a v r m m' Hn IH|l a v r m Hm|l a v r m Hm];
    intros (Hlt & Hgt & Hbl & Hbr); rewrite elems_N.
  - destruct (IH Hbl) as (Hmm & Hleast). split; [done|].
    apply next_in in Hn as (_ & Hm'). apply (list_elem_of_fmap_2 snd) in Hm'.
    eapply Forall_forall in Hlt; [|exact Hm']. simpl in Hlt.
    intros u Hu Hmu. apply elem_of_app in Hu as [Hu|Hu]; [by apply Hleast|].
    apply elem_of_cons in Hu as [->|Hu]; [lia|].
    eapply Forall_forall in Hgt; [|done]. simpl in Hgt. lia.
  - destruct (IH Hbr) as (Hmm & Hleast). split; [done|].
    apply next_in in Hn as (Hm & _). apply (list_elem_of_fmap_2 snd) in Hm.
    eapply Forall_forall in Hgt; [|exact Hm]. simpl in Hgt.
    intros u Hu Hmu. apply elem_of_app in Hu as [Hu|Hu].
    + eapply Forall_forall in Hlt; [|done]. simpl in Hlt. lia.
    + apply elem_of_cons in Hu as [->|Hu]; [lia|]. by apply Hleast.
  - pose proof (rightmost_in _ _ Hm) as Hin. apply (list_elem_of_fmap_2 snd) in Hin.
    pose proof Hlt as Hlt'. eapply Forall_forall in Hlt'; [|exact Hin]. simpl in *.
    split; [done|]. intros u Hu Hmu.
    apply elem_of_app in Hu as [Hu|Hu].
    + destruct m as [m w]. pose proof (bst_rightmost_max _ _ _ Hbl Hm u Hu). simpl in *. lia.
    + apply elem_of_cons in Hu as [->|Hu]; [lia|].
      eapply Forall_forall in Hgt; [|done]. simpl in Hgt. lia.
  - pose proof (leftmost_in _ _ Hm) as Hin. apply (list_elem_of_fmap_2 snd) in Hin.
    pose proof Hgt as Hgt'. eapply Forall_forall in Hgt'; [|exact Hin]. simpl in *.
    split; [done|]. intros u Hu Hmu.
    apply elem_of_app in Hu as [Hu|Hu].
    + eapply Forall_forall in Hlt; [|done]. simpl in Hlt. lia.
    + apply elem_of_cons in Hu as [->|Hu]; [lia|].
      destruct m as [m w]. pose proof (bst_leftmost_min _ _ _ Hbr Hm u Hu). simpl in *. lia.
Qed.

(** Every node but the one holding the greatest element has a next node. *)
Lemma next_exists t m :
  bst t → m ∈ nodes t → (∃ u, u ∈ elems t ∧ m.2 < u) → ∃ m', next t m m'.
Proof.
  induction t as [|l IHl a v r IHr]; simpl; [by intros _ H%elem_of_nil|].
  intros (Hlt & Hgt & Hbl & Hbr) Hin (u & Hu & Hmu). rewrite elems_N in Hu.
  apply elem_of_app in Hin as [Hin|Hin]; [|apply elem_of_cons in Hin as [->|Hin]].
  - pose proof (list_elem_of_fmap_2 snd _ _ Hin) as Hmv.
    pose proof Hlt as Hlt'. eapply Forall_forall in Hlt'; [|exact Hmv]. simpl in Hlt'.
    destruct (rightmost l) as [[b w]|] eqn:Hrm;
      [|apply rightmost_E in Hrm; subst; by apply elem_of_nil in Hin].
    pose proof (bst_rightmost_max _ _ _ Hbl Hrm _ Hmv) as Hle.
    destruct (decide (m.2 = w)) as [Heq|Hne].
    + exists (a, v). apply next_up. rewrite Hrm. f_equal.
      destruct m as [c x]. simpl in *. subst x. f_equal.
      apply (nodes_same_elem (nodes l) b c w);
        [by apply bst_elems_NoDup|by apply rightmost_in|done].
    + destruct (IHl Hbl Hin) as (m' & Hn).
      { exists w. split; [|lia]. apply rightmost_in in Hrm.
        by apply (list_elem_of_fmap_2 snd) in Hrm. }
      exists m'. by apply next_left.
  - simpl in Hmu.
    destruct (leftmost r) as [m'|] eqn:Hlm; [exists m'; by apply next_down|].
    apply leftmost_E in Hlm as ->.
    apply elem_of_app in Hu as [Hu|Hu].
    + eapply Forall_forall in Hlt; [|done]. simpl in Hlt. lia.
    + apply elem_of_cons in Hu as [->|Hu]; [lia|]. by apply elem_of_nil in Hu.
  - pose proof (list_elem_of_fmap_2 snd _ _ Hin) as Hmv.
    pose proof Hgt as Hgt'. eapply Forall_forall in Hgt'; [|exact Hmv]. simpl in Hgt'.
    destruct (IHr Hbr Hin) as (m' & Hn); [|exists m'; by apply next_right].
    exists u. split; [|done].
    apply elem_of_app in Hu as [Hu|Hu].
    + eapply Forall_forall in Hlt; [|done]. simpl in Hlt. lia.
    + apply elem_of_cons in Hu as [->|Hu]; [lia|done].
Qed.

End next_facts.

Lemma real_holds_nodes nil h t shp b v :
  childless nil → tree_at nil h t shp → real_node h t b → holds h b v →
  (b, v) ∈ nodes shp.
Proof.
  intros Hnil Ht (r & Hr & Hin) Hv.
  destruct (tree_at_root _ _ _ _ _ Ht Hr) as (_ & hdr & Hs).
  destruct (in_subtree_nodes _ _ _ _ _ _ Hnil Hs Hin) as (w & Hw & Hh).
  by rewrite (holds_fun _ _ _ _ Hv Hh).
Qed.

(** X12. [operator++] on a tree whose absent links are null and whose
    elements are ordered: from any real node that does not hold the greatest
    element, the increment completes, leaves the heap as it is, and arrives at
    the real node holding the least element greater than the one it left. *)
Theorem increment_gives_next_greater (fuel : nat) (h : gmap addr bst_node)
    (t : bstree) (shp : btree) (b : addr) (v : Z) :
  tree_at (Val nullptr) h t shp → bst shp → bsize shp ≤ fuel →
  real_node h t b → holds h b v →
  (∃ d u, real_node h t d ∧ holds h d u ∧ (v < u)%Z) →
  ∃ c w, iterator.increment fuel (mk_iterator (Some b)) h = Done (mk_iterator (Some c), h) ∧
    real_node h t c ∧ holds h c w ∧ (v < w)%Z ∧
    ∀ d u, real_node h t d → holds h d u → (v < u)%Z → (w ≤ u)%Z.
Proof.
  intros Ht Hb Hfuel Hreal Hv (d & u & Hd & Hu & Hvu).
  assert (childless (Val nullptr)) as Hnil by (by right).
  pose proof (real_holds_nodes _ _ _ _ _ _ Hnil Ht Hreal Hv) as Hin.
  pose proof (real_holds_nodes _ _ _ _ _ _ Hnil Ht Hd Hu) as Hdin.
  destruct (next_exists _ (b, v) Hb Hin) as ([c w] & Hn).
  { exists u. split; [by eapply nodes_elem|done]. }
  destruct (next_least _ _ _ Hb Hn) as (Hvw & Hleast). simpl in Hvw, Hleast.
  pose proof (next_in _ _ _ Hn) as (_ & Hcin).
  exists c, w. split_and!; [|by apply (real_node_addrs _ _ _ _ _ Hnil Ht); eapply nodes_addr
                            |by eapply tree_at_holds|done|].
  - destruct Ht as (hdr & hn & Hhdr & Hhn & Hroot & Hout & Hnd).
    destruct shp as [|l a x r]; [inversion Hn|].
    pose proof Hroot as (Hf & _). rewrite Hf in Hroot.
    apply (increment_next _ _ _ _ Hn _ _ _ Hroot Hnd Hfuel).
  - intros d' u' Hd' Hu' Hlt. apply Hleast; [|done].
    eapply nodes_elem. by eapply real_holds_nodes.
Qed.

(** [operator++] at the last node of a tree: the walk up reaches the header
    and compares the root with the header's [right]. *)
Lemma increment_last fuel h t l a v r m hdr hn y :
  tree_at (Val nullptr) h t (N l a v r) → bsize (N l a v r) ≤ fuel →
  _header_ptr t = Some hdr → h !! hdr = Some hn → right hn = Val y →
  rightmost (N l a v r) = Some m →
  iterator.increment fuel (mk_iterator (Some m.1)) h =
  Done (mk_iterator (Some (if bool_decide (y = Some a) then a else hdr)), h).
Proof.
  intros (hdr' & hn' & Hhdr' & Hhn' & Hroot & Hout & Hnd) Hfuel Hhdr Hhn Hy Hm.
  assert (hdr' = hdr) as -> by congruence. assert (hn' = hn) as -> by congruence.
  pose proof Hroot as (Hf & _). rewrite Hf in Hroot.
  destruct (ascend_right_spine h _ fuel _ _ _ Hroot Hm Hfuel)
    as (nm & fm & k & Hnm & Hnr & Hnf & Hk & Heq).
  unfold iterator.increment. cbn [_ptr].
  rewrite run_bind, (run_get_right _ _ _ Hnm), Hnr. red_run.
  rewrite run_bind, (run_get_father _ _ _ Hnm), Hnf. red_run.
  rewrite run_bind, Heq, ascend_right_eq, run_bind, (run_get_right _ _ _ Hhn), Hy. red_run.
  destruct (decide (y = Some a)) as [->|Hne].
  - rewrite !bool_decide_eq_true_2 by done.
    destruct k as [|k]; [lia|].
    rewrite run_bind, (run_get_father _ _ _ Hhn), Hf. red_run.
    simpl in Hroot. destruct Hroot as (_ & sl & sr & Ha & Hl & Hr).
    rewrite ascend_right_eq, run_bind, (run_get_right _ _ _ Ha). cbn [right].
    assert (∃ q, sr = Val q ∧ Some hdr ≠ q) as (q & -> & Hq).
    { destruct r as [|rl ra rv rr]; simpl in Hr.
      - subst sr. by exists None.
      - destruct Hr as (-> & _). exists (Some ra). split; [done|]. intros [= ->].
        apply Hout. rewrite !addrs_N. set_solver. }
    red_run. by rewrite bool_decide_eq_false_2.
  - rewrite !bool_decide_eq_false_2 by congruence. done.
Qed.

(** ** Walking a tree built by [insert] *)

Lemma binsert_root n x t :
  root_value (binsert n x t) =
  match root_value t with Some v => Some v | None => Some x end.
Proof.
  destruct t as [|l a v r]; simpl; [done|].
  destruct (x =? v)%Z; [done|]. by destruct (x <? v)%Z.
Qed.

(** The first value inserted into an empty tree stays at the root. *)
Lemma inserts_root st fuel vs : ∀ h0 h t shp t' h',
  tree_at (raw_link st) h t shp → caches_in h t shp → bst shp →
  caches_mirrored h t shp → owned h0 h t shp →
  tree.inserts fuel st t vs h = Done (t', h') →
  ∃ shp', t' = t ∧ tree_at (raw_link st) h' t shp' ∧ bst shp' ∧
          caches_mirrored h' t shp' ∧
          bsize shp' ≤ bsize shp + length vs ∧
          (∀ y, y ∈ elems shp' ↔ y ∈ elems shp ∨ y ∈ vs) ∧
          owned h0 h' t shp' ∧
          root_value shp' =
          match root_value shp with Some v => Some v | None => head vs end.
Proof.
  induction vs as [|v vs IH]; intros h0 h t shp t' h' Ht Hc Hb Hm Ho Hrun.
  - destruct (inserts_owned _ _ _ _ _ _ _ _ _ Ht Hc Hb Hm Ho Hrun)
      as (shp' & _ & _). simpl in Hrun.
    rewrite run_ret in Hrun. injection Hrun as <- <-. exists shp.
    split_and!; [done..|lia| |done|by destruct (root_value shp)].
    intros y. rewrite elem_of_nil. tauto.
  - simpl in Hrun. apply bind_done in Hrun as (t1 & h1 & Hins & Hrun).
    pose proof (insert_owned _ _ _ _ _ _ _ _ _ Ht Ho Hins) as Ho1.
    destruct (insert_spec _ _ _ _ _ _ _ _ Ht Hc Hins) as (-> & Ht1 & Hc1 & Hm1).
    destruct (IH _ _ _ _ _ _ Ht1 Hc1 (bst_binsert _ _ _ Hb) (Hm1 Hb Hm) Ho1 Hrun)
      as (shp' & -> & Ht' & Hb' & Hm' & Hsz & Hel & Ho' & Hroot).
    exists shp'. split_and!; [done..| | |done|].
    + pose proof (bsize_binsert (fresh (dom h)) v shp). simpl. lia.
    + intros y. rewrite Hel, elems_binsert_iff, elem_of_cons. tauto.
    + rewrite Hroot, binsert_root. by destruct (root_value shp).
Qed.

Lemma build_shape_root fuel vs h0 t h :
  tree.build fuel ZeroFilled vs h0 = Done (t, h) →
  ∃ shp, tree_at (Val nullptr) h t shp ∧ bst shp ∧ caches_mirrored h t shp ∧
         bsize shp ≤ length vs ∧ (∀ y, y ∈ elems shp ↔ y ∈ vs) ∧
         root_value shp = head vs.
Proof.
  intros Hrun. unfold tree.build in Hrun.
  apply bind_done in Hrun as (t0 & h1 & Hc & Hrun).
  destruct (create_tree_at ZeroFilled (raw_link ZeroFilled) _ _ _ Hc) as (Ht0 & Hc0).
  assert (owned h0 h1 t0 E) as Ho0.
  { rewrite run_create in Hc. injection Hc as <- <-. exists (fresh (dom h0)).
    split; [done|]. split; [apply fresh_unused|]. split.
    - intros b Hb. by apply elem_of_nil in Hb.
    - intros b Hb _. by rewrite lookup_insert_ne. }
  destruct (inserts_root _ _ _ _ _ _ _ _ _ Ht0 Hc0 I (caches_mirrored_E _ _) Ho0 Hrun)
    as (shp & -> & Ht & Hb & Hm & Hsz & Hel & _ & Hroot).
  exists shp. split; [exact Ht|]. split; [done|]. split; [done|]. 
  split; [exact Hsz|]. split; [|exact Hroot].
  intros y. rewrite Hel. unfold elems at 1. simpl. rewrite elem_of_nil. tauto.
Qed.

(** The node [begin()] names in a tree built from [v0 :: vs], and what
    [operator++] does there. *)
Lemma built_last k fuel v0 vs h0 t h :
  tree.build k ZeroFilled (v0 :: vs) h0 = Done (t, h) → length (v0 :: vs) ≤ fuel →
  ∃ hdr y w, _header_ptr t = Some hdr ∧
    tree.begin t h = Done (mk_iterator (Some y), h) ∧ y ≠ hdr ∧
    real_node h t y ∧ holds h y w ∧ w ∈ v0 :: vs ∧
    (∀ u, u ∈ v0 :: vs → (u ≤ w)%Z) ∧
    (∀ m, real_node h t m → holds h m w → m = y) ∧
    (∀ m u, real_node h t m → holds h m u → u ∈ v0 :: vs) ∧
    ((v0 < w)%Z →
     iterator.increment fuel (mk_iterator (Some y)) h = Done (mk_iterator (Some hdr), h)) ∧
    (w = v0 →
     iterator.increment fuel (mk_iterator (Some y)) h = Done (mk_iterator (Some y), h)).
Proof.
  intros Hrun Hfuel.
  destruct (build_shape_root _ _ _ _ _ Hrun) as (shp & Ht & Hb & Hm & Hsz & Hel & Hroot).
  destruct shp as [|l a v r]; [done|]. injection Hroot as ->.
  destruct Hm as (hdr & hn & x & wx & y & w & Hhdr & Hhn & Hx & Hlm & Hy & Hrm); [done|].
  assert (childless (Val nullptr)) as Hnil by (by right).
  pose proof (rightmost_in _ _ Hrm) as Hin.
  pose proof (increment_last fuel _ _ _ _ _ _ _ _ _ _ Ht ltac:(lia) Hhdr Hhn Hy Hrm) as Hinc.
  cbn [fst] in Hinc.
  assert (∀ m, real_node h t m → holds h m w → m = y) as Huniq.
  { intros m Hm Hw. pose proof (real_holds_nodes _ _ _ _ _ _ Hnil Ht Hm Hw) as Hmin.
    apply (nodes_same_elem (nodes (N l a v0 r)) m y w); [by apply bst_elems_NoDup|done..]. }
  pose proof Ht as (hdr' & hn' & Hhdr' & Hhn' & Hshape & Hout & Hnd).
  assert (hdr' = hdr) as -> by congruence.
  exists hdr, y, w. split_and!; [done| | | | | | |done| | |].
  - unfold tree.begin, tree._left_most.
    rewrite Hhdr, run_bind, (run_get_right _ _ _ Hhn), Hy. by red_run.
  - intros ->. apply Hout. by eapply nodes_addr.
  - apply (real_node_addrs _ _ _ _ _ Hnil Ht). by eapply nodes_addr.
  - by eapply tree_at_holds.
  - apply Hel. by eapply nodes_elem.
  - intros u Hu. apply Hel in Hu. by eapply bst_rightmost_max.
  - intros m u Hm Hu. apply Hel. eapply nodes_elem. by eapply real_holds_nodes.
  - intros Hlt. rewrite Hinc, bool_decide_eq_false_2; [done|]. intros [= ->].
    simpl in Hrm. destruct (rightmost r) as [m'|] eqn:Hr.
    + injection Hrm as ->. apply rightmost_in, nodes_addr in Hr.
      rewrite addrs_N in Hnd. apply NoDup_app in Hnd as (_ & _ & Hnd).
      apply NoDup_cons in Hnd as (Hnd & _). done.
    + injection Hrm as <-. lia.
  - intros ->. rewrite Hinc.
    assert (a = y) as ->.
    { apply Huniq; [|eapply tree_at_holds; [done|]]; 
      [apply (real_node_addrs _ _ _ _ _ Hnil Ht)|]; rewrite ?addrs_N; simpl; set_solver. }
    by rewrite bool_decide_eq_true_2.
Qed.

(** X13. [operator++] at the node holding the greatest element of a tree built
    by [insert] calls on zero-filled storage.  When the first value inserted
    is not the greatest, the increment arrives at [end()]; when it is, the
    increment comes back to the node it started from, so a loop that waits for
    [end()] does not stop there. *)
Theorem increment_at_greatest (k fuel : nat) (v0 : Z) (vs : list Z)
    (h0 h : gmap addr bst_node) (t : bstree) (m : addr) (w : Z) :
  tree.build k ZeroFilled (v0 :: vs) h0 = Done (t, h) → length (v0 :: vs) ≤ fuel →
  real_node h t m → holds h m w → (∀ u, u ∈ v0 :: vs → (u ≤ w)%Z) →
  ((v0 < w)%Z → iterator.increment fuel (mk_iterator (Some m)) h = tree.end_ t h) ∧
  (w = v0 →
   iterator.increment fuel (mk_iterator (Some m)) h = Done (mk_iterator (Some m), h)).
Proof.
  intros Hrun Hfuel Hm Hw Hmax.
  destruct (built_last _ _ _ _ _ _ _ Hrun Hfuel)
    as (hdr & y & w' & Hhdr & _ & _ & Hy & Hyw & Hin & Hmax' & Huniq & Hall & Hlt & Heq).
  assert (w' = w) as ->.
  { pose proof (Hmax _ Hin). pose proof (Hmax' _ (Hall _ _ Hm Hw)). lia. }
  rewrite (Huniq _ Hm Hw). split; [|done].
  intros Hv. rewrite (Hlt Hv). unfold tree.end_. by rewrite Hhdr.
Qed.

Lemma traverse_at_end fuel steps e h : traverse fuel steps e e h = Done ([], h).
Proof. destruct steps; simpl; unfold iterator.eq; by rewrite bool_decide_eq_true_2. Qed.

Lemma traverse_stuck fuel it e d h :
  _ptr it ≠ _ptr e → iterator.star it h = Done (d, h) →
  iterator.increment fuel it h = Done (it, h) →
  ∀ steps, traverse fuel steps it e h = OutOfFuel.
Proof.
  intros Hne Hd Hinc. induction steps as [|steps IH]; simpl; unfold iterator.eq;
    rewrite bool_decide_eq_false_2 by done; [done|].
  by rewrite run_bind, Hd, run_bind, Hinc, run_bind, IH.
Qed.

(** X14. The loop from [begin()] by [++] until [end()] on a tree built by
    inserting [v0] and then [vs] on zero-filled storage.  When some later
    value is greater than [v0], the loop ends after one element, the greatest
    one, whatever else the tree holds; when none is, the loop never reaches
    [end()]. *)
Theorem visit_built_tree (k fuel : nat) (v0 : Z) (vs : list Z)
    (h0 h : gmap addr bst_node) (t : bstree) :
  tree.build k ZeroFilled (v0 :: vs) h0 = Done (t, h) → length (v0 :: vs) ≤ fuel →
  ((∃ u, u ∈ vs ∧ (v0 < u)%Z) →
   ∃ w, w ∈ vs ∧ (∀ u, u ∈ v0 :: vs → (u ≤ w)%Z) ∧
        ∀ steps, visit fuel (S steps) t h = Done ([w], h)) ∧
  ((∀ u, u ∈ vs → (u ≤ v0)%Z) → ∀ steps, visit fuel steps t h = OutOfFuel).
Proof.
  intros Hrun Hfuel.
  destruct (built_last _ _ _ _ _ _ _ Hrun Hfuel)
    as (hdr & y & w & Hhdr & Hbegin & Hne & Hy & (ny & Hny & Hdy) & Hin & Hmax & _ & _ & Hlt & Heq).
  assert (iterator.star (mk_iterator (Some y)) h = Done (w, h)) as Hstar.
  { unfold iterator.star. cbn [_ptr]. by rewrite (run_get_data _ _ _ Hny), Hdy. }
  split.
  - intros (u & Hu & Hvu).
    assert (v0 < w)%Z as Hv by (pose proof (Hmax u ltac:(set_solver)); lia).
    exists w. split; [|split; [done|]].
    { apply elem_of_cons in Hin as [->|Hin]; [lia|done]. }
    intros steps. unfold visit, tree.end_.
    rewrite run_bind, Hbegin, run_bind, run_ret, Hhdr. simpl. unfold iterator.eq. cbn [_ptr].
    rewrite bool_decide_eq_false_2 by congruence.
    by rewrite run_bind, Hstar, run_bind, (Hlt Hv), run_bind, traverse_at_end.
  - intros Hle steps.
    assert (w = v0) as Hw.
    { apply elem_of_cons in Hin as [->|Hin]; [done|].
      pose proof (Hle _ Hin). pose proof (Hmax v0 ltac:(set_solver)). lia. }
    unfold visit, tree.end_. rewrite run_bind, Hbegin, run_bind, run_ret, Hhdr.
    apply (traverse_stuck _ _ _ w); [simpl; congruence|done|by apply Heq].
Qed.

(** ** The decrement *)

Lemma decrement_next h t m' m :
  next t m' m → ∀ a f fuel,
  shape (Val nullptr) h (Val (Some a)) f t → NoDup (addrs t) → bsize t ≤ fuel →
  iterator.decrement fuel (mk_iterator (Some m.1)) h = Done (mk_iterator (Some m'.1), h).
Proof.
  induction 1 as [l a' v r m' m Hn IH|l a' v r m' m Hn IH|l a' v r m' Hm|l a' v r m Hm];
    intros a f fuel Hs Hnd Hfuel;
    simpl in Hs; destruct Hs as ([= <-] & sl & sr & Ha & Hl & Hr);
    rewrite addrs_N in Hnd; apply NoDup_app in Hnd as (Hndl & Hlr & Hndr);
    apply NoDup_cons in Hndr as (Har & Hndr); simpl in Hfuel.
  - destruct l as [|ll la lv lr]; [inversion Hn|]. pose proof Hl as (-> & _).
    apply (IH _ _ _ Hl Hndl). lia.
  - destruct r as [|rl ra rv rr]; [inversion Hn|]. pose proof Hr as (-> & _).
    apply (IH _ _ _ Hr Hndr). lia.
  - destruct l as [|ll la lv lr]; [done|]. pose proof Hl as (-> & _).
    unfold iterator.decrement. cbn [_ptr fst].
    rewrite run_bind, (run_get_left _ _ _ Ha). cbn [left]. red_run.
    by rewrite run_bind, (descend_right_spec h _ fuel _ _ _ Hl Hm) by lia.
  - destruct r as [|rl ra rv rr]; [done|]. pose proof Hr as (-> & _).
    destruct (ascend_left_spine h _ fuel _ _ _ Hr Hm ltac:(lia))
      as (nm & fm & k & Hnm & Hnl & Hnf & _ & Heq).
    unfold iterator.decrement. cbn [_ptr].
    rewrite run_bind, (run_get_left _ _ _ Hnm), Hnl. red_run.
    rewrite run_bind, (run_get_father _ _ _ Hnm), Hnf. red_run.
    rewrite run_bind, Heq, ascend_left_eq, run_bind, (run_get_left _ _ _ Ha). cbn [left].
    assert (∃ q, sl = Val q ∧ Some ra ≠ q) as (q & -> & Hq).
    { destruct l as [|ll la lv lr]; simpl in Hl.
      - subst sl. by exists None.
      - destruct Hl as (-> & _). exists (Some la). split; [done|]. intros [= ->].
        apply (Hlr la); rewrite ?addrs_N; set_solver. }
    red_run. by rewrite bool_decide_eq_false_2.
Qed.

Section prev_facts.
Implicit Types (t l r : btree).
Local Open Scope Z_scope.

(** The node that comes before holds the greatest of the smaller elements. *)
Lemma next_greatest t m m' :
  bst t → next t m m' → ∀ u, u ∈ elems t → u < m'.2 → u ≤ m.2.
Proof.
  intros Hb Hn. revert Hb.
  induction Hn as [l a v r m m' Hn IH|l a v r m m' Hn IH|l a v r m Hm|l a v r m Hm];
    intros (Hlt & Hgt & Hbl & Hbr); rewrite elems_N.
  - apply next_in in Hn as (_ & Hm'). apply (list_elem_of_fmap_2 snd) in Hm'.
    pose proof Hlt as Hlt'. eapply Forall_forall in Hlt'; [|exact Hm']. simpl in Hlt'.
    intros u Hu Hmu. apply elem_of_app in Hu as [Hu|Hu]; [by apply IH|].
    apply elem_of_cons in Hu as [->|Hu]; [lia|].
    eapply Forall_forall in Hgt; [|done]. simpl in Hgt. lia.
  - pose proof (next_in _ _ _ Hn) as (Hm & _). apply (list_elem_of_fmap_2 snd) in Hm.
    pose proof Hgt as Hgt'. eapply Forall_forall in Hgt'; [|exact Hm]. simpl in Hgt'.
    intros u Hu Hmu. apply elem_of_app in Hu as [Hu|Hu].
    + eapply Forall_forall in Hlt; [|done]. simpl in Hlt. lia.
    + apply elem_of_cons in Hu as [->|Hu]; [lia|]. by apply IH.
  - simpl. intros u Hu Hmu.
    apply elem_of_app in Hu as [Hu|Hu].
    + destruct m as [m w]. by apply (bst_rightmost_max _ _ _ Hbl Hm u Hu).
    + apply elem_of_cons in Hu as [->|Hu]; [lia|].
      eapply Forall_forall in Hgt; [|done]. simpl in Hgt. lia.
  - simpl. intros u Hu Hmu.
    apply elem_of_app in Hu as [Hu|Hu].
    + eapply Forall_forall in Hlt; [|done]. simpl in Hlt. lia.
    + apply elem_of_cons in Hu as [->|Hu]; [lia|].
      destruct m as [m w]. pose proof (bst_leftmost_min _ _ _ Hbr Hm u Hu). simpl in *. lia.
Qed.

(** Every node but the one holding the least element has a node before it. *)
Lemma prev_exists t m :
  bst t → m ∈ nodes t → (∃ u, u ∈ elems t ∧ u < m.2) → ∃ m', next t m' m.
Proof.
  induction t as [|l IHl a v r IHr]; simpl; [by intros _ H%elem_of_nil|].
  intros (Hlt & Hgt & Hbl & Hbr) Hin (u & Hu & Hmu). rewrite elems_N in Hu.
  apply elem_of_app in Hin as [Hin|Hin]; [|apply elem_of_cons in Hin as [->|Hin]].
  - pose proof (list_elem_of_fmap_2 snd _ _ Hin) as Hmv.
    pose proof Hlt as Hlt'. eapply Forall_forall in Hlt'; [|exact Hmv]. simpl in Hlt'.
    destruct (IHl Hbl Hin) as (m' & Hn); [|exists m'; by apply next_left].
    exists u. split; [|done].
    apply elem_of_app in Hu as [Hu|Hu]; [done|].
    apply elem_of_cons in Hu as [->|Hu]; [lia|].
    eapply Forall_forall in Hgt; [|done]. simpl in Hgt. lia.
  - simpl in Hmu.
    destruct (rightmost l) as [m'|] eqn:Hrm; [exists m'; by apply next_up|].
    apply rightmost_E in Hrm as ->.
    apply elem_of_app in Hu as [Hu|Hu]; [by apply elem_of_nil in Hu|].
    apply elem_of_cons in Hu as [->|Hu]; [lia|].
    eapply Forall_forall in Hgt; [|done]. simpl in Hgt. lia.
  - pose proof (list_elem_of_fmap_2 snd _ _ Hin) as Hmv.
    pose proof Hgt as Hgt'. eapply Forall_forall in Hgt'; [|exact Hmv]. simpl in Hgt'.
    destruct (leftmost r) as [[b w]|] eqn:Hlm;
      [|apply leftmost_E in Hlm; subst; by apply elem_of_nil in Hin].
    pose proof (bst_leftmost_min _ _ _ Hbr Hlm _ Hmv) as Hle.
    destruct (decide (m.2 = w)) as [Heq|Hne].
    + exists (a, v). apply next_down. rewrite Hlm. f_equal.
      destruct m as [c x]. simpl in *. subst x. f_equal.
      apply (nodes_same_elem (nodes r) b c w);
        [by apply bst_elems_NoDup|by apply leftmost_in|done].
    + destruct (IHr Hbr Hin) as (m' & Hn).
      { exists w. split; [|lia]. apply leftmost_in in Hlm.
        by apply (list_elem_of_fmap_2 snd) in Hlm. }
      exists m'. by apply next_right.
Qed.

End prev_facts.

(** X15. [operator--] on a tree whose absent links are null and whose
    elements are ordered: from any real node that does not hold the least
    element, the decrement completes, leaves the heap as it is, and arrives at
    the real node holding the greatest element smaller than the one it left. *)
Theorem decrement_gives_next_smaller (fuel : nat) (h : gmap addr bst_node)
    (t : bstree) (shp : btree) (b : addr) (v : Z) :
  tree_at (Val nullptr) h t shp → bst shp → bsize shp ≤ fuel →
  real_node h t b → holds h b v →
  (∃ d u, real_node h t d ∧ holds h d u ∧ (u < v)%Z) →
  ∃ c w, iterator.decrement fuel (mk_iterator (Some b)) h = Done (mk_iterator (Some c), h) ∧
    real_node h t c ∧ holds h c w ∧ (w < v)%Z ∧
    ∀ d u, real_node h t d → holds h d u → (u < v)%Z → (u ≤ w)%Z.
Proof.
  intros Ht Hb Hfuel Hreal Hv (d & u & Hd & Hu & Hvu).
  assert (childless (Val nullptr)) as Hnil by (by right).
  pose proof (real_holds_nodes _ _ _ _ _ _ Hnil Ht Hreal Hv) as Hin.
  pose proof (real_holds_nodes _ _ _ _ _ _ Hnil Ht Hd Hu) as Hdin.
  destruct (prev_exists _ (b, v) Hb Hin) as ([c w] & Hn).
  { exists u. split; [by eapply nodes_elem|done]. }
  destruct (next_least _ _ _ Hb Hn) as (Hvw & _). simpl in Hvw.
  pose proof (next_greatest _ _ _ Hb Hn) as Hgreatest. simpl in Hgreatest.
  pose proof (next_in _ _ _ Hn) as (Hcin & _).
  exists c, w. split_and!; [|by apply (real_node_addrs _ _ _ _ _ Hnil Ht); eapply nodes_addr
                            |by eapply tree_at_holds|done|].
  - destruct Ht as (hdr & hn & Hhdr & Hhn & Hroot & Hout & Hnd).
    destruct shp as [|l a x r]; [inversion Hn|].
    pose proof Hroot as (Hf & _). rewrite Hf in Hroot.
    apply (decrement_next _ _ _ _ Hn _ _ _ Hroot Hnd Hfuel).
  - intros d' u' Hd' Hu' Hlt. apply Hgreatest; [|done].
    eapply nodes_elem. by eapply real_holds_nodes.
Qed.

(** [operator--] at the first node of a tree: the walk up reaches the header
    and compares the root with the header's [left]. *)
Lemma decrement_first fuel h t l a v r m hdr hn x :
  tree_at (Val nullptr) h t (N l a v r) → bsize (N l a v r) ≤ fuel →
  _header_ptr t = Some hdr → h !! hdr = Some hn → left hn = Val x →
  leftmost (N l a v r) = Some m →
  iterator.decrement fuel (mk_iterator (Some m.1)) h =
  Done (mk_iterator (Some (if bool_decide (x = Some a) then a else hdr)), h).
Proof.
  intros (hdr' & hn' & Hhdr' & Hhn' & Hroot & Hout & Hnd) Hfuel Hhdr Hhn Hx Hm.
  assert (hdr' = hdr) as -> by congruence. assert (hn' = hn) as -> by congruence.
  pose proof Hroot as (Hf & _). rewrite Hf in Hroot.
  destruct (ascend_left_spine h _ fuel _ _ _ Hroot Hm Hfuel)
    as (nm & fm & k & Hnm & Hnl & Hnf & Hk & Heq).
  unfold iterator.decrement. cbn [_ptr].
  rewrite run_bind, (run_get_left _ _ _ Hnm), Hnl. red_run.
  rewrite run_bind, (run_get_father _ _ _ Hnm), Hnf. red_run.
  rewrite run_bind, Heq, ascend_left_eq, run_bind, (run_get_left _ _ _ Hhn), Hx. red_run.
  destruct (decide (x = Some a)) as [->|Hne].
  - rewrite !bool_decide_eq_true_2 by done.
    destruct k as [|k]; [lia|].
    rewrite run_bind, (run_get_father _ _ _ Hhn), Hf. red_run.
    simpl in Hroot. destruct Hroot as (_ & sl & sr & Ha & Hl & Hr).
    rewrite ascend_left_eq, run_bind, (run_get_left _ _ _ Ha). cbn [left].
    assert (∃ q, sl = Val q ∧ Some hdr ≠ q) as (q & -> & Hq).
    { destruct l as [|ll la lv lr]; simpl in Hl.
      - subst sl. by exists None.
      - destruct Hl as (-> & _). exists (Some la). split; [done|]. intros [= ->].
        apply Hout. rewrite !addrs_N. set_solver. }
    red_run. by rewrite bool_decide_eq_false_2.
  - rewrite !bool_decide_eq_false_2 by congruence. done.
Qed.

(** X16. [operator--] at the node holding the least element of a tree built by
    [insert] calls on zero-filled storage.  When the first value inserted is
    not the least, the decrement arrives at [end()]; when it is, the decrement
    comes back to the node it started from. *)
Theorem decrement_at_least (k fuel : nat) (v0 : Z) (vs : list Z)
    (h0 h : gmap addr bst_node) (t : bstree) (m : addr) (w : Z) :
  tree.build k ZeroFilled (v0 :: vs) h0 = Done (t, h) → length (v0 :: vs) ≤ fuel →
  real_node h t m → holds h m w → (∀ u, u ∈ v0 :: vs → (w ≤ u)%Z) →
  ((w < v0)%Z → iterator.decrement fuel (mk_iterator (Some m)) h = tree.end_ t h) ∧
  (w = v0 →
   iterator.decrement fuel (mk_iterator (Some m)) h = Done (mk_iterator (Some m), h)).
Proof.
  intros Hrun Hfuel Hreal Hw Hmin.
  destruct (build_shape_root _ _ _ _ _ Hrun) as (shp & Ht & Hb & Hm & Hsz & Hel & Hroot).
  destruct shp as [|l a v r]; [done|]. injection Hroot as ->.
  destruct Hm as (hdr & hn & x & wx & y & wy & Hhdr & Hhn & Hx & Hlm & Hy & Hrm); [done|].
  assert (childless (Val nullptr)) as Hnil by (by right).
  pose proof (leftmost_in _ _ Hlm) as Hin.
  pose proof (decrement_first fuel _ _ _ _ _ _ _ _ _ _ Ht ltac:(lia) Hhdr Hhn Hx Hlm) as Hdec.
  cbn [fst] in Hdec.
  pose proof (real_holds_nodes _ _ _ _ _ _ Hnil Ht Hreal Hw) as Hmin'.
  assert (wx = w) as ->.
  { pose proof (bst_leftmost_min _ _ _ Hb Hlm w ltac:(by eapply nodes_elem)).
    pose proof (Hmin wx ltac:(by apply Hel; eapply nodes_elem)). lia. }
  assert (m = x) as ->.
  { apply (nodes_same_elem (nodes (N l a v0 r)) m x w); [by apply bst_elems_NoDup|done..]. }
  pose proof Ht as (hdr' & hn' & Hhdr' & Hhn' & Hshape & Hout & Hnd).
  assert (hdr' = hdr) as -> by congruence.
  split.
  - intros Hlt. unfold tree.end_. rewrite Hhdr, Hdec, bool_decide_eq_false_2; [done|].
    intros [= ->]. simpl in Hlm. destruct (leftmost l) as [m'|] eqn:Hl.
    + injection Hlm as ->. apply leftmost_in, nodes_addr in Hl.
      rewrite addrs_N in Hnd. apply NoDup_app in Hnd as (_ & Hnd & _).
      apply (Hnd a); [done|set_solver].
    + injection Hlm as <-. lia.
  - intros ->. rewrite Hdec.
    assert (a = x) as ->.
    { apply (nodes_same_elem (nodes (N l a v0 r)) a x v0); [by apply bst_elems_NoDup| |done].
      simpl. set_solver. }
    by rewrite bool_decide_eq_true_2.
Qed.

(** The first node of a shape has no left child; what hangs below it lies in
    the left subtree of the root, unless it is the root itself. *)
Lemma leftmost_subtree nil h t : ∀ s f x wx,
  shape nil h s f t → leftmost t = Some (x, wx) →
  ∃ f' r', shape nil h (Val (Some x)) f' (N E x wx r') ∧
    bsize (N E x wx r') ≤ bsize t ∧
    match t with
    | E => True
    | N E a _ r => x = a ∧ r' = r
    | N l _ _ _ => ∀ n, n ∈ nodes (N E x wx r') → n ∈ nodes l
    end.
Proof.
  induction t as [|l IHl a v r _]; intros s f x wx Hs Hm; [done|].
  pose proof Hs as (-> & sl & sr & Ha & Hl & Hr). simpl in Hm.
  destruct l as [|ll la lv lr].
  - injection Hm as <- <-. exists f, r. split; [done|]. split; [done|]. done.
  - destruct (leftmost (N ll la lv lr)) as [m'|] eqn:Hm'; [|by apply leftmost_E in Hm'].
    injection Hm as ->.
    destruct (IHl _ _ _ _ Hl eq_refl) as (f' & r' & Hs' & Hsz & Hsub).
    exists f', r'. split; [done|]. split; [simpl in *; lia|].
    destruct ll as [|lll lla llv llr].
    + destruct Hsub as (-> & ->). intros n Hn. simpl in *. set_solver.
    + intros n Hn. specialize (Hsub n Hn). simpl in *. set_solver.
Qed.

(** X17. [operator--] at [end()] of a tree built by [insert] calls on
    zero-filled storage arrives at a real node.  That node holds the greatest
    element when no value smaller than the first one was inserted; otherwise
    it holds an element smaller than the first value inserted, not the
    greatest one. *)
Theorem decrement_from_end (k fuel : nat) (v0 : Z) (vs : list Z)
    (h0 h : gmap addr bst_node) (t : bstree) :
  tree.build k ZeroFilled (v0 :: vs) h0 = Done (t, h) → length (v0 :: vs) ≤ fuel →
  ∃ c w, (e ← tree.end_ t; iterator.decrement fuel e) h = Done (mk_iterator (Some c), h) ∧
    real_node h t c ∧ holds h c w ∧
    ((∀ u, u ∈ vs → (v0 ≤ u)%Z) → ∀ u, u ∈ v0 :: vs → (u ≤ w)%Z) ∧
    ((∃ u, u ∈ vs ∧ (u < v0)%Z) → (w < v0)%Z).
Proof.
  intros Hrun Hfuel.
  destruct (build_shape_root _ _ _ _ _ Hrun) as (shp & Ht & Hb & Hm & Hsz & Hel & Hroot).
  destruct shp as [|l a v r]; [done|]. injection Hroot as ->.
  destruct Hm as (hdr & hn & x & wx & y & wy & Hhdr & Hhn & Hx & Hlm & Hy & Hrm); [done|].
  assert (childless (Val nullptr)) as Hnil by (by right).
  pose proof Ht as (hdr' & hn' & Hhdr' & Hhn' & Hshape & Hout & Hnd).
  assert (hdr' = hdr) as -> by congruence. assert (hn' = hn) as -> by congruence.
  destruct (leftmost_subtree _ _ _ _ _ _ _ Hshape Hlm) as (f' & r' & Hs' & Hsz' & Hsub).
  destruct (rightmost (N E x wx r')) as [[c w]|] eqn:Hc; [|by apply rightmost_E in Hc].
  pose proof (rightmost_in _ _ Hc) as Hcin.
  assert (l = E → wx = v0) as Hwx.
  { intros ->. simpl in Hlm. by injection Hlm as _ <-. }
  assert ((c, w) ∈ nodes (N l a v0 r)) as Hin.
  { destruct l as [|ll la lv lr].
    - rewrite (Hwx eq_refl) in *. by destruct Hsub as (-> & ->).
    - specialize (Hsub _ Hcin). simpl in *. set_solver. }
  exists c, w. split_and!.
  - unfold tree.end_. rewrite run_bind, run_ret, Hhdr. unfold iterator.decrement. cbn [_ptr].
    rewrite run_bind, (run_get_left _ _ _ Hhn), Hx. red_run.
    by rewrite run_bind, (descend_right_spec h _ fuel _ _ _ Hs' Hc) by lia.
  - apply (real_node_addrs _ _ _ _ _ Hnil Ht). by eapply nodes_addr.
  - by eapply tree_at_holds.
  - intros Hle u Hu. apply Hel in Hu.
    destruct l as [|ll la lv lr].
    + rewrite (Hwx eq_refl) in *. destruct Hsub as (-> & ->). by eapply bst_rightmost_max.
    + destruct Hb as (Hlt & _).
      assert (lv ∈ elems (N ll la lv lr)) as Hlv by (rewrite elems_N; set_solver).
      pose proof Hlv as Hlv'. eapply Forall_forall in Hlv'; [|exact Hlt]. simpl in Hlv'.
      assert (lv ∈ v0 :: vs) as Hlv2 by (apply Hel; rewrite elems_N; set_solver).
      apply elem_of_cons in Hlv2 as [->|Hlv2]; [lia|]. specialize (Hle _ Hlv2). lia.
  - intros (u & Hu & Hlt).
    destruct l as [|ll la lv lr].
    + assert (u ∈ elems (N E a v0 r)) as Hu' by (apply Hel; set_solver).
      rewrite elems_N in Hu'. destruct Hb as (_ & Hgt & _).
      apply elem_of_app in Hu' as [Hu'|Hu']; [by apply elem_of_nil in Hu'|].
      apply elem_of_cons in Hu' as [->|Hu']; [lia|].
      eapply Forall_forall in Hgt; [|done]. simpl in Hgt. lia.
    + specialize (Hsub _ Hcin). destruct Hb as (Hl & _).
      apply nodes_elem in Hsub. eapply Forall_forall in Hl; [|done]. done.
Qed.

(** ** Copying *)

Lemma same_values_elems t : ∀ t', same_values t t' → elems t' = elems t.
Proof.
  induction t as [|l IHl a v r IHr]; intros [|l' a' v' r']; simpl; try done.
  intros (-> & Hl & Hr). by rewrite !elems_N, (IHl _ Hl), (IHr _ Hr).
Qed.

Lemma same_values_bsize t : ∀ t', same_values t t' → bsize t' = bsize t.
Proof.
  induction t as [|l IHl a v r IHr]; intros [|l' a' v' r']; simpl; try done.
  intros (-> & Hl & Hr). by rewrite (IHl _ Hl), (IHr _ Hr).
Qed.

Lemma same_values_bst t : ∀ t', same_values t t' → bst t → bst t'.
Proof.
  induction t as [|l IHl a v r IHr]; intros [|l' a' v' r']; simpl; try done.
  intros (-> & Hl & Hr) (Hlt & Hgt & Hbl & Hbr).
  rewrite (same_values_elems _ _ Hl), (same_values_elems _ _ Hr).
  split; [done|]. split; [done|]. split; [by apply IHl|by apply IHr].
Qed.

Lemma bst_node_copy_eq fuel st other pf :
  bst_node_copy (S fuel) st other pf =
  (this ← operator_new st;
   d ← get_data other;
   set_data this d;;
   set_father this pf;;
   ol ← get_left other;
   match ol with
   | Some _ => c ← bst_node_copy fuel st ol this; set_left this c
   | None => ret tt
   end;;
   or ← get_right other;
   match or with
   | Some _ => c ← bst_node_copy fuel st or this; set_right this c
   | None => ret tt
   end;;
   ret this).
Proof. reflexivity. Qed.

(** The copy constructor on a subtree whose absent links are null, on
    zero-filled storage: the clone has the same elements at the same places,
    at addresses that were free, and nothing else changes. *)
Lemma bst_node_copy_shape t : ∀ fuel h a f pf,
  shape (Val nullptr) h (Val (Some a)) f t → bsize t ≤ fuel →
  ∃ c h' t', bst_node_copy fuel ZeroFilled (Some a) pf h = Done (Some c, h') ∧
    shape (Val nullptr) h' (Val (Some c)) pf t' ∧ same_values t t' ∧
    (∀ b, b ∈ addrs t' → h !! b = None) ∧ NoDup (addrs t') ∧
    (∀ b, b ∉ addrs t' → h' !! b = h !! b).
Proof.
  induction t as [|l IHl a' v r IHr]; intros fuel h a f pf Hs Hfuel; [done|].
  pose proof Hs as ([= <-] & sl & sr & Ha & Hl & Hr).
  simpl in Hfuel. destruct fuel as [|fuel]; [lia|].
  destruct (shape_val _ _ _ _ Hl) as (pl & ->). destruct (shape_val _ _ _ _ Hr) as (pr & ->).
  set (sl := Val pl) in *. set (sr := Val pr) in *.
  rewrite bst_node_copy_eq.
  set (c := fresh (dom h)).
  assert (h !! c = None) as Hc by apply fresh_unused.
  assert (a ≠ c) as Hac by (intros ->; congruence).
  rewrite run_bind. unfold operator_new at 1. fold c.
  rewrite run_bind, (run_get_data _ a (mk_node (Val v) (Val f) sl sr))
    by (by rewrite lookup_insert_ne). red_run. cbn [data].
  unfold set_data, set_father.
  rewrite run_bind. erewrite run_modify; [|apply lookup_insert_eq].
  rewrite run_bind. erewrite run_modify; [|apply lookup_insert_eq].
  rewrite !insert_insert_eq. cbn [raw_node raw_data raw_link data father left right].
  set (h3 := <[c := _]> h).
  assert (∀ b, b ≠ c → h3 !! b = h !! b) as Hh3 by (intros b Hb; by apply lookup_insert_ne).
  (* the left child *)
  rewrite run_bind, (run_get_left _ a (mk_node (Val v) (Val f) sl sr)) by (by rewrite Hh3).
  cbn [left]. subst sl. red_run. rewrite run_bind.
  assert (∃ h5 l' ql,
    (match pl with
     | Some _ => c0 ← bst_node_copy fuel ZeroFilled pl (Some c); set_left (Some c) c0
     | None => ret ()
     end) h3 = Done ((), h5) ∧
    h5 !! c = Some (mk_node (Val v) (Val pf) (Val ql) (Val nullptr)) ∧
    shape (Val nullptr) h5 (Val ql) (Some c) l' ∧ same_values l l' ∧
    (∀ b, b ∈ addrs l' → h3 !! b = None) ∧ NoDup (addrs l') ∧
    (∀ b, b ≠ c → b ∉ addrs l' → h5 !! b = h3 !! b)) as (h5 & l' & ql & -> & Hc5 & Hl' & Hvl & Hfl & Hndl & Hfrl).
  { destruct l as [|ll la lv lr].
    - simpl in Hl. injection Hl as ->. exists h3, E, None. red_run.
      split_and!; [done|apply lookup_insert_eq|done|done| |apply NoDup_nil_2|done].
      intros b Hb. by apply elem_of_nil in Hb.
    - pose proof Hl as ([= ->] & _).
      destruct (IHl fuel h3 la (Some a) (Some c)) as (cl & h4 & l' & Hrun & Hl' & Hvl & Hfl & Hndl & Hfrl).
      { eapply shape_frame; [done|]. intros b Hb. apply Hh3. intros ->.
        destruct (shape_allocated _ _ _ _ _ _ Hl Hb). congruence. }
      { simpl in *. lia. }
      assert (c ∉ addrs l') as Hcl.
      { intros Hin. specialize (Hfl _ Hin). unfold h3 in Hfl. by rewrite lookup_insert_eq in Hfl. }
      rewrite run_bind, Hrun. unfold set_left. erewrite run_modify;
        [|rewrite (Hfrl _ Hcl); apply lookup_insert_eq].
      cbn [data father left right].
      exists (<[c:=mk_node (Val v) (Val pf) (Val (Some cl)) (Val nullptr)]> h4), l', (Some cl).
      split_and!; [done|apply lookup_insert_eq| |done..|].
      + eapply shape_frame; [done|]. intros b Hb. apply lookup_insert_ne. by intros ->.
      + intros b Hb Hb'. rewrite lookup_insert_ne by done. by apply Hfrl. }
  (* the right child *)
  assert (∀ b, b ∈ addrs l' → is_Some (h5 !! b)) as Hall by (intros b; by eapply shape_allocated).
  assert (c ∉ addrs l') as Hcl.
  { intros Hin. specialize (Hfl _ Hin). unfold h3 in Hfl. by rewrite lookup_insert_eq in Hfl. }
  assert (∀ b, is_Some (h !! b) → h5 !! b = h !! b) as Hold.
  { intros b [n Hb]. rewrite Hfrl, Hh3; [done|congruence|congruence|].
    intros Hin. specialize (Hfl _ Hin). rewrite Hh3 in Hfl by congruence. congruence. }
  rewrite run_bind, (run_get_right _ a (mk_node (Val v) (Val f) (Val pl) sr)) by (by rewrite Hold).
  cbn [right]. subst sr. red_run. rewrite run_bind.
  assert (∃ h7 r' qr,
    (match pr with
     | Some _ => c0 ← bst_node_copy fuel ZeroFilled pr (Some c); set_right (Some c) c0
     | None => ret ()
     end) h5 = Done ((), h7) ∧
    h7 !! c = Some (mk_node (Val v) (Val pf) (Val ql) (Val qr)) ∧
    shape (Val nullptr) h7 (Val qr) (Some c) r' ∧ same_values r r' ∧
    (∀ b, b ∈ addrs r' → h5 !! b = None) ∧ NoDup (addrs r') ∧
    (∀ b, b ≠ c → b ∉ addrs r' → h7 !! b = h5 !! b)) as (h7 & r' & qr & -> & Hc7 & Hr' & Hvr & Hfr & Hndr & Hfrr).
  { destruct r as [|rl ra rv rr].
    - simpl in Hr. injection Hr as ->. exists h5, E, None. red_run.
      split_and!; [done|done|done|done| |apply NoDup_nil_2|done].
      intros b Hb. by apply elem_of_nil in Hb.
    - pose proof Hr as ([= ->] & _).
      destruct (IHr fuel h5 ra (Some a) (Some c)) as (cr & h6 & r' & Hrun & Hr' & Hvr & Hfr & Hndr & Hfrr).
      { eapply shape_frame; [done|]. intros b Hb. apply Hold. by eapply shape_allocated. }
      { simpl in *. lia. }
      assert (c ∉ addrs r') as Hcr.
      { intros Hin. specialize (Hfr _ Hin). congruence. }
      rewrite run_bind, Hrun. unfold set_right. erewrite run_modify;
        [|rewrite (Hfrr _ Hcr); exact Hc5].
      cbn [data father left right].
      exists (<[c:=mk_node (Val v) (Val pf) (Val ql) (Val (Some cr))]> h6), r', (Some cr).
      split_and!; [done|apply lookup_insert_eq| |done..|].
      + eapply shape_frame; [done|]. intros b Hb. apply lookup_insert_ne. by intros ->.
      + intros b Hb Hb'. rewrite lookup_insert_ne by done. by apply Hfrr. }
  rewrite run_ret.
  assert (c ∉ addrs r') as Hcr.
  { intros Hin. specialize (Hfr _ Hin). congruence. }
  assert (∀ b, b ∈ addrs l' → b ∉ addrs r') as Hdisj.
  { intros b Hb Hb'. destruct (Hall _ Hb) as [n Hn]. specialize (Hfr _ Hb'). congruence. }
  exists c, h7, (N l' c v r'). split_and!; [done| |done| | |].
  - simpl. split; [done|]. exists (Val ql), (Val qr). split_and!; [done| |done].
    eapply shape_frame; [done|]. intros b Hb. apply Hfrr; [by intros ->|by apply Hdisj].
  - intros b. rewrite addrs_N. intros Hb.
    apply elem_of_app in Hb as [Hb|Hb]; [|apply elem_of_cons in Hb as [->|Hb]].
    + specialize (Hfl _ Hb). rewrite Hh3 in Hfl; [done|]. by intros ->.
    + done.
    + pose proof (Hfr _ Hb) as Hn. rewrite Hfrl, Hh3 in Hn; [done|by intros ->..|].
      intros Hin. by apply (Hdisj b).
  - rewrite addrs_N. apply NoDup_app. split; [done|]. split.
    + intros b Hb Hb'. apply elem_of_cons in Hb' as [->|Hb']; [done|]. by apply (Hdisj b).
    + by apply NoDup_cons.
  - intros b. rewrite addrs_N. intros Hb.
    assert (b ≠ c ∧ (b ∉ addrs l') ∧ (b ∉ addrs r')) as (? & ? & ?) by set_solver.
    by rewrite Hfrr, Hfrl, Hh3.
Qed.

Lemma tree_at_frame nil h h' t shp :
  tree_at nil h t shp →
  (∀ b, _header_ptr t = Some b ∨ b ∈ addrs shp → h' !! b = h !! b) →
  tree_at nil h' t shp.
Proof.
  intros (hdr & hn & Hhdr & Hhn & Hroot & Hout & Hnd) Hsame.
  exists hdr, hn. split_and!; [done|by rewrite Hsame; [|left]| |done..].
  destruct shp as [|l a v r]; [done|].
  eapply shape_frame; [done|]. intros b Hb. apply Hsame. by right.
Qed.

(** [operator=] between two separate trees whose absent links are null, on
    zero-filled storage. *)
Lemma copy_assign_shape fuel h s d shps shpd hs hd :
  tree_at (Val nullptr) h s shps → shps ≠ E → tree_at (Val nullptr) h d shpd →
  _header_ptr s = Some hs → _header_ptr d = Some hd → hs ≠ hd →
  hs ∉ addrs shpd → hd ∉ addrs shps → (∀ b, b ∈ addrs shps → b ∉ addrs shpd) →
  bsize shps ≤ fuel → bsize shpd ≤ fuel →
  ∃ h' shp', tree.copy_assign fuel ZeroFilled d s h = Done (d, h') ∧
    tree_at (Val nullptr) h' d shp' ∧ same_values shps shp' ∧
    tree_at (Val nullptr) h' s shps ∧
    (∀ b, b ∈ addrs shp' → b ≠ hd ∧ (h !! b = None ∨ b ∈ addrs shpd)) ∧
    (∀ b, b ≠ hd → b ∉ addrs shpd → b ∉ addrs shp' → h' !! b = h !! b).
Proof.
  intros Hs Hne Hd Hhs Hhd Hsd Hs_d Hd_s Hdisj Hfs Hfd.
  assert (childless (Val nullptr)) as Hnil by (by right).
  destruct (run_clear _ _ _ _ Hd Hfd) as (hd' & hn & h1 & Hhd' & Hhn & Hclear & Hh1 & Hrest).
  assert (hd' = hd) as -> by congruence.
  assert (tree_at (Val nullptr) h1 s shps) as Hs1.
  { eapply tree_at_frame; [done|]. intros b [Hb|Hb].
    - assert (b = hs) as -> by congruence. rewrite Hrest by done. by rewrite decide_False.
    - rewrite Hrest by (by intros ->). rewrite decide_False; [done|by apply Hdisj]. }
  pose proof Hs1 as (hs' & hns & Hhs' & Hhns & Hroot & Hout & Hnd).
  assert (hs' = hs) as -> by congruence.
  destruct shps as [|l a v r]; [done|]. pose proof Hroot as (Hf & _). rewrite Hf in Hroot.
  destruct (bst_node_copy_shape _ fuel _ _ _ (Some hd) Hroot Hfs)
    as (c & h2 & shp' & Hcopy & Hshape' & Hsame & Hfresh & Hnd' & Hframe).
  assert (hd ∉ addrs shp') as Hhd_c.
  { intros Hin. specialize (Hfresh _ Hin). by rewrite Hh1 in Hfresh. }
  set (hn' := mk_node (data hn) (Val (Some c)) (left hn) (right hn)).
  exists (<[hd := hn']> h2), shp'. split_and!.
  - unfold tree.copy_assign. rewrite bool_decide_eq_false_2 by congruence.
    rewrite run_bind, Hclear, run_bind, (run_empty _ _ _ _ Hnil Hs1). red_run.
    unfold tree._root. rewrite Hhs, run_bind, (run_get_father _ _ _ Hhns), Hf. red_run.
    rewrite Hhd, run_bind, Hcopy, run_bind. unfold set_father.
    erewrite run_modify; [|by rewrite Hframe]. done.
  - exists hd, hn'. split_and!; [done|apply lookup_insert_eq| |done..].
    destruct shp' as [|l' c' v' r']; [done|]. pose proof Hshape' as ([= <-] & _).
    eapply shape_frame; [done|]. intros b Hb. apply lookup_insert_ne. by intros ->.
  - done.
  - eapply tree_at_frame; [exact Hs1|]. intros b Hb.
    assert (is_Some (h1 !! b)) as [n Hn].
    { destruct Hb as [Hb|Hb]; [assert (b = hs) as -> by congruence; by eexists|].
      by eapply shape_allocated. }
    assert (hd ≠ b) as Hbd.
    { intros <-. destruct Hb as [Hb|Hb]; [congruence|done]. }
    rewrite lookup_insert_ne by done. apply Hframe. intros Hin.
    specialize (Hfresh _ Hin). congruence.
  - intros b Hb. split; [by intros ->|]. specialize (Hfresh _ Hb).
    assert (b ≠ hd) as Hbd by (by intros ->). rewrite Hrest in Hfresh by done.
    destruct (decide (b ∈ addrs shpd)); [by right|by left].
  - intros b Hb Hb1 Hb2. rewrite lookup_insert_ne by done.
    rewrite Hframe, Hrest by done. by rewrite decide_False.
Qed.

(** A tree built after another one in the same heap, and its copy. *)
Lemma copy_assign_built k k' fuel vs ws h0 h1 h s d :
  tree.build k ZeroFilled vs h0 = Done (s, h1) → vs ≠ [] →
  tree.build k' ZeroFilled ws h1 = Done (d, h) →
  length vs ≤ fuel → length ws ≤ fuel →
  ∃ h' shp shp', tree.copy_assign fuel ZeroFilled d s h = Done (d, h') ∧
    tree_at (Val nullptr) h' d shp' ∧ shp' ≠ E ∧ bst shp' ∧
    (∀ y, y ∈ elems shp' ↔ y ∈ vs) ∧ bsize shp' ≤ length vs ∧
    tree_at (Val nullptr) h' s shp ∧ same_values shp shp' ∧
    (∀ b, b ∈ addrs shp' → h1 !! b = None) ∧
    (∀ b, is_Some (h1 !! b) → h' !! b = h1 !! b).
Proof.
  intros Hs Hvs Hd Hfs Hfd.
  destruct (build_shape _ _ _ _ _ _ Hs) as (shps & Hts & _ & Hbs & _ & Hszs & Hels & _).
  destruct (build_shape _ _ _ _ _ _ Hd) as (shpd & Htd & _ & _ & _ & Hszd & _ & Hown).
  change (raw_link ZeroFilled) with (Val nullptr) in *.
  destruct Hown as (hd & Hhd & Hhd1 & Hfree & Hsame).
  pose proof Hts as (hs & hns & Hhs & Hhns & Hroots & Houts & Hnds).
  assert (shps ≠ E) as Hne.
  { intros ->. destruct vs as [|w vs]; [done|].
    assert (w ∈ elems E) as Hw by (apply Hels; set_solver). by apply elem_of_nil in Hw. }
  assert (∀ b, b ∈ addrs shps → is_Some (h1 !! b)) as Halloc.
  { intros b Hb. destruct shps as [|l a v r]; [done|]. by eapply shape_allocated. }
  assert (hs ≠ hd) as Hsd by congruence.
  assert (hs ∉ addrs shpd) as Hs_d.
  { intros Hin. specialize (Hfree _ Hin). congruence. }
  assert (hd ∉ addrs shps) as Hd_s.
  { intros Hin. destruct (Halloc _ Hin). congruence. }
  assert (∀ b, b ∈ addrs shps → b ∉ addrs shpd) as Hdisj.
  { intros b Hb Hin. destruct (Halloc _ Hb). specialize (Hfree _ Hin). congruence. }
  assert (tree_at (Val nullptr) h s shps) as Hts'.
  { eapply tree_at_frame; [done|]. intros b [Hb|Hb].
    - assert (b = hs) as -> by congruence. by apply Hsame.
    - apply Hsame; [by intros ->|by apply Hdisj]. }
  destruct (copy_assign_shape fuel _ _ _ _ _ _ _ Hts' Hne Htd Hhs Hhd Hsd Hs_d Hd_s Hdisj
              ltac:(lia) ltac:(lia))
    as (h' & shp' & Hrun & Htd' & Hval & Hts'' & Hnew & Hframe).
  exists h', shps, shp'. split_and!; [done|done| | | | |done|done| |].
  - intros ->. destruct shps; [done|]. done.
  - by eapply same_values_bst.
  - intros y. by rewrite (same_values_elems _ _ Hval).
  - by rewrite (same_values_bsize _ _ Hval).
  - intros b Hb. destruct (Hnew _ Hb) as (Hbd & [Hn|Hin]).
    + destruct (decide (b ∈ addrs shpd)) as [Hin|Hout]; [by apply Hfree|].
      by rewrite <-Hsame.
    + by apply Hfree.
  - intros b [n Hb].
    assert (b ≠ hd) as Hbd by congruence.
    assert (b ∉ addrs shpd) as Hb1 by (intros Hin; specialize (Hfree _ Hin); congruence).
    rewrite Hframe, Hsame; [done..|].
    intros Hin. destruct (Hnew _ Hin) as (_ & [Hn|Hin']); [|done].
    rewrite Hsame in Hn by done. congruence.
Qed.

(** X18. Copy assignment.  [s] is a tree built by [insert] calls on
    zero-filled storage and [d] any tree built after it, empty or not.  Then
    [d = s] completes and returns [d]; the real nodes of [d] now hold exactly
    the values inserted into [s], ordered as a search tree with no element
    twice; every one of them is at an address that was free when [s] was
    complete, so [d] shares no node with [s]; and whatever was allocated when
    [s] was complete, the nodes of [s] among it, is as it was. *)
Theorem copy_assign_clones (k k' fuel : nat) (vs ws : list Z)
    (h0 h1 h : gmap addr bst_node) (s d : bstree) :
  tree.build k ZeroFilled vs h0 = Done (s, h1) → vs ≠ [] →
  tree.build k' ZeroFilled ws h1 = Done (d, h) →
  length vs ≤ fuel → length ws ≤ fuel →
  ∃ h', tree.copy_assign fuel ZeroFilled d s h = Done (d, h') ∧
    (∀ v, (∃ b, real_node h' d b ∧ holds h' b v) ↔ v ∈ vs) ∧
    bst_ordered h' d ∧ no_duplicates h' d ∧
    (∀ b, real_node h' d b → h1 !! b = None) ∧
    (∀ b, is_Some (h1 !! b) → h' !! b = h1 !! b).
Proof.
  intros Hs Hvs Hd Hfs Hfd.
  destruct (copy_assign_built _ _ _ _ _ _ _ _ _ _ Hs Hvs Hd Hfs Hfd)
    as (h' & shp & shp' & Hrun & Ht & Hne & Hb & Hel & Hsz & _ & _ & Hnew & Hold).
  assert (childless (Val nullptr)) as Hnil by (by right).
  exists h'. split; [done|]. split; [|split; [|split; [|split]]].
  - intros v. split.
    + intros (b & Hreal & Hv). apply Hel. eapply nodes_elem. by eapply real_holds_nodes.
    + intros Hv. apply Hel in Hv. unfold elems in Hv.
      apply list_elem_of_fmap in Hv as ([b v'] & -> & Hin). exists b. split.
      * apply (real_node_addrs _ _ _ _ _ Hnil Ht). by eapply nodes_addr.
      * by eapply tree_at_holds.
  - by apply (tree_at_ordered _ _ _ _ Hnil Ht).
  - by apply (tree_at_ordered _ _ _ _ Hnil Ht).
  - intros b Hreal. apply Hnew. by apply (real_node_addrs _ _ _ _ _ Hnil Ht).
  - done.
Qed.

(** [find] on a non-empty ordered tree, by the shape. *)
Lemma find_by_shape fuel h t shp v :
  tree_at (Val nullptr) h t shp → shp ≠ E → bst shp → bsize shp ≤ fuel →
  (v ∈ elems shp →
   ∃ b, tree.find fuel t v h = Done (mk_iterator (Some b), h) ∧ (b, v) ∈ nodes shp) ∧
  (v ∉ elems shp → tree.find fuel t v h = Done (mk_iterator (_header_ptr t), h)).
Proof.
  intros Ht Hne Hb Hfuel.
  pose proof Ht as (hdr & hn & Hhdr & Hhn & Hroot & Hout & Hnd).
  destruct shp as [|l a x r]; [done|].
  pose proof Hroot as (Hf & _). rewrite Hf in Hroot.
  split.
  - intros Hv.
    destruct (find_loop_present _ _ v _ fuel _ _ Hroot Hb Hv Hfuel) as (b & Hfind & Hin).
    exists b. split; [|done]. unfold tree.find, tree._root.
    rewrite Hhdr, run_bind, (run_get_father _ _ _ Hhn), Hf. red_run.
    by rewrite run_bind, Hfind.
  - intros Hv. unfold tree.find, tree._root.
    rewrite Hhdr, run_bind, (run_get_father _ _ _ Hhn), Hf. red_run.
    rewrite run_bind, (find_loop_spec _ _ _ fuel _ _ Hroot Hfuel). red_run.
    destruct (bfind v (N l a x r)) as [b|] eqn:Hfind;
      [|unfold tree.end_; by rewrite Hhdr].
    by apply bfind_Some, nodes_elem in Hfind.
Qed.

(** X19. Looking up in a copy.  After [d = s], with [s] and [d] as above,
    [find] on [d] answers a node of [d] holding the value for every value that
    was inserted into [s], and [end()] of [d] for every other value,
    whatever [d] held before. *)
Theorem find_in_copy (k k' fuel : nat) (vs ws : list Z)
    (h0 h1 h : gmap addr bst_node) (s d : bstree) (v : Z) :
  tree.build k ZeroFilled vs h0 = Done (s, h1) → vs ≠ [] →
  tree.build k' ZeroFilled ws h1 = Done (d, h) →
  length vs ≤ fuel → length ws ≤ fuel →
  ∃ h', tree.copy_assign fuel ZeroFilled d s h = Done (d, h') ∧
    (v ∈ vs → ∃ b, tree.find fuel d v h' = Done (mk_iterator (Some b), h') ∧
                   real_node h' d b ∧ holds h' b v) ∧
    (v ∉ vs → tree.find fuel d v h' = tree.end_ d h').
Proof.
  intros Hs Hvs Hd Hfs Hfd.
  destruct (copy_assign_built _ _ _ _ _ _ _ _ _ _ Hs Hvs Hd Hfs Hfd)
    as (h' & shp & shp' & Hrun & Ht & Hne & Hb & Hel & Hsz & _).
  assert (childless (Val nullptr)) as Hnil by (by right).
  destruct (find_by_shape fuel _ _ _ v Ht Hne Hb ltac:(lia)) as (Hin & Hout).
  exists h'. split; [done|]. split.
  - intros Hv. destruct (Hin ltac:(by apply Hel)) as (b & Hfind & Hnode).
    exists b. split_and!; [done| |by eapply tree_at_holds].
    apply (real_node_addrs _ _ _ _ _ Hnil Ht). by eapply nodes_addr.
  - intros Hv. rewrite Hout; [done|]. intros Hv'. by apply Hv, Hel.
Qed.

(** ** Moving a node *)

(** X20. The move constructor on a node with two distinct children, on
    either kind of storage: the new node is at an address that was free, takes
    the element and both children, and becomes the father of both; the source
    keeps its element and its father and loses both links, so that destroying
    it afterwards frees the source alone; nothing else changes. *)
Theorem move_transfers_children (st : storage) (h : gmap addr bst_node)
    (other l r : addr) (pf : option addr) (v : Z) (fo : slot (option addr))
    (nl nr : bst_node) :
  h !! other = Some (mk_node (Val v) fo (Val (Some l)) (Val (Some r))) →
  h !! l = Some nl → h !! r = Some nr → l ≠ r → l ≠ other → r ≠ other →
  ∃ c h', bst_node_move st (Some other) pf h = Done (Some c, h') ∧ h !! c = None ∧
    h' !! c = Some (mk_node (Val v) (Val pf) (Val (Some l)) (Val (Some r))) ∧
    h' !! l = Some (mk_node (data nl) (Val (Some c)) (left nl) (right nl)) ∧
    h' !! r = Some (mk_node (data nr) (Val (Some c)) (left nr) (right nr)) ∧
    h' !! other = Some (mk_node (Val v) fo (Val nullptr) (Val nullptr)) ∧
    (∀ b, b ≠ c → b ≠ l → b ≠ r → b ≠ other → h' !! b = h !! b) ∧
    bst_node_delete 1 (Some other) h' = Done (tt, delete other h').
Proof.
  intros Ho Hl Hr Hlr Hlo Hro.
  pose proof (fresh_ne _ _ _ Ho) as Hoc. pose proof (fresh_ne _ _ _ Hl) as Hlc.
  pose proof (fresh_ne _ _ _ Hr) as Hrc.
  unfold bst_node_move, operator_new. rewrite run_bind. cbv zeta. red_run.
  set (c := fresh (dom h)) in *.
  assert (h !! c = None) as Hc by apply fresh_unused.
  assert (∀ n, <[c := n]> h !! other = Some (mk_node (Val v) fo (Val (Some l)) (Val (Some r))))
    as Ho' by (intros n; by rewrite lookup_insert_ne).
  rewrite run_bind, (run_get_data _ _ _ (Ho' _)). cbn [data]. red_run.
  unfold set_data, set_father, set_left, set_right.
  rewrite run_bind. erewrite run_modify; [|apply lookup_insert_eq]. red_run.
  rewrite run_bind. erewrite run_modify; [|apply lookup_insert_eq]. red_run.
  rewrite !insert_insert_eq.
  rewrite run_bind, (run_get_left _ _ _ (Ho' _)). cbn [left]. red_run.
  rewrite run_bind. erewrite run_modify; [|apply lookup_insert_eq]. red_run.
  rewrite !insert_insert_eq.
  rewrite run_bind, (run_get_right _ _ _ (Ho' _)). cbn [right]. red_run.
  rewrite run_bind. erewrite run_modify; [|apply lookup_insert_eq]. red_run.
  rewrite !insert_insert_eq. cbn [raw_node data father left right].
  set (nc := mk_node (Val v) (Val pf) (Val (Some l)) (Val (Some r))).
  rewrite run_bind. erewrite run_get_right; [|apply lookup_insert_eq]. cbn [nc right]. red_run.
  fold nc.
  rewrite run_bind. erewrite run_modify; [|by rewrite lookup_insert_ne]. red_run.
  rewrite run_bind. erewrite run_get_left;
    [|rewrite lookup_insert_ne by done; apply lookup_insert_eq]. cbn [nc left]. red_run.
  fold nc.
  rewrite run_bind. erewrite run_modify; [|by rewrite !lookup_insert_ne]. red_run.
  rewrite run_bind. erewrite run_modify; [|by rewrite !lookup_insert_ne]. red_run.
  rewrite run_bind. erewrite run_modify; [|apply lookup_insert_eq]. red_run.
  rewrite insert_insert_eq. cbn [data father left right]. rewrite run_ret.
  eexists c, _. split; [reflexivity|]. split; [done|].
  split_and!.
  - do 3 rewrite lookup_insert_ne by done. apply lookup_insert_eq.
  - rewrite lookup_insert_ne by done. apply lookup_insert_eq.
  - do 2 rewrite lookup_insert_ne by done. apply lookup_insert_eq.
  - apply lookup_insert_eq.
  - intros b Hbc Hbl Hbr Hbo. by do 4 rewrite lookup_insert_ne by done.
  - simpl. rewrite run_bind. erewrite run_get_left; [|apply lookup_insert_eq]. cbn [left]. red_run.
    rewrite run_bind, run_ret.
    rewrite run_bind. erewrite run_get_right; [|apply lookup_insert_eq]. cbn [right]. red_run.
    rewrite run_bind, run_ret. unfold operator_delete. by rewrite lookup_insert_eq.
Qed.

(** ** Assigning from an empty tree *)

(** X21. Copy assignment from an empty tree.  [s] is freshly constructed, on
    either kind of storage, and [d] is built after it by [insert] calls on
    zero-filled storage.  Then [d = s] completes, deallocates every node of
    [d] and leaves [d] empty; the header of [d] stays allocated and whatever
    is neither that header nor a node of [d] is as it was. *)
Theorem copy_assign_from_empty (st st' : storage) (k fuel : nat) (vs : list Z)
    (h0 h1 h : gmap addr bst_node) (s d : bstree) :
  tree.create st h0 = Done (s, h1) →
  tree.build k ZeroFilled vs h1 = Done (d, h) → length vs ≤ fuel →
  ∃ hd h', _header_ptr d = Some hd ∧
    tree.copy_assign fuel st' d s h = Done (d, h') ∧
    tree.empty d h' = Done (true, h') ∧ is_Some (h' !! hd) ∧
    (∀ b, real_node h d b → h' !! b = None) ∧
    (∀ b, b ≠ hd → ¬ real_node h d b → h' !! b = h !! b).
Proof.
  intros Hs Hd Hfuel.
  assert (childless (Val nullptr)) as Hnil by (by right).
  destruct (create_tree_at _ (Val nullptr) _ _ _ Hs) as (Hts & _).
  destruct (build_shape _ _ _ _ _ _ Hd) as (shpd & Htd & _ & _ & _ & Hszd & _ & Hown).
  change (raw_link ZeroFilled) with (Val nullptr) in *.
  destruct Hown as (hd & Hhd & Hhd1 & Hfree & Hsame).
  pose proof Hts as (hs & hns & Hhs & Hhns & _).
  assert (hs ≠ hd) as Hsd by congruence.
  assert (hs ∉ addrs shpd) as Hs_d.
  { intros Hin. specialize (Hfree _ Hin). congruence. }
  destruct (run_clear fuel _ _ _ Htd ltac:(lia))
    as (hd' & hn & h' & Hhd' & Hhn & Hclear & Hh' & Hrest).
  assert (hd' = hd) as -> by congruence.
  assert (tree_at (Val nullptr) h' s E) as Hts'.
  { eapply tree_at_frame; [exact Hts|]. intros b [Hb|Hb]; [|by apply elem_of_nil in Hb].
    assert (b = hs) as -> by congruence.
    rewrite Hrest by done. rewrite decide_False by done. by apply Hsame. }
  exists hd, h'. split_and!; [done| | |by eexists| |].
  - unfold tree.copy_assign. rewrite bool_decide_eq_false_2 by congruence.
    rewrite run_bind, Hclear, run_bind, (run_empty _ _ _ _ Hnil Hts'). by red_run.
  - unfold tree.empty, tree._root. rewrite Hhd, run_bind, (run_get_father _ _ _ Hh').
    cbn [father]. red_run. by rewrite run_ret, bool_decide_eq_true_2.
  - intros b Hb. apply (real_node_addrs _ _ _ _ _ Hnil Htd) in Hb.
    pose proof Htd as (hd' & _ & Hhd'' & _ & _ & Hout & _).
    assert (hd' = hd) as -> by congruence.
    rewrite Hrest by (by intros ->). by rewrite decide_True.
  - intros b Hb Hreal. rewrite Hrest by done. rewrite decide_False; [done|].
    intros Hin. by apply Hreal, (real_node_addrs _ _ _ _ _ Hnil Htd).
Qed.

(** ** Walking from the first node to the last *)

Section chains.
Context {A : Type}.
Implicit Types (R : A → A → Prop) (l : list A).

Lemma chain_mono R R' x l :
  (∀ a b, R a b → R' a b) → chain R x l → chain R' x l.
Proof.
  intros HR. revert x. induction l as [|y l IH]; intros x; simpl; [done|].
  intros (Hxy & Hl). split; [by apply HR|by apply IH].
Qed.

Lemma chain_app R x l1 y l2 :
  chain R x l1 → R (default x (last l1)) y → chain R y l2 → chain R x (l1 ++ y :: l2).
Proof.
  revert x. induction l1 as [|z l1 IH]; intros x; simpl.
  - intros _ Hxy Hl2. done.
  - intros (Hxz & Hl1) Hlast Hl2. split; [done|]. apply IH; [done| |done].
    destruct l1 as [|z' l1]; [done|].
    change (last (z :: z' :: l1)) with (last (z' :: l1)) in Hlast.
    destruct (last (z' :: l1)) eqn:E'; [done|]. by apply last_None in E'.
Qed.

End chains.

Lemma leftmost_head t : leftmost t = head (nodes t).
Proof.
  induction t as [|l IHl a v r _]; simpl; [done|]. rewrite IHl.
  by destruct (nodes l).
Qed.

Lemma rightmost_last t : rightmost t = last (nodes t).
Proof.
  induction t as [|l _ a v r IHr]; simpl; [done|]. rewrite IHr, last_app.
  destruct (nodes r) as [|m ms]; [done|].
  change (last ((a, v) :: m :: ms)) with (last (m :: ms)).
  destruct (last (m :: ms)) eqn:E'; [done|]. by apply last_None in E'.
Qed.

(** The nodes of a shape, in the order of [nodes], follow one another. *)
Lemma nodes_chain t :
  match nodes t with [] => True | m :: ms => chain (next t) m ms end.
Proof.
  induction t as [|l IHl a v r IHr]; simpl; [done|].
  assert (chain (next (N l a v r)) (a, v) (nodes r)) as Hr.
  { pose proof (leftmost_head r) as Hh.
    destruct (nodes r) as [|m' ms']; simpl; [done|]. split.
    - by apply next_down.
    - eapply chain_mono; [|exact IHr]. intros ? ?. apply next_right. }
  pose proof (rightmost_last l) as Hlast.
  destruct (nodes l) as [|m ms]; simpl; [done|].
  apply chain_app; [| |done].
  2:{ apply next_up. rewrite Hlast, last_cons. by destruct (last ms). }
  eapply chain_mono; [|exact IHl]. intros ? ?. apply next_left.
Qed.

Lemma bst_sorted t : bst t → StronglySorted Z.lt (elems t).
Proof.
  induction t as [|l IHl a v r IHr]; simpl; [intros _; apply SSorted_nil|].
  intros (Hlt & Hgt & Hbl & Hbr). rewrite elems_N.
  apply StronglySorted_app_2; [|by apply IHl|apply SSorted_cons; [by apply IHr|done]].
  intros x1 x2 H1 H2. eapply Forall_forall in Hlt; [|exact H1]. simpl in Hlt.
  apply elem_of_cons in H2 as [->|H2]; [done|].
  eapply Forall_forall in Hgt; [|exact H2]. simpl in Hgt. lia.
Qed.

Lemma traverse_S fuel steps it e :
  traverse fuel (S steps) it e =
  if iterator.eq it e then ret []
  else (d ← iterator.star it;
        it' ← iterator.increment fuel it;
        rest ← traverse fuel steps it' e;
        ret (d :: rest)).
Proof. reflexivity. Qed.

(** The client loop along a chain of nodes that ends at [e]. *)
Lemma traverse_chain fuel h shp a f e :
  shape (Val nullptr) h (Val (Some a)) f shp → NoDup (addrs shp) → bsize shp ≤ fuel →
  ∀ ms m steps, chain (next shp) m (ms ++ [e]) → m ∈ nodes shp →
    Forall (λ x, x.1 ≠ e.1) (m :: ms) → length (m :: ms) ≤ steps →
    traverse fuel steps (mk_iterator (Some m.1)) (mk_iterator (Some e.1)) h =
    Done ((m :: ms).*2, h).
Proof.
  intros Hs Hnd Hfuel.
  assert (∀ m m' steps rest, next shp m m' → m ∈ nodes shp → m.1 ≠ e.1 →
            traverse fuel steps (mk_iterator (Some m'.1)) (mk_iterator (Some e.1)) h =
              Done (rest, h) →
            traverse fuel (S steps) (mk_iterator (Some m.1)) (mk_iterator (Some e.1)) h =
              Done (m.2 :: rest, h)) as Hstep.
  { intros [b v] m' steps rest Hn Hin Hne Hrest.
    destruct (shape_lookup _ _ _ _ _ _ _ Hs Hin) as (n & Hb & Hd & _).
    rewrite traverse_S. unfold iterator.eq. cbn [_ptr fst]. cbn [fst] in Hne.
    rewrite bool_decide_eq_false_2 by congruence.
    unfold iterator.star. cbn [_ptr fst].
    rewrite run_bind, (run_get_data _ _ _ Hb), Hd. red_run.
    pose proof (increment_next _ _ _ _ Hn _ _ _ Hs Hnd Hfuel) as Hinc. cbn [fst] in Hinc.
    rewrite run_bind, Hinc. by rewrite run_bind, Hrest. }
  induction ms as [|m' ms IH]; intros m steps Hch Hin Hall Hsteps;
    (destruct steps as [|steps]; [simpl in Hsteps; lia|]);
    apply Forall_cons in Hall as (Hne & Hall); simpl in Hch; destruct Hch as (Hn & Hch).
  - rewrite fmap_cons. apply (Hstep m e steps []); [done..|]. apply traverse_at_end.
  - rewrite fmap_cons. apply (Hstep m m' steps ((m' :: ms).*2)); [done..|].
    apply IH; [done| |done|simpl in *; lia].
    by apply next_in in Hn as (_ & ?).
Qed.

(** X22. The client loop between the two ends of a tree.  On a tree ordered
    as a search tree whose absent child links are null, the loop that starts
    at the node holding the least element and applies [++] until it meets the
    node holding the greatest element completes without changing the heap; the
    elements it yields, followed by the greatest one, are in strictly
    ascending order and are exactly the elements the real nodes hold. *)
Theorem traverse_ascending (fuel steps : nat) (h : gmap addr bst_node)
    (t : bstree) (shp : btree) (b e : addr) (lo hi : Z) :
  tree_at (Val nullptr) h t shp → bst shp → bsize shp ≤ fuel → bsize shp ≤ steps →
  real_node h t b → holds h b lo →
  (∀ c u, real_node h t c → holds h c u → (lo ≤ u)%Z) →
  real_node h t e → holds h e hi →
  (∀ c u, real_node h t c → holds h c u → (u ≤ hi)%Z) →
  ∃ l, traverse fuel steps (mk_iterator (Some b)) (mk_iterator (Some e)) h = Done (l, h) ∧
    StronglySorted Z.lt (l ++ [hi]) ∧
    ∀ v, v ∈ l ++ [hi] ↔ ∃ c, real_node h t c ∧ holds h c v.
Proof.
  intros Ht Hb Hfuel Hsteps Hrb Hlo Hmin Hre Hhi Hmax.
  assert (childless (Val nullptr)) as Hnil by (by right).
  pose proof (real_holds_nodes _ _ _ _ _ _ Hnil Ht Hrb Hlo) as Hbin.
  pose proof (real_holds_nodes _ _ _ _ _ _ Hnil Ht Hre Hhi) as Hein.
  assert (∀ v, v ∈ elems shp ↔ ∃ c, real_node h t c ∧ holds h c v) as Hheld.
  { intros v. split.
    - intros Hv. unfold elems in Hv.
      apply list_elem_of_fmap in Hv as ([c v'] & -> & Hin). exists c. split.
      + apply (real_node_addrs _ _ _ _ _ Hnil Ht). by eapply nodes_addr.
      + by eapply tree_at_holds.
    - intros (c & Hc & Hv). eapply nodes_elem. by eapply real_holds_nodes. }
  assert (∀ c u, (c, u) ∈ nodes shp → (lo ≤ u ≤ hi)%Z) as Hbounds.
  { intros c u Hin. apply nodes_elem, Hheld in Hin as (c' & Hc' & Hu). split; eauto. }
  (* the two ends *)
  assert (head (nodes shp) = Some (b, lo)) as Hhead.
  { rewrite <-leftmost_head. destruct (leftmost shp) as [[x wx]|] eqn:Hlm;
      [|apply leftmost_E in Hlm; subst; by apply elem_of_nil in Hbin].
    pose proof (leftmost_in _ _ Hlm) as Hxin.
    pose proof (bst_leftmost_min _ _ _ Hb Hlm lo ltac:(by eapply nodes_elem)).
    pose proof (Hbounds _ _ Hxin). assert (wx = lo) as -> by lia.
    f_equal. f_equal. by apply (nodes_same_elem (nodes shp) x b lo); [apply bst_elems_NoDup|..]. }
  assert (last (nodes shp) = Some (e, hi)) as Hlast.
  { rewrite <-rightmost_last. destruct (rightmost shp) as [[y wy]|] eqn:Hrm;
      [|apply rightmost_E in Hrm; subst; by apply elem_of_nil in Hein].
    pose proof (rightmost_in _ _ Hrm) as Hyin.
    pose proof (bst_rightmost_max _ _ _ Hb Hrm hi ltac:(by eapply nodes_elem)).
    pose proof (Hbounds _ _ Hyin). assert (wy = hi) as -> by lia.
    f_equal. f_equal. by apply (nodes_same_elem (nodes shp) y e hi); [apply bst_elems_NoDup|..]. }
  apply last_Some in Hlast as (pre & Hnodes).
  assert (elems shp = pre.*2 ++ [hi]) as Hel.
  { unfold elems. by rewrite Hnodes, fmap_app. }
  exists pre.*2. rewrite <-Hel. split; [|split; [by apply bst_sorted|done]].
  pose proof (nodes_chain shp) as Hch. rewrite Hnodes in Hch, Hhead.
  destruct pre as [|m0 ms].
  - simpl in Hhead. injection Hhead as <-. apply traverse_at_end.
  - simpl in Hhead. injection Hhead as ->. simpl in Hch.
    pose proof Ht as (hdr & hn & Hhdr & Hhn & Hroot & Hout & Hnd).
    destruct shp as [|l a x r]; [by apply elem_of_nil in Hbin|].
    pose proof Hroot as (Hf & _). rewrite Hf in Hroot.
    apply (traverse_chain fuel h _ _ _ (e, hi) Hroot Hnd Hfuel ms (b, lo) steps Hch Hbin).
    + unfold addrs in Hnd. rewrite Hnodes in Hnd.
      rewrite fmap_app in Hnd. apply NoDup_app in Hnd as (_ & Hdis & _).
      apply Forall_forall. intros x' Hx' Heq. apply (Hdis x'.1).
      * by apply list_elem_of_fmap_2.
      * rewrite Heq. simpl. set_solver.
    + rewrite <-length_addrs in Hsteps. unfold addrs in Hsteps.
      rewrite Hnodes, length_fmap, length_app in Hsteps. simpl in *. lia.
Qed.

(** ** [clear] on indeterminate storage *)

Lemma bst_node_delete_eq fuel a :
  bst_node_delete (S fuel) (Some a) =
  (l ← get_left (Some a);
   bst_node_delete fuel l;;
   r ← get_right (Some a);
   bst_node_delete fuel r;;
   operator_delete (Some a)).
Proof. reflexivity. Qed.

(** Destroying a subtree whose absent links were never written: the walk
    down the left links ends at a link that is indeterminate. *)
Lemma bst_node_delete_indet t : ∀ fuel h a f,
  shape Indet h (Val (Some a)) f t →
  (bsize t ≤ fuel → bst_node_delete fuel (Some a) h = Undefined) ∧
  (bst_node_delete fuel (Some a) h = Undefined ∨
   bst_node_delete fuel (Some a) h = OutOfFuel).
Proof.
  induction t as [|l IHl a' v r _]; intros fuel h a f Hs; [done|].
  simpl in Hs. destruct Hs as ([= <-] & sl & sr & Ha & Hl & _).
  destruct fuel as [|fuel]; [split; [simpl; lia|by right]|].
  rewrite bst_node_delete_eq, run_bind, (run_get_left _ _ _ Ha). cbn [left].
  destruct l as [|ll la lv lr].
  - simpl in Hl. subst sl. split; [done|by left].
  - pose proof Hl as (-> & _). red_run. rewrite run_bind.
    destruct (IHl fuel _ _ _ Hl) as (Hund & Hnever). split.
    + intros Hfuel. rewrite Hund; [done|]. simpl in *. lia.
    + destruct Hnever as [-> | ->]; [by left|by right].
Qed.

(** C8. On the storage the language gives, a tree that [insert] has made
    non-empty is not cleared: [empty] answers false and [clear] reads a child
    link of a leaf that the leaf constructor never wrote, so it is undefined as
    soon as the fuel covers the number of inserts and completes for no amount
    of fuel.  No node is destroyed and the root is not reset. *)
Theorem clear_after_insert_undefined (fuel k : nat) (vs : list Z)
    (h0 h : gmap addr bst_node) (t : bstree) :
  tree.build fuel Indeterminate vs h0 = Done (t, h) → vs ≠ [] →
  tree.empty t h = Done (false, h) ∧
  (length vs ≤ k → tree.clear k t h = Undefined) ∧
  (∀ r, tree.clear k t h ≠ Done r).
Proof.
  intros Hrun Hvs.
  destruct (build_shape _ _ _ _ _ _ Hrun) as (shp & Ht & _ & _ & _ & Hsz & Hel & _).
  change (raw_link Indeterminate) with (@Indet (option addr)) in Ht.
  assert (childless (@Indet (option addr))) as Hnil by (by left).
  assert (shp ≠ E) as Hne.
  { intros ->. destruct vs as [|w vs]; [done|].
    assert (w ∈ elems E) as Hw by (apply Hel; set_solver). by apply elem_of_nil in Hw. }
  pose proof (run_empty _ _ _ _ Hnil Ht) as Hempty.
  pose proof Ht as (hdr & hn & Hhdr & Hhn & Hroot & _).
  destruct shp as [|l a v r]; [done|]. split; [done|].
  pose proof Hroot as (Hf & _). rewrite Hf in Hroot.
  destruct (bst_node_delete_indet _ k _ _ _ Hroot) as (Hund & Hnever).
  assert (∀ o, bst_node_delete k (Some a) h = o → (∀ r, o ≠ Done r) →
            tree.clear k t h = match o with OutOfFuel => OutOfFuel | _ => Undefined end)
    as Hclear.
  { intros o Ho Hno. unfold tree.clear. rewrite run_bind, Hempty. red_run.
    unfold tree._root at 1. rewrite Hhdr, run_bind, (run_get_father _ _ _ Hhn), Hf. red_run.
    rewrite run_bind, Ho. destruct o as [r0| |]; [by destruct (Hno r0)|done..]. }
  split.
  - intros Hk. rewrite (Hclear Undefined); [done|apply Hund; lia|done].
  - intros r0. destruct Hnever as [Hn|Hn].
    + by rewrite (Hclear Undefined).
    + by rewrite (Hclear OutOfFuel).
Qed.

(** * Worked instances *)

Lemma bst_5_3_8 : bst shape_5_3_8.
Proof. simpl. split_and!; repeat constructor; simpl; lia. Qed.

Lemma real_5_3_8 sz b :
  b ∈ addrs shape_5_3_8 → real_node heap_5_3_8 (mk_bstree (Some 0) sz) b.
Proof.
  intros Hb. apply (real_node_addrs (Val nullptr) _ _ shape_5_3_8); [by right|apply tree_at_5_3_8|].
  exact Hb.
Qed.

Lemma holds_5_3_8 b v :
  (b, v) ∈ nodes shape_5_3_8 → holds heap_5_3_8 b v.
Proof. intros Hb. by apply (tree_at_holds _ _ _ _ _ _ (tree_at_5_3_8 0)). Qed.

Lemma all_le_8 u : u ∈ [5; 3; 8]%Z → (u ≤ 8)%Z.
Proof. intros Hu. repeat (apply elem_of_cons in Hu as [->|Hu]; [lia|]). by apply elem_of_nil in Hu. Qed.

Lemma all_ge_3 u : u ∈ [5; 3; 8]%Z → (3 ≤ u)%Z.
Proof. intros Hu. repeat (apply elem_of_cons in Hu as [->|Hu]; [lia|]). by apply elem_of_nil in Hu. Qed.

Lemma build_leaf_5 :
  tree.build 1 Indeterminate [5%Z] ∅ =
  Done (mk_bstree (Some 0) 0,
        list_to_map
          [ (0, mk_node Indet (Val (Some 1)) (Val (Some 1)) (Val (Some 1)));
            (1, mk_node (Val 5%Z) (Val (Some 0)) Indet Indet) ]).
Proof. vm_compute. reflexivity. Qed.

Lemma destroy_frees_tree_and_header_witness :
  ∃ hdr h', _header_ptr (mk_bstree (Some 0) 0) = Some hdr ∧
    tree.destroy 4 (mk_bstree (Some 0) 0) heap_5_3_8 = Done (tt, h') ∧
    h' !! hdr = None ∧
    (∀ b, real_node heap_5_3_8 (mk_bstree (Some 0) 0) b → h' !! b = None) ∧
    (∀ b, b ≠ hdr → ¬ real_node heap_5_3_8 (mk_bstree (Some 0) 0) b →
          h' !! b = heap_5_3_8 !! b).
Proof.
  apply (destroy_frees_tree_and_header 4 heap_5_3_8 (mk_bstree (Some 0) 0) shape_5_3_8).
  - apply tree_at_5_3_8.
  - simpl. lia.
Defined.

Lemma lifetime_restores_heap_witness :
  (t ← tree.build 3 ZeroFilled [5; 3; 8]%Z; tree.destroy 4 t) ∅ = Done (tt, ∅) ∧
  ∀ st, (t ← tree.create st; tree.destroy 4 t) ∅ = Done (tt, ∅).
Proof. apply (lifetime_restores_heap 3 4 [5; 3; 8]%Z ∅); simpl; lia. Defined.

Lemma clear_then_insert_witness :
  ∃ h1, tree.clear 3 (mk_bstree (Some 0) 0) heap_5_3_8 = Done (mk_bstree (Some 0) 0, h1) ∧
    (shape_5_3_8 = E → h1 = heap_5_3_8) ∧
    ∀ st k x, ∃ n h2,
      tree.insert k st (mk_bstree (Some 0) 0) x h1 = Done (mk_bstree (Some 0) 0, h2) ∧
      h1 !! n = None ∧ holds h2 n x ∧
      tree._root (mk_bstree (Some 0) 0) h2 = Done (Some n, h2) ∧
      (∀ b, real_node h2 (mk_bstree (Some 0) 0) b → b = n) ∧
      tree.front (mk_bstree (Some 0) 0) h2 = Done (x, h2) ∧
      tree.back (mk_bstree (Some 0) 0) h2 = Done (x, h2) ∧
      tree.empty (mk_bstree (Some 0) 0) h2 = Done (false, h2).
Proof.
  apply (clear_then_insert 3 heap_5_3_8 (mk_bstree (Some 0) 0) shape_5_3_8).
  - apply tree_at_5_3_8.
  - simpl. lia.
Defined.

Lemma insert_present_changes_nothing_witness :
  tree.insert 3 ZeroFilled (mk_bstree (Some 0) 0) 3%Z heap_5_3_8 =
  Done (mk_bstree (Some 0) 0, heap_5_3_8).
Proof.
  apply (insert_present_changes_nothing ZeroFilled 3 3 [5; 3; 8]%Z ∅).
  - exact build_5_3_8.
  - by_compute.
  - simpl. lia.
Defined.

Lemma insert_new_value_adds_one_node_witness :
  ∃ n h', tree.insert 3 ZeroFilled (mk_bstree (Some 0) 0) 7%Z heap_5_3_8 =
            Done (mk_bstree (Some 0) 0, h') ∧
    heap_5_3_8 !! n = None ∧ real_node h' (mk_bstree (Some 0) 0) n ∧ holds h' n 7%Z ∧
    (∀ b w, real_node heap_5_3_8 (mk_bstree (Some 0) 0) b → holds heap_5_3_8 b w →
            real_node h' (mk_bstree (Some 0) 0) b ∧ holds h' b w) ∧
    (∀ b, b ≠ n → Some b ≠ _header_ptr (mk_bstree (Some 0) 0) →
          ¬ real_node heap_5_3_8 (mk_bstree (Some 0) 0) b → h' !! b = heap_5_3_8 !! b).
Proof.
  apply (insert_new_value_adds_one_node 3 3 [5; 3; 8]%Z ∅).
  - exact build_5_3_8.
  - by_compute.
  - simpl. lia.
Defined.

Lemma find_after_inserts_witness :
  (∃ b, tree.find 3 (mk_bstree (Some 0) 0) 3%Z heap_5_3_8 =
          Done (mk_iterator (Some b), heap_5_3_8) ∧
        real_node heap_5_3_8 (mk_bstree (Some 0) 0) b ∧ holds heap_5_3_8 b 3%Z) ∧
  tree.find 3 (mk_bstree (Some 0) 0) 7%Z heap_5_3_8 =
    Done (mk_iterator (Some 0), heap_5_3_8).
Proof.
  split.
  - apply (find_after_inserts ZeroFilled 3 3 [5; 3; 8]%Z ∅ heap_5_3_8 _ 3%Z build_5_3_8);
      [simpl; lia|by_compute].
  - apply (find_after_inserts ZeroFilled 3 3 [5; 3; 8]%Z ∅ heap_5_3_8 _ 7%Z build_5_3_8);
      [simpl; lia|done|done|by_compute].
Defined.

Lemma increment_gives_next_greater_witness :
  ∃ c w, iterator.increment 3 (mk_iterator (Some 2)) heap_5_3_8 =
           Done (mk_iterator (Some c), heap_5_3_8) ∧
    real_node heap_5_3_8 (mk_bstree (Some 0) 0) c ∧ holds heap_5_3_8 c w ∧ (3 < w)%Z ∧
    ∀ d u, real_node heap_5_3_8 (mk_bstree (Some 0) 0) d → holds heap_5_3_8 d u →
           (3 < u)%Z → (w ≤ u)%Z.
Proof.
  apply (increment_gives_next_greater 3 heap_5_3_8 (mk_bstree (Some 0) 0) shape_5_3_8 2 3%Z).
  - apply tree_at_5_3_8.
  - exact bst_5_3_8.
  - simpl. lia.
  - apply real_5_3_8. by_compute.
  - apply holds_5_3_8. by_compute.
  - exists 1, 5%Z. split; [apply real_5_3_8; by_compute|].
    split; [apply holds_5_3_8; by_compute|lia].
Defined.

Lemma increment_at_greatest_witness :
  iterator.increment 3 (mk_iterator (Some 3)) heap_5_3_8 =
  tree.end_ (mk_bstree (Some 0) 0) heap_5_3_8.
Proof.
  apply (increment_at_greatest 3 3 5%Z [3; 8]%Z ∅ heap_5_3_8 (mk_bstree (Some 0) 0) 3 8%Z).
  - exact build_5_3_8.
  - simpl. lia.
  - apply real_5_3_8. by_compute.
  - apply holds_5_3_8. by_compute.
  - exact all_le_8.
  - lia.
Defined.

Lemma visit_built_tree_witness :
  ∃ w, w ∈ [3; 8]%Z ∧ (∀ u, u ∈ [5; 3; 8]%Z → (u ≤ w)%Z) ∧
       ∀ steps, visit 3 (S steps) (mk_bstree (Some 0) 0) heap_5_3_8 = Done ([w], heap_5_3_8).
Proof.
  apply (visit_built_tree 3 3 5%Z [3; 8]%Z ∅ heap_5_3_8 (mk_bstree (Some 0) 0)).
  - exact build_5_3_8.
  - simpl. lia.
  - exists 8%Z. split; [by_compute|lia].
Defined.

Lemma decrement_gives_next_smaller_witness :
  ∃ c w, iterator.decrement 3 (mk_iterator (Some 3)) heap_5_3_8 =
           Done (mk_iterator (Some c), heap_5_3_8) ∧
    real_node heap_5_3_8 (mk_bstree (Some 0) 0) c ∧ holds heap_5_3_8 c w ∧ (w < 8)%Z ∧
    ∀ d u, real_node heap_5_3_8 (mk_bstree (Some 0) 0) d → holds heap_5_3_8 d u →
           (u < 8)%Z → (u ≤ w)%Z.
Proof.
  apply (decrement_gives_next_smaller 3 heap_5_3_8 (mk_bstree (Some 0) 0) shape_5_3_8 3 8%Z).
  - apply tree_at_5_3_8.
  - exact bst_5_3_8.
  - simpl. lia.
  - apply real_5_3_8. by_compute.
  - apply holds_5_3_8. by_compute.
  - exists 1, 5%Z. split; [apply real_5_3_8; by_compute|].
    split; [apply holds_5_3_8; by_compute|lia].
Defined.

Lemma decrement_at_least_witness :
  iterator.decrement 3 (mk_iterator (Some 2)) heap_5_3_8 =
  tree.end_ (mk_bstree (Some 0) 0) heap_5_3_8.
Proof.
  apply (decrement_at_least 3 3 5%Z [3; 8]%Z ∅ heap_5_3_8 (mk_bstree (Some 0) 0) 2 3%Z).
  - exact build_5_3_8.
  - simpl. lia.
  - apply real_5_3_8. by_compute.
  - apply holds_5_3_8. by_compute.
  - exact all_ge_3.
  - lia.
Defined.

Lemma decrement_from_end_witness :
  ∃ c w, (e ← tree.end_ (mk_bstree (Some 0) 0); iterator.decrement 3 e) heap_5_3_8 =
           Done (mk_iterator (Some c), heap_5_3_8) ∧
    real_node heap_5_3_8 (mk_bstree (Some 0) 0) c ∧ holds heap_5_3_8 c w ∧
    ((∀ u, u ∈ [3; 8]%Z → (5 ≤ u)%Z) → ∀ u, u ∈ [5; 3; 8]%Z → (u ≤ w)%Z) ∧
    ((∃ u, u ∈ [3; 8]%Z ∧ (u < 5)%Z) → (w < 5)%Z).
Proof.
  apply (decrement_from_end 3 3 5%Z [3; 8]%Z ∅ heap_5_3_8 (mk_bstree (Some 0) 0)).
  - exact build_5_3_8.
  - simpl. lia.
Defined.

Lemma copy_assign_clones_witness :
  ∃ d h h', tree.build 0 ZeroFilled [] heap_5_3_8 = Done (d, h) ∧
    tree.copy_assign 3 ZeroFilled d (mk_bstree (Some 0) 0) h = Done (d, h') ∧
    (∀ v, (∃ b, real_node h' d b ∧ holds h' b v) ↔ v ∈ [5; 3; 8]%Z) ∧
    bst_ordered h' d ∧ no_duplicates h' d ∧
    (∀ b, real_node h' d b → heap_5_3_8 !! b = None) ∧
    (∀ b, is_Some (heap_5_3_8 !! b) → h' !! b = heap_5_3_8 !! b).
Proof.
  destruct (build_total 0 [] heap_5_3_8 (le_n 0)) as (d & h & Hd).
  destruct (copy_assign_clones 3 0 3 [5; 3; 8]%Z [] ∅ heap_5_3_8 h (mk_bstree (Some 0) 0) d
              build_5_3_8 ltac:(discriminate) Hd ltac:(simpl; lia) ltac:(simpl; lia))
    as (h' & Hrun).
  exists d, h, h'. split; [exact Hd|exact Hrun].
Defined.

Lemma find_in_copy_witness :
  ∃ d h h', tree.build 0 ZeroFilled [] heap_5_3_8 = Done (d, h) ∧
    tree.copy_assign 3 ZeroFilled d (mk_bstree (Some 0) 0) h = Done (d, h') ∧
    ∃ b, tree.find 3 d 3%Z h' = Done (mk_iterator (Some b), h') ∧
         real_node h' d b ∧ holds h' b 3%Z.
Proof.
  destruct (build_total 0 [] heap_5_3_8 (le_n 0)) as (d & h & Hd).
  destruct (find_in_copy 3 0 3 [5; 3; 8]%Z [] ∅ heap_5_3_8 h (mk_bstree (Some 0) 0) d 3%Z
              build_5_3_8 ltac:(discriminate) Hd ltac:(simpl; lia) ltac:(simpl; lia))
    as (h' & Hrun & Hin & _).
  exists d, h, h'. split; [exact Hd|]. split; [exact Hrun|]. apply Hin. by_compute.
Defined.

Lemma move_transfers_children_witness :
  ∃ c h', bst_node_move Indeterminate (Some 1) nullptr heap_5_3_8 = Done (Some c, h') ∧
    heap_5_3_8 !! c = None ∧
    h' !! c = Some (mk_node (Val 5%Z) (Val nullptr) (Val (Some 2)) (Val (Some 3))) ∧
    h' !! 2 = Some (mk_node (Val 3%Z) (Val (Some c)) (Val nullptr) (Val nullptr)) ∧
    h' !! 3 = Some (mk_node (Val 8%Z) (Val (Some c)) (Val nullptr) (Val nullptr)) ∧
    h' !! 1 = Some (mk_node (Val 5%Z) (Val (Some 0)) (Val nullptr) (Val nullptr)) ∧
    (∀ b, b ≠ c → b ≠ 2 → b ≠ 3 → b ≠ 1 → h' !! b = heap_5_3_8 !! b) ∧
    bst_node_delete 1 (Some 1) h' = Done (tt, delete 1 h').
Proof.
  apply (move_transfers_children Indeterminate heap_5_3_8 1 2 3 nullptr 5%Z (Val (Some 0))
           (mk_node (Val 3%Z) (Val (Some 1)) (Val nullptr) (Val nullptr))
           (mk_node (Val 8%Z) (Val (Some 1)) (Val nullptr) (Val nullptr)));
    [reflexivity|reflexivity|reflexivity|lia|lia|lia].
Defined.

Lemma build_holds_inserted_witness :
  ∃ b, real_node heap_5_3_8 (mk_bstree (Some 0) 0) b ∧ holds heap_5_3_8 b 8%Z.
Proof.
  apply (build_holds_inserted ZeroFilled 3 [5; 3; 8]%Z ∅ _ _ 8%Z build_5_3_8). by_compute.
Defined.

Lemma front_is_greatest_back_is_least_witness :
  ∃ t h f b, tree.build 3 ZeroFilled [5; 3; 8]%Z ∅ = Done (t, h) ∧
    tree.front t h = Done (f, h) ∧ tree.back t h = Done (b, h) ∧
    f ∈ [5; 3; 8]%Z ∧ b ∈ [5; 3; 8]%Z ∧ ∀ v, v ∈ [5; 3; 8]%Z → (b ≤ v ≤ f)%Z.
Proof.
  apply (front_is_greatest_back_is_least 3 [5; 3; 8]%Z ∅); [discriminate|simpl; lia].
Defined.

Lemma find_on_nonempty_tree_witness :
  ∃ it, tree.find 3 (mk_bstree (Some 0) 0) 4%Z heap_5_3_8 = Done (it, heap_5_3_8) ∧
    ((∃ b, _ptr it = Some b ∧ real_node heap_5_3_8 (mk_bstree (Some 0) 0) b ∧
           holds heap_5_3_8 b 4%Z) ∨
     (tree.end_ (mk_bstree (Some 0) 0) heap_5_3_8 = Done (it, heap_5_3_8) ∧
      ∀ b, real_node heap_5_3_8 (mk_bstree (Some 0) 0) b → ¬ holds heap_5_3_8 b 4%Z)).
Proof.
  apply (find_on_nonempty_tree 3 heap_5_3_8 (mk_bstree (Some 0) 0) shape_5_3_8 4%Z).
  - apply tree_at_5_3_8.
  - discriminate.
  - exact bst_5_3_8.
  - simpl. lia.
Defined.

Lemma leaf_links_never_written_witness :
  ∃ t h, tree.build 1 Indeterminate [5%Z] ∅ = Done (t, h) ∧
    tree.insert 2 Indeterminate t 3%Z h = Undefined ∧
    tree.find 2 t 3%Z h = Undefined ∧
    tree.clear 2 t h = Undefined.
Proof.
  eexists _, _. split; [exact build_leaf_5|].
  apply (leaf_links_never_written 1 5%Z 3%Z ∅ _ _ ltac:(lia) build_leaf_5).
Defined.

Lemma copy_assign_from_empty_witness :
  ∃ s h1 d h hd h', tree.create Indeterminate ∅ = Done (s, h1) ∧
    tree.build 3 ZeroFilled [5; 3; 8]%Z h1 = Done (d, h) ∧
    _header_ptr d = Some hd ∧
    tree.copy_assign 3 ZeroFilled d s h = Done (d, h') ∧
    tree.empty d h' = Done (true, h') ∧ is_Some (h' !! hd) ∧
    (∀ b, real_node h d b → h' !! b = None) ∧
    (∀ b, b ≠ hd → ¬ real_node h d b → h' !! b = h !! b).
Proof.
  eexists _, _. 
  destruct (build_total 3 [5; 3; 8]%Z
              (<[fresh (dom (∅ : gmap addr bst_node)) :=
                   mk_node (raw_data Indeterminate)
                     (Val (Some (fresh (dom (∅ : gmap addr bst_node)))))
                     (Val (Some (fresh (dom (∅ : gmap addr bst_node)))))
                     (Val (Some (fresh (dom (∅ : gmap addr bst_node)))))]> ∅)
              ltac:(simpl; lia)) as (d & h & Hd).
  destruct (copy_assign_from_empty Indeterminate ZeroFilled 3 3 [5; 3; 8]%Z ∅ _ h _ d
              (run_create Indeterminate ∅) Hd ltac:(simpl; lia)) as (hd & h' & Hrun).
  exists d, h, hd, h'. split; [apply run_create|]. split; [exact Hd|exact Hrun].
Defined.

Lemma held_5_3_8 c u :
  real_node heap_5_3_8 (mk_bstree (Some 0) 0) c → holds heap_5_3_8 c u →
  (3 ≤ u ≤ 8)%Z.
Proof.
  intros Hc Hu.
  pose proof (real_holds_nodes (Val nullptr) _ _ _ _ _ ltac:(by right) (tree_at_5_3_8 0) Hc Hu)
    as Hin.
  apply nodes_elem in Hin. change (elems shape_5_3_8) with [3; 5; 8]%Z in Hin.
  repeat (apply elem_of_cons in Hin as [->|Hin]; [lia|]). by apply elem_of_nil in Hin.
Qed.

Lemma traverse_ascending_witness :
  ∃ l, traverse 3 3 (mk_iterator (Some 2)) (mk_iterator (Some 3)) heap_5_3_8 =
         Done (l, heap_5_3_8) ∧
    StronglySorted Z.lt (l ++ [8%Z]) ∧
    ∀ v, v ∈ l ++ [8%Z] ↔
         ∃ c, real_node heap_5_3_8 (mk_bstree (Some 0) 0) c ∧ holds heap_5_3_8 c v.
Proof.
  apply (traverse_ascending 3 3 heap_5_3_8 (mk_bstree (Some 0) 0) shape_5_3_8 2 3 3%Z 8%Z).
  - apply tree_at_5_3_8.
  - exact bst_5_3_8.
  - simpl. lia.
  - simpl. lia.
  - apply real_5_3_8. by_compute.
  - apply holds_5_3_8. by_compute.
  - intros c u Hc Hu. exact (proj1 (held_5_3_8 c u Hc Hu)).
  - apply real_5_3_8. by_compute.
  - apply holds_5_3_8. by_compute.
  - intros c u Hc Hu. exact (proj2 (held_5_3_8 c u Hc Hu)).
Defined.

Lemma clear_after_insert_undefined_witness :
  ∃ t h, tree.build 1 Indeterminate [5%Z] ∅ = Done (t, h) ∧
    tree.empty t h = Done (false, h) ∧
    tree.clear 1 t h = Undefined.
Proof.
  eexists _, _. split; [exact build_leaf_5|].
  destruct (clear_after_insert_undefined 1 1 [5%Z] ∅ _ _ build_leaf_5 ltac:(discriminate))
    as (Hempty & Hund & _).
  split; [exact Hempty|]. apply Hund. simpl. lia.
Defined.
